(** * music_hub: pitch estimation and note mapping (utils/audio)

    A shallow embedding of [getNoteInfo] and [autoCorrelate], the two
    numerical functions of the application, and the properties of the
    specification that concern them.

    ** Number model

    A JavaScript number is modelled by [num]: the special values [NaN],
    [+Infinity], [-Infinity], or a finite value carried as a real number.
    Arithmetic on finite values is exact.  Inside [autoCorrelate] this
    loses nothing: every centered
    sample is [(b - 128) / 128] for a byte [b], every product is an integer
    multiple of [2^-14] of magnitude at most 1, and the sums that the loops
    accumulate are exact in binary64 for any buffer a typed array can hold
    (lemmas [corrAt_exact] and [corrInt_bound]).
    The library functions [Math.sqrt], [Math.log10] and [Math.log2] are the
    real functions, extended to the special values as ECMAScript
    prescribes.  Signed zeros are not distinguished: the only zero the code
    divides by is the lag [mp = 0], a positive zero.

    [getNoteInfo] is sensitive to rounding where a semitone number falls on
    or next to a half-integer.  The module [Binary64] therefore embeds it a
    second time with every operation rounded to binary64, the
    implementation of [Math.log2] being an argument; the properties of the
    cents field and of octaves are stated on that embedding. *)

From Stdlib Require Import Strings.String Strings.Ascii Strings.Byte.
From Stdlib Require Import DecimalString.
From Stdlib Require Import Reals Lra Lia ZArith List Bool.
From Equations Require Import Equations.
Import ListNotations.

Local Open Scope R_scope.

(** ** JavaScript numbers *)

Inductive num : Type :=
| NaN
| PInf
| NInf
| Fin (r : R).

Definition Rltb (a b : R) : bool := if Rlt_dec a b then true else false.
Definition Reqb (a b : R) : bool := if Req_dec_T a b then true else false.

(** [a < b] on numbers: every comparison with [NaN] is false. *)
Definition num_lt (a b : num) : bool :=
  match a, b with
  | NaN, _ | _, NaN => false
  | PInf, _ => false
  | NInf, NInf => false
  | NInf, _ => true
  | Fin _, PInf => true
  | Fin _, NInf => false
  | Fin x, Fin y => Rltb x y
  end.

Definition num_neg (a : num) : num :=
  match a with
  | NaN => NaN
  | PInf => NInf
  | NInf => PInf
  | Fin x => Fin (- x)
  end.

Definition num_add (a b : num) : num :=
  match a, b with
  | NaN, _ | _, NaN => NaN
  | PInf, NInf | NInf, PInf => NaN
  | PInf, _ | _, PInf => PInf
  | NInf, _ | _, NInf => NInf
  | Fin x, Fin y => Fin (x + y)
  end.

Definition num_sub (a b : num) : num := num_add a (num_neg b).

(** The infinity whose sign is that of [x] times the sign of [i];
    [0 * Infinity] is [NaN]. *)
Definition scale_inf (x : R) (i : num) : num :=
  if Rltb 0 x then i else if Rltb x 0 then num_neg i else NaN.

Definition num_mul (a b : num) : num :=
  match a, b with
  | NaN, _ | _, NaN => NaN
  | Fin x, Fin y => Fin (x * y)
  | Fin x, i => scale_inf x i
  | i, Fin y => scale_inf y i
  | PInf, PInf | NInf, NInf => PInf
  | PInf, NInf | NInf, PInf => NInf
  end.

Definition num_div (a b : num) : num :=
  match a, b with
  | NaN, _ | _, NaN => NaN
  | Fin x, Fin y =>
      if Reqb y 0 then scale_inf x PInf else Fin (x / y)
  | Fin _, _ => Fin 0
  | i, Fin y => if Rltb y 0 then num_neg i else i
  | _, _ => NaN
  end.

(** Truncation toward zero, as the [%] operator uses it. *)
Definition Rtrunc (x : R) : Z :=
  if Rltb x 0 then (- Int_part (- x))%Z else Int_part x.

(** The remainder operator [a % b]: the result has the sign of [a]. *)
Definition num_rem (a b : num) : num :=
  match a, b with
  | NaN, _ | _, NaN => NaN
  | PInf, _ | NInf, _ => NaN
  | Fin x, PInf | Fin x, NInf => Fin x
  | Fin x, Fin y =>
      if Reqb y 0 then NaN else Fin (x - y * IZR (Rtrunc (x / y)))
  end.

(** [!x] for a number: true for [NaN] and for zero. *)
Definition falsy (a : num) : bool :=
  match a with
  | NaN => true
  | Fin x => Reqb x 0
  | _ => false
  end.

(** ** The Math library *)

Module Math.

Definition sqrt (a : num) : num :=
  match a with
  | NaN | NInf => NaN
  | PInf => PInf
  | Fin x => if Rltb x 0 then NaN else Fin (R_sqrt.sqrt x)
  end.

(** Logarithm in base [b]: [-Infinity] at zero, [NaN] below. *)
Definition log (b : R) (a : num) : num :=
  match a with
  | NaN | NInf => NaN
  | PInf => PInf
  | Fin x =>
      if Rltb x 0 then NaN
      else if Reqb x 0 then NInf
      else Fin (ln x / ln b)
  end.

Definition log10 : num -> num := log 10.
Definition log2 : num -> num := log 2.

Definition floor (a : num) : num :=
  match a with
  | Fin x => Fin (IZR (Int_part x))
  | _ => a
  end.

(** The nearest integer, a tie going to the one closer to [+Infinity]. *)
Definition round (a : num) : num :=
  match a with
  | Fin x => Fin (IZR (Int_part (x + / 2)))
  | _ => a
  end.

End Math.

(** ** Values, strings and array reads *)

(** The values a [NoteInfo] field can hold at run time.  The TypeScript
    type says [string]; an out-of-range table read yields [undefined], and
    [undefined + number] is a number. *)
Inductive value : Type :=
| VUndefined
| VNumber (n : num)
| VString (s : string).

Record NoteInfo : Type := mkNoteInfo {
  note : value;
  solfege : value;
  cents : num
}.

(** Decimal rendering of a number.  It is applied to octave numbers only,
    which are integral when finite. *)
Definition num_to_string (a : num) : string :=
  match a with
  | NaN => "NaN"
  | PInf => "Infinity"
  | NInf => "-Infinity"
  | Fin x => NilZero.string_of_int (Z.to_int (Int_part x))
  end.

(** [arr[i]] for a number [i]: the element when [i] is an integer index
    inside the array, [undefined] otherwise. *)
Definition index (arr : list string) (i : num) : value :=
  match i with
  | Fin x =>
      let k := Int_part x in
      if Reqb (IZR k) x && (0 <=? k)%Z then
        match nth_error arr (Z.to_nat k) with
        | Some s => VString s
        | None => VUndefined
        end
      else VUndefined
  | _ => VUndefined
  end.

(** [v + n]: concatenation when [v] is a string, addition otherwise
    ([undefined] converts to [NaN]). *)
Definition js_plus (v : value) (n : num) : value :=
  match v with
  | VString s => VString (s ++ num_to_string n)%string
  | VNumber m => VNumber (num_add m n)
  | VUndefined => VNumber (num_add NaN n)
  end.

(** ** NoteMapper *)

Definition noteNames : list string :=
  ["C"; "C#"; "D"; "D#"; "E"; "F"; "F#"; "G"; "G#"; "A"; "A#"; "B"]%string.

Definition solfegeNames : list string :=
  ["Do"; "Di"; "Re"; "Ri"; "Mi"; "Fa"; "Fi"; "Sol"; "Si"; "La"; "Li"; "Ti"]%string.

Definition noNote : NoteInfo :=
  {| note := VString "--"; solfege := VString "--"; cents := Fin 0 |}.

(** The continuous semitone number of a frequency. *)
Definition semitone (freq : num) : num :=
  num_add (num_mul (Fin 12) (Math.log2 (num_div freq (Fin 440)))) (Fin 69).

Definition pitchClass (midi : num) : num := num_rem midi (Fin 12).

Definition octaveOf (midi : num) : num :=
  num_sub (Math.floor (num_div midi (Fin 12))) (Fin 1).

Definition getNoteInfo (freq : num) : NoteInfo :=
  if falsy freq || num_lt freq (Fin 20) then noNote
  else
    let n := semitone freq in
    let midi := Math.round n in
    let diff := num_sub n midi in
    let idx := pitchClass midi in
    let octave := octaveOf midi in
    {| note := js_plus (index noteNames idx) octave;
       solfege := index solfegeNames idx;
       cents := num_mul diff (Fin 100) |}.

(** ** NoteMapper in binary64 arithmetic *)

(** The arithmetic of [getNoteInfo] as the engine performs it: every
    operation returns the binary64 number nearest to its exact result, a tie
    going to the number whose last bit is even.  Signed zeros are not
    distinguished.  [Math.round], [Math.floor] and [%] are exact. *)
Module Binary64.

(** [2^e] for an integer exponent. *)
Definition pow2 (e : Z) : R := powerRZ 2 e.

(** The binade of a non-zero number: [2^(mag x) <= |x| < 2^(mag x + 1)]. *)
Definition mag (x : R) : Z := Int_part (ln (Rabs x) / ln 2).

(** The exponent of the last place of [x]: 53 significant bits, the
    subnormal numbers sharing the exponent -1074. *)
Definition cexp (x : R) : Z := Z.max (mag x - 52) (-1074).

(** The nearest integer, a tie going to the even one. *)
Definition nearestEven (x : R) : Z :=
  let k := Int_part x in
  if Rltb (x - IZR k) (/ 2) then k
  else if Rltb (/ 2) (x - IZR k) then (k + 1)%Z
  else if Z.even k then k else (k + 1)%Z.

(** Rounding to the nearest number with 53 significant bits. *)
Definition rnd (x : R) : R :=
  IZR (nearestEven (x * pow2 (- cexp x))) * pow2 (cexp x).

(** The largest finite number, [(2^53 - 1) * 2^971]. *)
Definition maxFinite : R := (pow2 53 - 1) * pow2 971.

(** The number an operation returns when its exact result is [a]: the
    rounded value, or an infinity when that exceeds the largest finite
    number. *)
Definition round64 (a : num) : num :=
  match a with
  | Fin x =>
      let v := rnd x in
      if Rltb maxFinite v then PInf
      else if Rltb v (- maxFinite) then NInf
      else Fin v
  | _ => a
  end.

Definition add (a b : num) : num := round64 (num_add a b).
Definition sub (a b : num) : num := round64 (num_sub a b).
Definition mul (a b : num) : num := round64 (num_mul a b).
Definition div (a b : num) : num := round64 (num_div a b).

(** [Math.log2] when the engine rounds it correctly.  ECMAScript leaves the
    accuracy of [Math.log2] to the implementation, so the functions below
    take the implementation as an argument [mathLog2]; this one is the
    instance used where a result is computed. *)
Definition log2 (a : num) : num := round64 (Math.log2 a).

(** The numbers of the format, exponent range unbounded above. *)
Definition representable (x : R) : Prop :=
  exists M e : Z,
    x = IZR M * pow2 e /\ (Z.abs M < 2 ^ 53)%Z /\ (-1074 <= e)%Z.

Definition semitone (mathLog2 : num -> num) (freq : num) : num :=
  add (mul (Fin 12) (mathLog2 (div freq (Fin 440)))) (Fin 69).

Definition octaveOf (midi : num) : num :=
  sub (Math.floor (div midi (Fin 12))) (Fin 1).

Definition getNoteInfo (mathLog2 : num -> num) (freq : num) : NoteInfo :=
  if falsy freq || num_lt freq (Fin 20) then noNote
  else
    let n := semitone mathLog2 freq in
    let midi := Math.round n in
    let diff := sub n midi in
    let idx := pitchClass midi in
    let octave := octaveOf midi in
    {| note := js_plus (index noteNames idx) octave;
       solfege := index solfegeNames idx;
       cents := mul diff (Fin 100) |}.

End Binary64.

(** ** PitchEstimator *)

(** A sample read as a number. *)
Definition sample (b : byte) : R := IZR (Z.of_N (Byte.to_N b)).

(** The centered fraction [(b - 128) / 128] of a sample. *)
Definition centered (b : byte) : R := (sample b - 128) / 128.

(** The accumulated sum of squares, named [rms] in the source. *)
Definition sumSquares (buf : list byte) : R :=
  fold_left (fun rms b => let val := centered b in rms + val * val) buf 0.

(** The level [20 * log10 (sqrt (rms / length)) + 100]. *)
Definition level (buf : list byte) : num :=
  num_add
    (num_mul (Fin 20)
       (Math.log10
          (Math.sqrt (num_div (Fin (sumSquares buf)) (Fin (INR (length buf)))))))
    (Fin 100).

(** [Math.abs ((buf[i] - 128) / 128) < 0.2]; a read outside the buffer gives
    [undefined], the arithmetic [NaN], and the comparison false. *)
Definition quiet (buf : list byte) (i : nat) : bool :=
  match nth_error buf i with
  | Some b => Rltb (Rabs (centered b)) 0.2
  | None => false
  end.

(** The number of indices [i] with [i < length / 2]. *)
Definition halfCount (len : nat) : nat := (len + 1) / 2.

(** First loop: [r1] is the first quiet index of the first half, or 0. *)
Definition trimStart (buf : list byte) : Z :=
  match find (quiet buf) (seq 0 (halfCount (length buf))) with
  | Some i => Z.of_nat i
  | None => 0%Z
  end.

(** Second loop: [i] runs from 1 while [i < length / 2], looking at
    [buf[length - i]]; [r2] starts at [length - 1]. *)
Definition trimEnd (buf : list byte) : Z :=
  let len := length buf in
  match find (fun i => quiet buf (len - i)) (seq 1 (halfCount len - 1)) with
  | Some i => (Z.of_nat len - Z.of_nat i)%Z
  | None => (Z.of_nat len - 1)%Z
  end.

(** A relative index of [slice], clamped to the array. *)
Definition clampIndex (len k : Z) : Z :=
  if (k <? 0)%Z then Z.max (len + k) 0 else Z.min k len.

(** [arr.slice(start, stop)]: the half-open range between the clamped
    indices, empty when they cross. *)
Definition slice {A : Type} (arr : list A) (start stop : Z) : list A :=
  let len := Z.of_nat (length arr) in
  let from := clampIndex len start in
  let to := clampIndex len stop in
  firstn (Z.to_nat (to - from)) (skipn (Z.to_nat from) arr).

Definition trimmed (buf : list byte) : list byte :=
  slice buf (trimStart buf) (trimEnd buf).

(** [b2[j]] in the correlation loops, where [j] is always inside [b2]. *)
Definition at_ (b2 : list byte) (j : nat) : R := sample (nth j b2 "000"%byte).

(** The entry [c[i]] after the inner loop over [j < sz - i]. *)
Definition corrAt (b2 : list byte) (i : nat) : R :=
  fold_left
    (fun ci j => ci + (at_ b2 j - 128) / 128 * (at_ b2 (j + i) - 128) / 128)
    (seq 0 (length b2 - i)) 0.

(** The array [c] after the two nested loops. *)
Definition correlate (b2 : list byte) : list R :=
  map (corrAt b2) (seq 0 (length b2)).

(** [a > b] on array reads: a read past the end is [undefined], which
    compares false. *)
Definition js_gt (a b : option R) : bool :=
  match a, b with
  | Some x, Some y => Rltb y x
  | _, _ => false
  end.

(** A value together with the equation that names it, so that the loop
    below keeps the outcome of its test. *)
Definition inspect {A : Type} (a : A) : {b : A | a = b} := exist _ a eq_refl.

(** [while (c[d] > c[d + 1]) d++], started at [d].  The recursion is on
    the distance of [d] to the end of [c]: a test that holds has read
    [c[d + 1]] inside the array. *)
Equations? descent (c : list R) (d : nat) : nat by wf (length c - d)%nat lt :=
  descent c d with inspect (js_gt (nth_error c d) (nth_error c (S d))) := {
    | exist _ true H => descent c (S d);
    | exist _ false _ => d }.
Proof.
  (* the test held, so the read of c[d + 1] was inside the array *)
  change (js_gt (nth_error c d) (nth_error c (S d)) = true) in H.
  assert (S d < length c)%nat; [| lia].
  apply nth_error_Some. intros E. rewrite E in H.
  destruct (nth_error c d); discriminate.
Qed.

(** The runs of the same loop, iteration by iteration: [loopRun c d d']
    holds when the loop entered with index [d] exits with index [d'].  A
    loop that never exits has no run. *)
Inductive loopRun (c : list R) : nat -> nat -> Prop :=
| loopExit (d : nat) :
    js_gt (nth_error c d) (nth_error c (S d)) = false -> loopRun c d d
| loopIter (d d' : nat) :
    js_gt (nth_error c d) (nth_error c (S d)) = true ->
    loopRun c (S d) d' -> loopRun c d d'.

(** One iteration of the peak loop on the state [(mx, mp)]. *)
Definition peakStep (c : list R) (st : R * Z) (i : nat) : R * Z :=
  match nth_error c i with
  | Some ci => if Rltb (fst st) ci then (ci, Z.of_nat i) else st
  | None => st
  end.

(** [for (i = d; i < sz; i++) if (c[i] > mx) { mx = c[i]; mp = i }] from
    [mx = -1, mp = -1]. *)
Definition peak (c : list R) (d : nat) : R * Z :=
  fold_left (peakStep c) (seq d (length c - d)) (-1, (-1)%Z).

(** The sentinel of the loudness gate. *)
Definition noPitch : num := Fin (-1).

Definition autoCorrelate (buf : list byte) (sampleRate gate : num) : num :=
  let db := level buf in
  if num_lt db gate then noPitch
  else
    let b2 := trimmed buf in
    let c := correlate b2 in
    let d := descent c 0 in
    let mp := snd (peak c d) in
    num_div sampleRate (Fin (IZR mp)).

(** The default argument [gate = 30]. *)
Definition autoCorrelateDefault (buf : list byte) (sampleRate : num) : num :=
  autoCorrelate buf sampleRate (Fin 30).

(** ** The quantities of the specification *)

(** [sum_{j < k} f j], the terms added in increasing order of [j]. *)
Fixpoint bigsum (f : nat -> R) (k : nat) : R :=
  match k with
  | O => 0
  | S k' => bigsum f k' + f k'
  end.

(** The centered fraction of sample [i] of the working buffer. *)
Definition fraction (b2 : list byte) (i : nat) : R :=
  centered (nth i b2 "000"%byte).

(** The unnormalized autocorrelation
    [c[lag] = sum_{j = 0}^{n - lag - 1} x[j] * x[j + lag]]. *)
Definition acf (x : nat -> R) (n lag : nat) : R :=
  bigsum (fun j => x j * x (j + lag)%nat) (n - lag).

(** [c[i] > c[j]] for an array of [n] entries: false when a read falls
    outside. *)
Definition exceeds (c : nat -> R) (n i j : nat) : Prop :=
  (i < n)%nat /\ (j < n)%nat /\ c j < c i.

(** [d] is the least index at which [c[d] > c[d + 1]] does not hold. *)
Definition descentStop (c : nat -> R) (n d : nat) : Prop :=
  ~ exceeds c n d (S d) /\
  forall k, (k < d)%nat -> exceeds c n k (S k).

(** [mp] is the earliest lag of [[d, n)] that attains the maximum of [c]
    there. *)
Definition firstMax (c : nat -> R) (d n mp : nat) : Prop :=
  (d <= mp < n)%nat /\
  (forall k, (d <= k < n)%nat -> c k <= c mp) /\
  (forall k, (d <= k < mp)%nat -> c k < c mp).

(** The list [c] holds the values of [cf] at the indices below [n]. *)
Definition tabulates (c : list R) (cf : nat -> R) (n : nat) : Prop :=
  length c = n /\ forall k, (k < n)%nat -> nth_error c k = Some (cf k).

(** The mean square [rms / buf.length] of a non-empty buffer. *)
Definition meanSquare (buf : list byte) : R := sumSquares buf / INR (length buf).

(** The bytes whose centered magnitude is below 0.2: those from 103 to
    153, since [0.2 * 128 = 25.6].  The binary64 number nearest to 0.2
    separates the same bytes, no centered fraction lying that close. *)
Definition quietByte (b : byte) : bool :=
  ((103 <=? Byte.to_N b) && (Byte.to_N b <=? 153))%N.

(** A gate threshold that is at least zero. *)
Definition nonNegative (g : num) : Prop :=
  match g with
  | PInf => True
  | Fin x => 0 <= x
  | _ => False
  end.

(** Decimal rendering of an integer. *)
Definition decimal (z : Z) : string := NilZero.string_of_int (Z.to_int z).

(** Two results whose notes are the same letter with octave numbers one
    apart, under the same solfege label. *)
Definition octaveAbove (lo hi : NoteInfo) : Prop :=
  exists (letter sol : string) (o : Z),
    note lo = VString (letter ++ decimal o) /\
    solfege lo = VString sol /\
    note hi = VString (letter ++ decimal (o + 1)) /\
    solfege hi = VString sol.

(** ** Integer form of the correlation *)

(** A sample moved to the center, as an integer in [[-128, 127]]. *)
Definition offset (b : byte) : Z := (Z.of_N (Byte.to_N b) - 128)%Z.

(** The entry [c[i]] scaled by [128 * 128]: a sum of integer products. *)
Definition corrInt (b2 : list byte) (i : nat) : Z :=
  fold_left
    (fun ci j =>
       (ci + offset (nth j b2 "000"%byte) * offset (nth (j + i) b2 "000"%byte))%Z)
    (seq 0 (length b2 - i)) 0%Z.

(** ** Inputs used in examples *)

(** A loud square wave of period two samples. *)
Definition squareWave : list byte :=
  ["255"; "000"; "255"; "000"; "255"; "000"]%byte.

(** Loud edges around a silent middle. *)
Definition loudEdges : list byte :=
  ["255"; "128"; "128"; "128"; "128"; "255"]%byte.

(** A faint one-sample buffer: one step off the center. *)
Definition faint : list byte := ["129"]%byte.

(** Four loud samples: no sample is quiet. *)
Definition allLoud : list byte := ["255"; "255"; "255"; "255"]%byte.

(** An array that decreases once. *)
Definition dip : list R := [3; 1; 2].

(** The binary64 number 452.8929841231365, the nearest to the frequency a
    quarter tone above 440 Hz. *)
Definition quarterToneUp : R := 7967377634904959 / 17592186044416.

(** The binary64 number 226.44649206156814, four units in the last place
    below the frequency a quarter tone above 220 Hz. *)
Definition underQuarterTone : R := 7967377634904955 / 35184372088832.

(** ** Recorder (components/RecorderExperiment) *)

(** The value read from the [holes] array at an index: a boolean, or
    [undefined] ([None]) outside the array and in a slot never written. *)
Definition holeAt (holes : list (option bool)) (i : nat) : option bool :=
  nth i holes None.

(** Truthiness of such a value: [undefined] is falsy. *)
Definition truthy (h : option bool) : bool :=
  match h with
  | Some b => b
  | None => false
  end.

(** The initial state [Array(8).fill(false)]. *)
Definition noHoleCovered : list (option bool) := repeat (Some false) 8.

(** [toggleHole]: the array is copied and [newHoles[index]] is set to
    [!newHoles[index]]; a write past the end lengthens the array, leaving
    empty slots in between.  The index is a non-negative integer. *)
Definition toggleHole (holes : list (option bool)) (index : nat)
  : list (option bool) :=
  let v := Some (negb (truthy (holeAt holes index))) in
  if (index <? length holes)%nat
  then firstn index holes ++ v :: skipn (S index) holes
  else holes ++ repeat None (index - length holes) ++ [v].

(** The loop shared by [calculatePitch] and [getAirColumnHeight]:
    [firstOpen] is the first [i < 8] with [!holes[i]], or 8. *)
Definition firstOpen (holes : list (option bool)) : nat :=
  match find (fun i => negb (truthy (holeAt holes i))) (seq 0 8) with
  | Some i => i
  | None => 8%nat
  end.

Definition recorderFreqs : list R :=
  [1174; 1046; 987; 880; 783; 698; 659; 587; 523].

(** [freqs[firstOpen] || 523]. *)
Definition calculatePitch (holes : list (option bool)) : num :=
  match nth_error recorderFreqs (firstOpen holes) with
  | Some f => if falsy (Fin f) then Fin 523 else Fin f
  | None => Fin 523
  end.

(** [10 + (firstOpen / 8) * 90], a percentage. *)
Definition getAirColumnHeight (holes : list (option bool)) : R :=
  10 + INR (firstOpen holes) / 8 * 90.

(** What [updateAudio] hands to [setPitch] while blowing. *)
Record PitchDisplay : Type := mkPitchDisplay {
  hz : num;
  shownNote : value;
  shownSolfege : value
}.

Definition recorderDisplay (holes : list (option bool)) : PitchDisplay :=
  let freq := calculatePitch holes in
  let info := getNoteInfo freq in
  {| hz := freq; shownNote := note info; shownSolfege := solfege info |}.

(** The C major scale from D6 down to C5, which the frequency table of the
    recorder is meant to follow, and its solfege labels. *)
Definition scaleNotes : list string :=
  ["D6"; "C6"; "B5"; "A5"; "G5"; "F5"; "E5"; "D5"; "C5"]%string.

Definition scaleSolfege : list string :=
  ["Re"; "Do"; "Ti"; "La"; "Sol"; "Fa"; "Mi"; "Re"; "Do"]%string.

(** ** Violin (components/ViolinExperiment) *)

Record ViolinString : Type := mkViolinString {
  name : string;
  base : R;
  tension : R;
  xOff : R;
  thick : R
}.

Definition stdViolin : list ViolinString :=
  [ {| name := "G3"; base := 196; tension := 50; xOff := 0.2; thick := 4 |};
    {| name := "D4"; base := 293.7; tension := 50; xOff := 0.4; thick := 3 |};
    {| name := "A4"; base := 440; tension := 50; xOff := 0.6; thick := 2 |};
    {| name := "E5"; base := 659.3; tension := 50; xOff := 0.8; thick := 1 |} ].

(** [arr[idx]] for an integer index: [undefined] ([None]) when the index is
    negative or past the end. *)
Definition stringAt (strings : list ViolinString) (idx : Z)
  : option ViolinString :=
  if (idx <? 0)%Z then None else nth_error strings (Z.to_nat idx).

(** [getViolinFreq].  [canvasHeight] is the height of the canvas, [None]
    while there is no canvas.  The result is [None] when the function
    throws: [s] is [undefined] and [s.tension] is read. *)
Definition getViolinFreq (canvasHeight : option R) (idx : Z) (yPos : R)
  (currentStrings : list ViolinString) : option num :=
  match stringAt currentStrings idx with
  | None => None
  | Some s =>
      let tf := 1 + (tension s - 50) * 0.01 in
      let lf :=
        match canvasHeight with
        | Some height =>
            if negb (Reqb yPos (-1))
            then num_div (Fin (height * 1.5)) (Fin (height * 1.5 - yPos))
            else Fin 1
        | None => Fin 1
        end in
      Some (num_mul (Fin (base s * tf)) lf)
  end.

(** [updateFrequency], as far as the displayed pitch goes: the new value of
    the [pitch] state, or [None] when [getViolinFreq] throws.  Nothing
    changes while no string is active. *)
Definition updateFrequency (canvasHeight : option R) (activeStringIdx : Z)
  (fingerY : R) (strings : list ViolinString) (pitch : PitchDisplay)
  : option PitchDisplay :=
  if (activeStringIdx =? -1)%Z then Some pitch
  else
    match getViolinFreq canvasHeight activeStringIdx fingerY strings with
    | None => None
    | Some f =>
        let i := getNoteInfo f in
        Some {| hz := Math.round f;
                shownNote := note i;
                shownSolfege := solfege i |}
    end.





(** ** Pitch detection of the wave experiment (components/WaveExperiment) *)

(** The detection step of [draw] while recording with the microphone on:
    the new value of the [detectedPitch] state.  An estimate outside
    [(50, 5000)] leaves the state as it was. *)
Definition detectPitch (dataArray : list byte) (sampleRate noiseGate : num)
  (detectedPitch : PitchDisplay) : PitchDisplay :=
  let freq := autoCorrelate dataArray sampleRate noiseGate in
  if num_lt (Fin 50) freq && num_lt freq (Fin 5000)
  then
    let info := getNoteInfo freq in
    {| hz := Math.round freq;
       shownNote := note info;
       shownSolfege := solfege info |}
  else detectedPitch.

(** The state before any detection: [{ hz: 0, note: '--', solfege: '--' }]. *)
Definition noDetection : PitchDisplay :=
  {| hz := Fin 0; shownNote := VString "--"; shownSolfege := VString "--" |}.

(** The trigger of [draw]: the first [i < length - 1] with
    [dataArray[i] < 128] and [dataArray[i + 1] >= 128], or 0. *)
Definition risingEdge (dataArray : list byte) (i : nat) : bool :=
  match nth_error dataArray i, nth_error dataArray (i + 1) with
  | Some a, Some b => ((Byte.to_N a <? 128) && (128 <=? Byte.to_N b))%N
  | _, _ => false
  end.

Definition trigger (dataArray : list byte) : nat :=
  match find (risingEdge dataArray) (seq 0 (length dataArray - 1)) with
  | Some i => i
  | None => 0%nat
  end.

(** ** Metronome (components/WaveExperiment, MetronomeExperiment) *)










(** ** The shared audio context (utils/audio) *)

(** The module variable [audioCtx] together with what the calls did to the
    browser: contexts are named by the order of their construction,
    [created] counts the constructor calls and [resumed] the calls of
    [resume]. *)
Record AudioModule : Type := mkAudioModule {
  audioCtx : option nat;
  created : nat;
  resumed : nat
}.

(** The module as loaded: [let audioCtx = null]. *)
Definition audioModuleLoaded : AudioModule :=
  {| audioCtx := None; created := 0; resumed := 0 |}.

(** [getAudioContext]: [suspended] is what [audioCtx.state === 'suspended']
    evaluates to in this call.  The result is the context returned and the
    module afterwards. *)
Definition getAudioContext (suspended : bool) (m : AudioModule)
  : nat * AudioModule :=
  let '(ctx, m1) :=
    match audioCtx m with
    | Some c => (c, m)
    | None => (created m,
               {| audioCtx := Some (created m);
                  created := S (created m);
                  resumed := resumed m |})
    end in
  let m2 :=
    if suspended
    then {| audioCtx := audioCtx m1; created := created m1;
            resumed := S (resumed m1) |}
    else m1 in
  (ctx, m2).

(** A sequence of calls, each with its observation of the context state:
    the contexts returned and the module at the end. *)
Fixpoint getAudioContextCalls (observed : list bool) (m : AudioModule)
  : list nat * AudioModule :=
  match observed with
  | [] => ([], m)
  | suspended :: rest =>
      let '(ctx, m1) := getAudioContext suspended m in
      let '(ctxs, m2) := getAudioContextCalls rest m1 in
      (ctx :: ctxs, m2)
  end.

(** ** Semitone of a rational frequency *)

(** An integer test for "the frequency [P / Q] rounds to semitone [m]":
    [m - 1/2 <= 12 log2 (P / (440 Q)) + 69 < m + 1/2], raised to the power
    24 so that only integers are compared:
    [2^(2m - 139) <= (P / (440 Q))^24 < 2^(2m - 137)]. *)
Definition roundsTo (P Q m : Z) : bool :=
  ((0 <? P) && (0 <? Q) &&
   ((440 * Q) ^ 24 * 2 ^ Z.of_nat (Z.to_nat (2 * m - 139))
    <=? P ^ 24 * 2 ^ Z.of_nat (Z.to_nat (- (2 * m - 139)))) &&
   (P ^ 24 * 2 ^ Z.of_nat (Z.to_nat (- (2 * m - 137)))
    <? (440 * Q) ^ 24 * 2 ^ Z.of_nat (Z.to_nat (2 * m - 137))))%Z.

(** * Properties *)

(** ** Comparisons of reals *)

Lemma Rltb_true (a b : R) : a < b -> Rltb a b = true.
Proof. intros H. unfold Rltb. destruct (Rlt_dec a b); [reflexivity | contradiction]. Qed.

Lemma Rltb_false (a b : R) : b <= a -> Rltb a b = false.
Proof. intros H. unfold Rltb. destruct (Rlt_dec a b); [lra | reflexivity]. Qed.

Lemma Rltb_true_iff (a b : R) : Rltb a b = true <-> a < b.
Proof.
  split; [| apply Rltb_true].
  unfold Rltb. destruct (Rlt_dec a b); [trivial | discriminate].
Qed.

Lemma Rltb_false_iff (a b : R) : Rltb a b = false <-> b <= a.
Proof.
  split; [| apply Rltb_false].
  unfold Rltb. destruct (Rlt_dec a b); [discriminate | lra].
Qed.

Lemma Reqb_true (a b : R) : a = b -> Reqb a b = true.
Proof. intros H. unfold Reqb. destruct (Req_dec_T a b); [reflexivity | contradiction]. Qed.

Lemma Reqb_false (a b : R) : a <> b -> Reqb a b = false.
Proof. intros H. unfold Reqb. destruct (Req_dec_T a b); [contradiction | reflexivity]. Qed.

(** Decides the comparisons of closed real expressions in the goal. *)
Ltac decide_reals :=
  repeat match goal with
    | |- context [Rltb ?a ?b] =>
        first [ rewrite (Rltb_true a b) by lra
              | rewrite (Rltb_false a b) by lra ]
    | |- context [Reqb ?a ?b] =>
        first [ rewrite (Reqb_true a b) by lra
              | rewrite (Reqb_false a b) by lra ]
    end.

(** ** Integer parts *)

Lemma Int_part_bounds (x : R) : IZR (Int_part x) <= x < IZR (Int_part x) + 1.
Proof. destruct (base_Int_part x). lra. Qed.

Lemma Int_part_IZR (z : Z) : Int_part (IZR z) = z.
Proof. symmetry. apply Int_part_spec. lra. Qed.

Lemma Int_part_shift (x : R) (k : Z) : Int_part (x + IZR k) = (Int_part x + k)%Z.
Proof.
  symmetry. apply Int_part_spec. rewrite plus_IZR.
  pose proof (Int_part_bounds x). lra.
Qed.

Lemma Int_part_div12 (m : Z) : Int_part (IZR m / 12) = (m / 12)%Z.
Proof.
  symmetry. apply Int_part_spec.
  pose proof (Z.div_mod m 12 ltac:(lia)) as E.
  pose proof (Z.mod_pos_bound m 12 ltac:(lia)) as [L U].
  apply IZR_le in L. apply IZR_lt in U.
  apply (f_equal IZR) in E. rewrite plus_IZR, mult_IZR in E.
  lra.
Qed.

Lemma Rtrunc_div12 (m : Z) : (0 <= m)%Z -> Rtrunc (IZR m / 12) = (m / 12)%Z.
Proof.
  intros H. unfold Rtrunc. apply IZR_le in H.
  rewrite Rltb_false by lra. apply Int_part_div12.
Qed.

(** ** Samples *)

Lemma sample_range (b : byte) : 0 <= sample b <= 255.
Proof.
  unfold sample. pose proof (Byte.to_N_bounded b).
  split; apply IZR_le; lia.
Qed.

Lemma centered_range (b : byte) : -1 <= centered b <= 127 / 128.
Proof. unfold centered. pose proof (sample_range b). lra. Qed.

Lemma product_above_minus_one (x y : R) :
  -1 <= x <= 127 / 128 -> -1 <= y <= 127 / 128 -> -1 < x * y.
Proof.
  intros [Hx1 Hx2] [Hy1 Hy2].
  assert (0 <= (x + 1) * (y + 1)) by (apply Rmult_le_pos; lra).
  assert (0 <= (127 / 128 - x) * (127 / 128 - y)) by (apply Rmult_le_pos; lra).
  lra.
Qed.

(** ** The autocorrelation array *)

Lemma fold_left_pointwise {A B : Type} (f g : A -> B -> A) (l : list B) (a : A) :
  (forall x y, f x y = g x y) -> fold_left f l a = fold_left g l a.
Proof.
  intros E. revert a. induction l as [| y l IH]; intros a; simpl.
  - reflexivity.
  - rewrite E. apply IH.
Qed.

Lemma fold_bigsum (f : nat -> R) (k : nat) :
  fold_left (fun acc j => acc + f j) (seq 0 k) 0 = bigsum f k.
Proof.
  induction k as [| k IH]; [reflexivity |].
  rewrite seq_S, fold_left_app. simpl. rewrite IH. reflexivity.
Qed.

Lemma corrAt_acf (b2 : list byte) (i : nat) :
  corrAt b2 i = acf (fraction b2) (length b2) i.
Proof.
  unfold corrAt, acf. rewrite <- fold_bigsum.
  apply fold_left_pointwise. intros ci j.
  unfold fraction, centered, at_. lra.
Qed.

Lemma nth_error_seq0 (n k : nat) : (k < n)%nat -> nth_error (seq 0 n) k = Some k.
Proof.
  intros H. rewrite (nth_error_nth' _ 0%nat) by (rewrite length_seq; exact H).
  rewrite seq_nth by exact H. reflexivity.
Qed.

Lemma correlate_tabulates (b2 : list byte) :
  tabulates (correlate b2) (acf (fraction b2) (length b2)) (length b2).
Proof.
  unfold tabulates, correlate. split.
  - rewrite length_map, length_seq. reflexivity.
  - intros k Hk. rewrite <- corrAt_acf.
    apply map_nth_error, nth_error_seq0, Hk.
Qed.

Lemma tabulates_outside (c : list R) (cf : nat -> R) (n k : nat) :
  tabulates c cf n -> (n <= k)%nat -> nth_error c k = None.
Proof. intros [L _] H. apply nth_error_None. lia. Qed.

(** Every entry is an integer over [128 * 128], so that the sums of the
    loops are exact in binary floating point as long as the integer fits
    the significand. *)
Lemma corrAt_exact (b2 : list byte) (i : nat) :
  corrAt b2 i = IZR (corrInt b2 i) / 16384.
Proof.
  unfold corrAt, corrInt.
  assert (G : forall l a,
    fold_left
      (fun ci j => ci + (at_ b2 j - 128) / 128 * (at_ b2 (j + i) - 128) / 128)
      l (IZR a / 16384) =
    IZR (fold_left
           (fun ci j =>
              (ci + offset (nth j b2 "000"%byte)
                    * offset (nth (j + i) b2 "000"%byte))%Z) l a) / 16384).
  { induction l as [| j l IH]; intros a; simpl; [reflexivity |].
    rewrite <- IH. f_equal.
    unfold at_, sample, offset.
    rewrite plus_IZR, mult_IZR, !minus_IZR. field. }
  rewrite <- G. f_equal. unfold Rdiv. rewrite Rmult_0_l. reflexivity.
Qed.

Lemma offset_range (b : byte) : (-128 <= offset b <= 127)%Z.
Proof. unfold offset. pose proof (Byte.to_N_bounded b). lia. Qed.

Lemma corrInt_bound (b2 : list byte) (i : nat) :
  (Z.abs (corrInt b2 i) <= 16384 * Z.of_nat (length b2 - i))%Z.
Proof.
  unfold corrInt.
  assert (G : forall l a,
    (Z.abs (fold_left
       (fun ci j =>
          ci + offset (nth j b2 "000"%byte) * offset (nth (j + i) b2 "000"%byte))
       l a) <= Z.abs a + 16384 * Z.of_nat (length l))%Z).
  { induction l as [| j l IH]; intros a; simpl fold_left; simpl length; [lia |].
    specialize (IH (a + offset (nth j b2 "000"%byte)
                        * offset (nth (j + i) b2 "000"%byte))%Z).
    pose proof (offset_range (nth j b2 "000"%byte)).
    pose proof (offset_range (nth (j + i) b2 "000"%byte)).
    nia. }
  specialize (G (seq 0 (length b2 - i)) 0%Z).
  rewrite length_seq in G. simpl Z.abs in G. lia.
Qed.

(** The last entry is a single product, hence above the initial [mx]. *)
Lemma acf_last (b2 : list byte) :
  (1 <= length b2)%nat ->
  -1 < acf (fraction b2) (length b2) (length b2 - 1).
Proof.
  intros H. unfold acf.
  replace (length b2 - (length b2 - 1))%nat with 1%nat by lia.
  simpl. rewrite Rplus_0_l.
  apply product_above_minus_one; apply centered_range.
Qed.

(** ** The descent loop *)

Lemma descent_step (c : list R) (d : nat) :
  descent c d =
  if js_gt (nth_error c d) (nth_error c (S d)) then descent c (S d) else d.
Proof.
  funelim (descent c d);
    match goal with E : js_gt _ _ = _ |- _ => rewrite E end; reflexivity.
Qed.

Lemma js_gt_spec (c : list R) (cf : nat -> R) (n i j : nat) :
  tabulates c cf n ->
  (js_gt (nth_error c i) (nth_error c j) = true <-> exceeds cf n i j).
Proof.
  intros T. unfold exceeds.
  destruct (Nat.lt_ge_cases i n) as [Hi | Hi];
    [| rewrite (tabulates_outside _ _ _ _ T Hi); simpl; split;
       [discriminate | lia]].
  destruct (Nat.lt_ge_cases j n) as [Hj | Hj];
    [| rewrite (tabulates_outside _ _ _ _ T Hj);
       destruct (nth_error c i); simpl; split; try discriminate; lia].
  destruct T as [_ T]. rewrite (T i Hi), (T j Hj). simpl.
  rewrite Rltb_true_iff. tauto.
Qed.

Lemma js_gt_in_bounds (c : list R) (d : nat) :
  js_gt (nth_error c d) (nth_error c (S d)) = true -> (S d < length c)%nat.
Proof.
  intros H. apply nth_error_Some. intros E. rewrite E in H.
  destruct (nth_error c d); discriminate.
Qed.

(** What the loop leaves in [d]: the test fails there, it held at every
    index passed, and [d] is still inside a non-empty array. *)
Lemma descent_props (c : list R) (m d : nat) :
  (length c - d <= m)%nat ->
  (d <= descent c d)%nat /\
  js_gt (nth_error c (descent c d)) (nth_error c (S (descent c d))) = false /\
  (forall k, (d <= k < descent c d)%nat ->
             js_gt (nth_error c k) (nth_error c (S k)) = true) /\
  ((d < length c)%nat -> (descent c d < length c)%nat).
Proof.
  revert d. induction m as [| m IH]; intros d Hm;
    rewrite descent_step;
    destruct (js_gt (nth_error c d) (nth_error c (S d))) eqn:E;
    try (repeat split; [lia | exact E | intros; lia | trivial]).
  - apply js_gt_in_bounds in E. lia.
  - pose proof (js_gt_in_bounds _ _ E) as B.
    destruct (IH (S d) ltac:(lia)) as (G & X & P & L).
    repeat split.
    + lia.
    + exact X.
    + intros k Hk. destruct (Nat.eq_dec k d) as [-> | N]; [exact E |].
      apply P. lia.
    + intros _. apply L. exact B.
Qed.

(** The loop has a run from every index, and it ends where [descent] says. *)
Lemma descent_runs (c : list R) (m d : nat) :
  (length c - d <= m)%nat -> loopRun c d (descent c d).
Proof.
  revert d. induction m as [| m IH]; intros d Hm;
    rewrite descent_step;
    destruct (js_gt (nth_error c d) (nth_error c (S d))) eqn:E;
    try (apply loopExit; exact E).
  - apply js_gt_in_bounds in E. lia.
  - pose proof (js_gt_in_bounds _ _ E) as B.
    apply loopIter; [exact E |]. apply IH. lia.
Qed.

Lemma loopRun_deterministic (c : list R) (d d1 d2 : nat) :
  loopRun c d d1 -> loopRun c d d2 -> d1 = d2.
Proof.
  intros R1. revert d2.
  induction R1 as [d E | d d1 E R1 IH]; intros d2 R2;
    inversion R2; subst; try congruence.
  apply IH. assumption.
Qed.

Lemma descent_nil : descent [] 0 = 0%nat.
Proof. rewrite descent_step. reflexivity. Qed.

(** The index left by the loop is the one the specification names. *)
Lemma descent_stop (c : list R) (cf : nat -> R) (n : nat) :
  tabulates c cf n -> descentStop cf n (descent c 0).
Proof.
  intros T.
  destruct (descent_props c (length c) 0 ltac:(lia)) as (_ & X & P & _).
  split.
  - rewrite <- (js_gt_spec c cf n _ _ T), X. discriminate.
  - intros k Hk. apply (js_gt_spec c cf n _ _ T), P. lia.
Qed.

Lemma descentStop_unique (cf : nat -> R) (n d d' : nat) :
  descentStop cf n d -> descentStop cf n d' -> d = d'.
Proof.
  intros [S1 B1] [S2 B2].
  destruct (Nat.lt_trichotomy d d') as [L | [E | L]]; [| exact E |].
  - exfalso. apply S1, B2, L.
  - exfalso. apply S2, B1, L.
Qed.

(** ** The peak loop *)

Lemma peak_invariant (c : list R) (cf : nat -> R) (n d k : nat) :
  tabulates c cf n -> (d + k <= n)%nat ->
  let st := fold_left (peakStep c) (seq d k) (-1, (-1)%Z) in
  (snd st = (-1)%Z /\ fst st = -1 /\
   forall j, (d <= j < d + k)%nat -> cf j <= -1) \/
  (exists p, snd st = Z.of_nat p /\ fst st = cf p /\ -1 < cf p /\
             (d <= p < d + k)%nat /\
             (forall j, (d <= j < d + k)%nat -> cf j <= cf p) /\
             (forall j, (d <= j < p)%nat -> cf j < cf p)).
Proof.
  intros T. induction k as [| k IH]; intros Hk st.
  - left. repeat split. intros j Hj. lia.
  - subst st. rewrite seq_S, fold_left_app. simpl.
    specialize (IH ltac:(lia)). simpl in IH.
    set (st := fold_left (peakStep c) (seq d k) (-1, (-1)%Z)) in *.
    destruct T as [L T].
    assert (E : peakStep c st (d + k) =
                if Rltb (fst st) (cf (d + k)%nat)
                then (cf (d + k)%nat, Z.of_nat (d + k)) else st)
      by (unfold peakStep; rewrite (T (d + k)%nat) by lia; reflexivity).
    rewrite E. clear E.
    destruct (Rlt_dec (fst st) (cf (d + k)%nat)) as [Lt | Ge].
    + rewrite Rltb_true by exact Lt. right. exists (d + k)%nat. simpl.
      repeat split; try lia.
      * destruct IH as [(_ & M & _) | (p & _ & M & G & _)]; lra.
      * intros j Hj. destruct (Nat.eq_dec j (d + k)) as [-> | N]; [lra |].
        destruct IH as [(_ & M & A) | (p & _ & M & _ & _ & A & _)];
          specialize (A j ltac:(lia)); lra.
      * intros j Hj.
        destruct IH as [(_ & M & A) | (p & _ & M & _ & _ & A & _)];
          specialize (A j ltac:(lia)); lra.
    + rewrite Rltb_false by lra.
      destruct IH as [(S1 & M & A) | (p & S1 & M & G & R1 & A & B)].
      * left. repeat split; trivial. intros j Hj.
        destruct (Nat.eq_dec j (d + k)) as [-> | N]; [lra |].
        apply A. lia.
      * right. exists p. repeat split; trivial; try lia.
        intros j Hj. destruct (Nat.eq_dec j (d + k)) as [-> | N]; [lra |].
        apply A. lia.
Qed.

Lemma firstMax_unique (cf : nat -> R) (d n p q : nat) :
  firstMax cf d n p -> firstMax cf d n q -> p = q.
Proof.
  intros (R1 & M1 & F1) (R2 & M2 & F2).
  destruct (Nat.lt_trichotomy p q) as [L | [E | L]]; [| exact E |].
  - specialize (F2 p ltac:(lia)). specialize (M1 q ltac:(lia)). lra.
  - specialize (F1 q ltac:(lia)). specialize (M2 p ltac:(lia)). lra.
Qed.

(** When some entry of [[d, n)] is above [-1], the loop ends on the
    earliest maximum. *)
Lemma peak_firstMax (c : list R) (cf : nat -> R) (n d j : nat) :
  tabulates c cf n -> (d <= j < n)%nat -> -1 < cf j ->
  exists mp, snd (peak c d) = Z.of_nat mp /\ firstMax cf d n mp.
Proof.
  intros T Hj Gj. unfold peak.
  pose proof (peak_invariant c cf n d (n - d) T ltac:(lia)) as I.
  simpl in I. destruct T as [L T]. rewrite L.
  replace (d + (n - d))%nat with n in I by lia.
  destruct I as [(_ & _ & A) | (p & S1 & _ & _ & R1 & A & B)].
  - specialize (A j Hj). lra.
  - exists p. split; [exact S1 |]. repeat split; trivial; lia.
Qed.

(** On an empty range the loop leaves [mp = -1]. *)
Lemma peak_empty (c : list R) (d : nat) :
  (length c <= d)%nat -> peak c d = (-1, (-1)%Z).
Proof.
  intros H. unfold peak.
  replace (length c - d)%nat with 0%nat by lia. reflexivity.
Qed.

(** ** The loudness level *)

Lemma centered_silence : centered "128"%byte = 0.
Proof. unfold centered, sample. simpl. lra. Qed.

Lemma fold_squares_ge (buf : list byte) (a : R) :
  a <= fold_left (fun rms b => let val := centered b in rms + val * val) buf a.
Proof.
  revert a. induction buf as [| b buf IH]; intros a; simpl; [lra |].
  eapply Rle_trans; [| apply IH].
  pose proof (Rle_0_sqr (centered b)) as S. unfold Rsqr in S. lra.
Qed.

Lemma sumSquares_nonneg (buf : list byte) : 0 <= sumSquares buf.
Proof. apply fold_squares_ge. Qed.

Lemma sumSquares_silence (buf : list byte) :
  Forall (fun b => b = "128"%byte) buf -> sumSquares buf = 0.
Proof.
  unfold sumSquares. induction 1 as [| b buf -> _ IH]; simpl; [reflexivity |].
  rewrite centered_silence.
  replace (0 + 0 * 0) with 0 by lra. exact IH.
Qed.

Lemma length_positive {A : Type} (l : list A) : l <> [] -> 0 < INR (length l).
Proof.
  intros H. destruct l as [| a l]; [contradiction |].
  apply lt_0_INR. simpl. lia.
Qed.

Lemma meanSquare_nonneg (buf : list byte) : buf <> [] -> 0 <= meanSquare buf.
Proof.
  intros H. unfold meanSquare.
  apply Rmult_le_pos; [apply sumSquares_nonneg |].
  left. apply Rinv_0_lt_compat, length_positive, H.
Qed.

Lemma ln_sqrt (m : R) : 0 < m -> ln (sqrt m) = ln m / 2.
Proof.
  intros H. rewrite <- (Rpower_sqrt m H), ln_Rpower. lra.
Qed.

Lemma ln_10_pos : 0 < ln 10.
Proof. rewrite <- ln_1. apply ln_increasing; lra. Qed.

Lemma ln_2_pos : 0 < ln 2.
Proof. pose proof ln_lt_2. lra. Qed.

Lemma num_div_fin (x y : R) : y <> 0 -> num_div (Fin x) (Fin y) = Fin (x / y).
Proof. intros H. unfold num_div. rewrite Reqb_false by exact H. reflexivity. Qed.

Lemma sqrt_fin (x : R) : 0 <= x -> Math.sqrt (Fin x) = Fin (sqrt x).
Proof. intros H. unfold Math.sqrt. rewrite Rltb_false by exact H. reflexivity. Qed.

Lemma log_fin (b x : R) : 0 < x -> Math.log b (Fin x) = Fin (ln x / ln b).
Proof.
  intros H. unfold Math.log.
  rewrite Rltb_false by lra. rewrite Reqb_false by lra. reflexivity.
Qed.

Lemma log_zero (b : R) : Math.log b (Fin 0) = NInf.
Proof.
  unfold Math.log. rewrite Rltb_false by lra.
  rewrite Reqb_true by reflexivity. reflexivity.
Qed.

(** The level of a buffer with no sample: [0 / 0] is [NaN]. *)
Lemma level_empty : level [] = NaN.
Proof.
  unfold level, sumSquares, num_div, scale_inf. simpl fold_left. simpl INR.
  decide_reals. reflexivity.
Qed.

(** The level of a non-empty buffer whose samples are all at the center. *)
Lemma level_zero (buf : list byte) :
  buf <> [] -> sumSquares buf = 0 -> level buf = NInf.
Proof.
  intros N Z. unfold level. rewrite Z.
  rewrite num_div_fin by (apply Rgt_not_eq, length_positive, N).
  replace (0 / INR (length buf)) with 0 by (unfold Rdiv; lra).
  rewrite sqrt_fin by lra. rewrite sqrt_0. unfold Math.log10.
  rewrite log_zero. unfold num_mul, scale_inf. decide_reals. reflexivity.
Qed.

(** The level of a buffer with some signal, in closed form. *)
Lemma level_signal (buf : list byte) :
  buf <> [] -> 0 < meanSquare buf ->
  level buf = Fin (20 * (ln (sqrt (meanSquare buf)) / ln 10) + 100).
Proof.
  intros N P. unfold level.
  rewrite num_div_fin by (apply Rgt_not_eq, length_positive, N).
  fold (meanSquare buf). rewrite sqrt_fin by lra.
  unfold Math.log10. rewrite log_fin by (apply sqrt_lt_R0, P).
  reflexivity.
Qed.

Lemma ln_inv_pow10 (k : nat) : ln (/ 10 ^ k) = - INR k * ln 10.
Proof.
  rewrite ln_Rinv by (apply pow_lt; lra).
  rewrite ln_pow by lra. lra.
Qed.

(** A mean square of at least [10^-k] puts the level at [100 - 10 k] or
    above. *)
Lemma level_at_least (buf : list byte) (k : nat) :
  buf <> [] -> / 10 ^ k <= meanSquare buf ->
  exists v, level buf = Fin v /\ 100 - 10 * INR k <= v.
Proof.
  intros N H.
  assert (P0 : 0 < / 10 ^ k) by (apply Rinv_0_lt_compat, pow_lt; lra).
  assert (P : 0 < meanSquare buf) by lra.
  eexists. split; [apply (level_signal buf N P) |].
  rewrite (ln_sqrt _ P).
  assert (L : ln (/ 10 ^ k) <= ln (meanSquare buf)).
  { destruct H as [H | H]; [left; apply ln_increasing; assumption |].
    rewrite H. lra. }
  rewrite ln_inv_pow10 in L. pose proof ln_10_pos as T.
  assert (E : - INR k <= ln (meanSquare buf) / ln 10).
  { apply (Rmult_le_reg_r (ln 10)); [exact T |].
    unfold Rdiv. rewrite Rmult_assoc, Rinv_l by lra. lra. }
  unfold Rdiv in *. lra.
Qed.

(** A positive mean square below [10^-k] puts the level below
    [100 - 10 k]. *)
Lemma level_below (buf : list byte) (k : nat) :
  buf <> [] -> 0 < meanSquare buf < / 10 ^ k ->
  exists v, level buf = Fin v /\ v < 100 - 10 * INR k.
Proof.
  intros N [P H].
  eexists. split; [apply (level_signal buf N P) |].
  rewrite (ln_sqrt _ P).
  pose proof (ln_increasing _ _ P H) as L.
  rewrite ln_inv_pow10 in L. pose proof ln_10_pos as T.
  assert (E : ln (meanSquare buf) / ln 10 < - INR k).
  { apply (Rmult_lt_reg_r (ln 10)); [exact T |].
    unfold Rdiv. rewrite Rmult_assoc, Rinv_l by lra. lra. }
  unfold Rdiv in *. lra.
Qed.

(** ** Edge trimming *)

Lemma quiet_centered (b : byte) : Rltb (Rabs (centered b)) 0.2 = quietByte b.
Proof.
  unfold quietByte, centered, sample.
  pose proof (Byte.to_N_bounded b) as B.
  set (z := Byte.to_N b) in *.
  destruct ((103 <=? z)%N && (z <=? 153)%N) eqn:E.
  - apply andb_true_iff in E. destruct E as [L U].
    apply N.leb_le in L, U.
    assert (103 <= IZR (Z.of_N z)) by (apply IZR_le; lia).
    assert (IZR (Z.of_N z) <= 153) by (apply IZR_le; lia).
    apply Rltb_true. apply Rabs_def1; lra.
  - apply Rltb_false. apply andb_false_iff in E.
    destruct E as [L | U].
    + apply N.leb_gt in L.
      assert (IZR (Z.of_N z) <= 102) by (apply IZR_le; lia).
      rewrite Rabs_left by lra. lra.
    + apply N.leb_gt in U.
      assert (154 <= IZR (Z.of_N z)) by (apply IZR_le; lia).
      rewrite Rabs_right by lra. lra.
Qed.

Lemma quiet_spec (buf : list byte) (i : nat) :
  quiet buf i = match nth_error buf i with
                | Some b => quietByte b
                | None => false
                end.
Proof. unfold quiet. destruct (nth_error buf i); [apply quiet_centered | reflexivity]. Qed.

Lemma find_pointwise {A : Type} (f g : A -> bool) (E : forall a, f a = g a)
  (l : list A) : find f l = find g l.
Proof.
  induction l as [| a l IH]; simpl; [reflexivity |].
  rewrite E, IH. reflexivity.
Qed.

(** Replaces the real comparisons of the two scans by byte tests. *)
Ltac run_trim buf :=
  unfold trimmed, trimStart, trimEnd;
  rewrite (find_pointwise _ _ (quiet_spec buf));
  rewrite (find_pointwise _ _ (fun i => quiet_spec buf (length buf - i))).

Lemma find_none_all {A : Type} (f : A -> bool) (l : list A) :
  (forall a, In a l -> f a = false) -> find f l = None.
Proof.
  induction l as [| a l IH]; intros H; simpl; [reflexivity |].
  rewrite (H a) by (left; reflexivity).
  apply IH. intros b Hb. apply H. right. exact Hb.
Qed.

Lemma halfCount_spec (len i : nat) : (i < halfCount len)%nat <-> (2 * i < len)%nat.
Proof.
  unfold halfCount.
  pose proof (Nat.div_mod_eq (len + 1) 2).
  pose proof (Nat.mod_upper_bound (len + 1) 2 ltac:(lia)).
  lia.
Qed.

(** No quiet sample in the first half: the start index stays 0. *)
Lemma trimStart_default (buf : list byte) :
  (forall i, (2 * i < length buf)%nat -> quiet buf i = false) ->
  trimStart buf = 0%Z.
Proof.
  intros H. unfold trimStart. rewrite find_none_all; [reflexivity |].
  intros i Hi. apply in_seq in Hi. apply H, halfCount_spec. lia.
Qed.

(** No quiet sample in the last half: the end index stays [length - 1]. *)
Lemma trimEnd_default (buf : list byte) :
  (forall i, (1 <= i)%nat -> (2 * i < length buf)%nat ->
             quiet buf (length buf - i) = false) ->
  trimEnd buf = (Z.of_nat (length buf) - 1)%Z.
Proof.
  intros H. unfold trimEnd. rewrite find_none_all; [reflexivity |].
  intros i Hi. apply in_seq in Hi. apply H; [lia |].
  apply halfCount_spec. lia.
Qed.

Lemma slice_prefix {A : Type} (arr : list A) (k : nat) :
  (k <= length arr)%nat -> slice arr 0 (Z.of_nat k) = firstn k arr.
Proof.
  intros H. unfold slice, clampIndex.
  replace (Z.of_nat k <? 0)%Z with false by (symmetry; apply Z.ltb_ge; lia).
  simpl. rewrite (Z.min_l 0) by lia. rewrite Z.min_l by lia.
  simpl. f_equal. lia.
Qed.

(** With no quiet sample on either side the working buffer is the buffer
    without its last sample. *)
Lemma trimmed_default (buf : list byte) :
  buf <> [] ->
  (forall i, (2 * i < length buf)%nat -> quiet buf i = false) ->
  (forall i, (1 <= i)%nat -> (2 * i < length buf)%nat ->
             quiet buf (length buf - i) = false) ->
  trimmed buf = firstn (length buf - 1) buf.
Proof.
  intros N H1 H2. unfold trimmed.
  rewrite (trimStart_default buf H1), (trimEnd_default buf H2).
  destruct buf as [| b buf]; [contradiction |].
  replace (Z.of_nat (length (b :: buf)) - 1)%Z
    with (Z.of_nat (length (b :: buf) - 1)) by (simpl length; lia).
  apply slice_prefix. lia.
Qed.

(** Whatever the samples, the working buffer is shorter than the buffer. *)
Lemma trimmed_shorter (buf : list byte) :
  buf <> [] -> (length (trimmed buf) < length buf)%nat.
Proof.
  intros N. unfold trimmed, slice.
  assert (L : (0 < length buf)%nat) by (destruct buf; [contradiction | simpl; lia]).
  assert (S1 : (0 <= trimStart buf)%Z).
  { unfold trimStart. destruct (find _ _); lia. }
  assert (S2 : (trimEnd buf <= Z.of_nat (length buf) - 1)%Z).
  { unfold trimEnd. destruct (find _ _) eqn:F; [| lia].
    apply find_some in F. destruct F as [F _]. apply in_seq in F. lia. }
  rewrite length_firstn, length_skipn. unfold clampIndex.
  destruct (trimStart buf <? 0)%Z eqn:E1; [apply Z.ltb_lt in E1; lia |].
  destruct (trimEnd buf <? 0)%Z eqn:E2;
    [apply Z.ltb_lt in E2 | apply Z.ltb_ge in E2]; lia.
Qed.

(** ** The estimate *)

(** Past the gate the result is the sample rate over the lag [mp] that the
    peak loop leaves. *)
Lemma autoCorrelate_passed (buf : list byte) (sampleRate gate : num) :
  num_lt (level buf) gate = false ->
  autoCorrelate buf sampleRate gate =
  let c := correlate (trimmed buf) in
  num_div sampleRate (Fin (IZR (snd (peak c (descent c 0))))).
Proof. intros H. unfold autoCorrelate. rewrite H. reflexivity. Qed.

(** On a non-empty working buffer the two loops end on the indices the
    specification names. *)
Lemma loops_find_peak (b2 : list byte) :
  (1 <= length b2)%nat ->
  let n := length b2 in
  let cf := acf (fraction b2) n in
  let c := correlate b2 in
  exists mp, snd (peak c (descent c 0)) = Z.of_nat mp /\
             descentStop cf n (descent c 0) /\
             firstMax cf (descent c 0) n mp.
Proof.
  intros H n cf c.
  pose proof (correlate_tabulates b2) as T. fold n cf c in T.
  assert (L : length c = n) by apply T.
  destruct (descent_props c (length c) 0 ltac:(lia)) as (_ & _ & _ & B).
  specialize (B ltac:(lia)).
  destruct (peak_firstMax c cf n (descent c 0) (n - 1) T ltac:(lia)
              (acf_last b2 H)) as (mp & E & F).
  exists mp. split; [exact E |].
  split; [apply (descent_stop c cf n T) | exact F].
Qed.

(** The estimate past the gate, for the indices the specification names. *)
Lemma estimate_at_peak (buf : list byte) (sampleRate gate : num) (d mp : nat) :
  num_lt (level buf) gate = false ->
  let b2 := trimmed buf in
  let n := length b2 in
  let c := acf (fraction b2) n in
  descentStop c n d -> firstMax c d n mp ->
  autoCorrelate buf sampleRate gate = num_div sampleRate (Fin (INR mp)).
Proof.
  intros G b2 n c D F.
  assert (H : (1 <= length b2)%nat) by (destruct F as [R _]; fold n; lia).
  destruct (loops_find_peak b2 H) as (mp' & E & D' & F').
  fold n c in D', F'.
  rewrite (descentStop_unique _ _ _ _ D D') in F.
  rewrite (firstMax_unique _ _ _ _ _ F F').
  rewrite (autoCorrelate_passed buf sampleRate gate G). cbv zeta.
  fold b2. rewrite E, INR_IZR_INZ. reflexivity.
Qed.

(** C1.  For every buffer that passes the loudness gate, with [n] the length
    of the trimmed working buffer, [x] its centered samples and
    [c lag = sum_{j < n - lag} x j * x (j + lag)]: whenever [n >= 1] there
    are a least index [d] at which [c d > c (d + 1)] fails and an earliest
    lag [mp] of [[d, n)] attaining the maximum of [c] there, and for any
    such [d] and [mp] the estimate is [sampleRate / mp]. *)
Theorem estimate_is_rate_over_peak_lag
  (buf : list byte) (sampleRate gate : num) :
  num_lt (level buf) gate = false ->
  let b2 := trimmed buf in
  let n := length b2 in
  let c := acf (fraction b2) n in
  ((1 <= n)%nat -> exists d mp, descentStop c n d /\ firstMax c d n mp) /\
  (forall d mp, descentStop c n d -> firstMax c d n mp ->
     autoCorrelate buf sampleRate gate = num_div sampleRate (Fin (INR mp))).
Proof.
  intros G b2 n c. split.
  - intros H. destruct (loops_find_peak b2 H) as (mp & _ & D & F).
    eauto.
  - intros d mp. apply (estimate_at_peak buf sampleRate gate d mp G).
Qed.

(** C2.  A level below the gate makes the estimate the sentinel [-1],
    whatever trimming and correlation would have produced. *)
Theorem below_gate_is_no_pitch (buf : list byte) (sampleRate gate : num) :
  num_lt (level buf) gate = true ->
  autoCorrelate buf sampleRate gate = noPitch.
Proof. intros H. unfold autoCorrelate. rewrite H. reflexivity. Qed.

(** An empty working buffer leaves [mp = -1]. *)
Lemma estimate_empty_trim (buf : list byte) (sampleRate gate : num) :
  num_lt (level buf) gate = false -> trimmed buf = [] ->
  autoCorrelate buf sampleRate gate = num_div sampleRate (Fin (-1)).
Proof.
  intros G E. rewrite (autoCorrelate_passed _ _ _ G). cbv zeta.
  rewrite E. change (correlate []) with (@nil R). rewrite descent_nil.
  rewrite peak_empty by (simpl; lia). reflexivity.
Qed.

Lemma bigsum_zero (f : nat -> R) (k : nat) :
  (forall j, (j < k)%nat -> f j = 0) -> bigsum f k = 0.
Proof.
  induction k as [| k IH]; intros Z; simpl; [reflexivity |].
  rewrite IH, Z by auto. lra.
Qed.

(** A non-empty working buffer of centered samples has a correlation array
    of zeros; the peak loop then stops on lag 0 and the estimate is the
    sample rate over zero. *)
Lemma estimate_flat_trim (buf : list byte) (sampleRate gate : num) :
  num_lt (level buf) gate = false ->
  trimmed buf <> [] -> Forall (fun b => b = "128"%byte) (trimmed buf) ->
  autoCorrelate buf sampleRate gate = num_div sampleRate (Fin 0).
Proof.
  intros G N A. set (b2 := trimmed buf) in *.
  assert (H : (1 <= length b2)%nat)
    by (destruct b2; [contradiction | simpl; lia]).
  assert (Z : forall i, (i < length b2)%nat -> fraction b2 i = 0).
  { intros i Hi. unfold fraction. rewrite Forall_forall in A.
    rewrite (A _ (nth_In b2 "000"%byte Hi)). apply centered_silence. }
  assert (C : forall lag, acf (fraction b2) (length b2) lag = 0).
  { intros lag. unfold acf. apply bigsum_zero. intros j Hj.
    rewrite (Z j) by lia. lra. }
  rewrite (estimate_at_peak buf sampleRate gate 0 0 G); [reflexivity | |];
    fold b2.
  - split; [| intros k Hk; lia].
    intros (_ & _ & Lt). rewrite !C in Lt. lra.
  - repeat split; try lia.
    intros k _. rewrite !C. lra.
Qed.

(** ** The estimate on concrete buffers *)

Lemma squareWave_passes : num_lt (level squareWave) (Fin 30) = false.
Proof.
  destruct (level_at_least squareWave 7) as (v & E & Hv).
  - discriminate.
  - unfold meanSquare, sumSquares, centered, sample. simpl. lra.
  - rewrite E. simpl. apply Rltb_false. simpl in Hv. lra.
Defined.

Lemma squareWave_trimmed :
  trimmed squareWave = ["255"; "000"; "255"; "000"; "255"]%byte.
Proof. run_trim squareWave. reflexivity. Defined.

(** The theorem of C1 at the square wave: the gate is passed, the descent
    stops at lag 1, the earliest maximum from there is at lag 2, and the
    estimate is half the sample rate. *)
Lemma estimate_is_rate_over_peak_lag_witness :
  num_lt (level squareWave) (Fin 30) = false /\
  autoCorrelate squareWave (Fin 44100) (Fin 30) = Fin (44100 / 2).
Proof.
  split; [exact squareWave_passes |].
  destruct (estimate_is_rate_over_peak_lag squareWave (Fin 44100) (Fin 30)
              squareWave_passes) as [_ R].
  cbv zeta in R. rewrite squareWave_trimmed in R.
  rewrite (R 1%nat 2%nat).
  - rewrite num_div_fin by (simpl; lra). reflexivity.
  - split.
    + intros (_ & _ & Lt).
      unfold acf, fraction, centered, sample in Lt. simpl in Lt. lra.
    + intros k Hk. assert (k = 0%nat) as -> by lia.
      repeat split; simpl; try lia.
      unfold acf, fraction, centered, sample. simpl. lra.
  - repeat split; simpl; try lia.
    + intros k Hk.
      assert (k = 1 \/ k = 2 \/ k = 3 \/ k = 4)%nat as [-> | [-> | [-> | ->]]]
        by lia;
        unfold acf, fraction, centered, sample; simpl; lra.
    + intros k Hk. assert (k = 1%nat) as -> by lia.
      unfold acf, fraction, centered, sample. simpl. lra.
Defined.

Lemma faint_below : num_lt (level faint) (Fin 60) = true.
Proof.
  destruct (level_below faint 4) as (v & E & Hv).
  - discriminate.
  - unfold meanSquare, sumSquares, centered, sample. simpl. lra.
  - rewrite E. simpl. apply Rltb_true. simpl in Hv. lra.
Defined.

(** The theorem of C2 at a faint buffer and a gate of 60. *)
Lemma below_gate_is_no_pitch_witness :
  num_lt (level faint) (Fin 60) = true /\
  autoCorrelate faint (Fin 44100) (Fin 60) = noPitch.
Proof.
  split; [exact faint_below |].
  apply (below_gate_is_no_pitch faint (Fin 44100) (Fin 60)).
  exact faint_below.
Defined.

Lemma loudEdges_passes : num_lt (level loudEdges) (Fin 30) = false.
Proof.
  destruct (level_at_least loudEdges 7) as (v & E & Hv).
  - discriminate.
  - unfold meanSquare, sumSquares, centered, sample. simpl. lra.
  - rewrite E. simpl. apply Rltb_false. simpl in Hv. lra.
Qed.

Lemma loudEdges_trimmed : trimmed loudEdges = ["128"; "128"; "128"]%byte.
Proof. run_trim loudEdges. reflexivity. Qed.

(** C4.  The degenerate buffer [loudEdges] passes the gate of 30 and trims
    to three centered samples; the estimate is [44100 / 0], that is
    [+Infinity], not the sentinel. *)
Theorem flat_trim_gives_infinity :
  num_lt (level loudEdges) (Fin 30) = false /\
  trimmed loudEdges = ["128"; "128"; "128"]%byte /\
  autoCorrelate loudEdges (Fin 44100) (Fin 30) = PInf.
Proof.
  split; [exact loudEdges_passes |]. split; [exact loudEdges_trimmed |].
  rewrite (estimate_flat_trim loudEdges (Fin 44100) (Fin 30) loudEdges_passes).
  - unfold num_div, scale_inf. decide_reals. reflexivity.
  - rewrite loudEdges_trimmed. discriminate.
  - rewrite loudEdges_trimmed. repeat constructor.
Qed.

(** A one-sample buffer trims to nothing: the estimate is [-sampleRate]. *)
Lemma single_loud_sample :
  autoCorrelate ["255"%byte] (Fin 44100) (Fin 30) = Fin (- 44100).
Proof.
  assert (G : num_lt (level ["255"%byte]) (Fin 30) = false).
  { destruct (level_at_least ["255"%byte] 7) as (v & E & Hv).
    - discriminate.
    - unfold meanSquare, sumSquares, centered, sample. simpl. lra.
    - rewrite E. simpl. apply Rltb_false. simpl in Hv. lra. }
  rewrite (estimate_empty_trim _ _ _ G).
  - rewrite num_div_fin by lra. f_equal. lra.
  - run_trim ["255"%byte]. reflexivity.
Qed.

(** C5.  On [allLoud] neither scan finds a quiet sample; the start index
    stays 0, the end index stays 3 and the working buffer is the first three
    samples: the last sample is cut. *)
Theorem trim_cuts_last_sample :
  find (quiet allLoud) (seq 0 (halfCount (length allLoud))) = None /\
  find (fun i => quiet allLoud (length allLoud - i))
       (seq 1 (halfCount (length allLoud) - 1)) = None /\
  trimStart allLoud = 0%Z /\
  trimEnd allLoud = 3%Z /\
  trimmed allLoud = ["255"; "255"; "255"]%byte.
Proof.
  repeat split.
  - rewrite (find_pointwise _ _ (quiet_spec allLoud)). reflexivity.
  - rewrite (find_pointwise _ _ (fun i => quiet_spec allLoud (length allLoud - i))).
    reflexivity.
  - unfold trimStart. rewrite (find_pointwise _ _ (quiet_spec allLoud)).
    reflexivity.
  - unfold trimEnd.
    rewrite (find_pointwise _ _ (fun i => quiet_spec allLoud (length allLoud - i))).
    reflexivity.
  - run_trim allLoud. reflexivity.
Qed.

(** C7, as amended.  For every non-empty buffer whose samples all equal 128
    and every gate that is at least zero, the estimate is the sentinel. *)
Theorem silence_is_no_pitch (buf : list byte) (sampleRate gate : num) :
  buf <> [] -> Forall (fun b => b = "128"%byte) buf -> nonNegative gate ->
  autoCorrelate buf sampleRate gate = noPitch.
Proof.
  intros N A G. unfold autoCorrelate.
  rewrite (level_zero buf N (sumSquares_silence buf A)).
  destruct gate; simpl in G; try contradiction; reflexivity.
Qed.

(** The theorem of C7 at two silent samples and a gate of zero. *)
Lemma silence_is_no_pitch_witness :
  autoCorrelate ["128"; "128"]%byte (Fin 44100) (Fin 0) = noPitch.
Proof.
  apply (silence_is_no_pitch ["128"; "128"]%byte (Fin 44100) (Fin 0)).
  - discriminate.
  - repeat constructor.
  - simpl. lra.
Defined.

(** C7 as stated fails on the buffer with no sample: every sample of it
    equals 128, the gate 0 is not negative, the level is [NaN] and the
    comparison with the gate is false; the working buffer is empty and the
    estimate is [44100 / -1], not the sentinel. *)
Lemma empty_buffer_not_sentinel :
  Forall (fun b => b = "128"%byte) [] /\
  nonNegative (Fin 0) /\
  level [] = NaN /\
  autoCorrelate [] (Fin 44100) (Fin 0) = Fin (- 44100) /\
  autoCorrelate [] (Fin 44100) (Fin 0) <> noPitch.
Proof.
  assert (E : autoCorrelate [] (Fin 44100) (Fin 0) = Fin (- 44100)).
  { rewrite estimate_empty_trim.
    - rewrite num_div_fin by lra. f_equal. lra.
    - rewrite level_empty. reflexivity.
    - reflexivity. }
  repeat split.
  - constructor.
  - simpl. lra.
  - exact level_empty.
  - exact E.
  - rewrite E. unfold noPitch. intros H. injection H. lra.
Qed.

(** C10.  The descent loop halts on every array: started at 0 it has a run,
    the only one, which exits with the index [d] that [autoCorrelate]
    uses; the test fails at [d] and held at every index before; [d] is at
    most [length - 1] on a non-empty array and 0 on the empty one; the test
    is false as soon as [d + 1] is outside the array.  [autoCorrelate] has
    no other unbounded loop and returns a number on every input. *)
Theorem descent_loop_halts (c : list R) :
  let d := descent c 0 in
  loopRun c 0 d /\
  (forall d', loopRun c 0 d' -> d' = d) /\
  js_gt (nth_error c d) (nth_error c (S d)) = false /\
  (forall k, (k < d)%nat -> js_gt (nth_error c k) (nth_error c (S k)) = true) /\
  (c <> [] -> (d <= length c - 1)%nat) /\
  (c = [] -> d = 0%nat) /\
  (forall k, (length c <= S k)%nat ->
             js_gt (nth_error c k) (nth_error c (S k)) = false) /\
  (forall buf sampleRate gate,
      c = correlate (trimmed buf) -> num_lt (level buf) gate = false ->
      autoCorrelate buf sampleRate gate =
      num_div sampleRate (Fin (IZR (snd (peak c d))))).
Proof.
  intros d. subst d.
  destruct (descent_props c (length c) 0 ltac:(lia)) as (_ & X & P & B).
  pose proof (descent_runs c (length c) 0 ltac:(lia)) as Run.
  repeat split.
  - exact Run.
  - intros d' R'. apply (loopRun_deterministic c 0 _ _ R' Run).
  - exact X.
  - intros k Hk. apply P. lia.
  - intros N. assert (0 < length c)%nat by (destruct c; [contradiction | simpl; lia]).
    specialize (B ltac:(lia)). lia.
  - intros ->. apply descent_nil.
  - intros k Hk.
    destruct (js_gt (nth_error c k) (nth_error c (S k))) eqn:E; [| reflexivity].
    apply js_gt_in_bounds in E. lia.
  - intros buf sampleRate gate -> G. apply (autoCorrelate_passed _ _ _ G).
Qed.

(** The theorem of C10 on [dip]: the loop stops at index 1. *)
Lemma descent_loop_halts_witness :
  descent dip 0 = 1%nat /\ (descent dip 0 <= length dip - 1)%nat.
Proof.
  destruct (descent_loop_halts dip) as (_ & _ & X & P & B & _).
  assert (E : descent dip 0 = 1%nat).
  { do 2 rewrite descent_step. unfold dip. simpl. decide_reals. reflexivity. }
  split; [exact E |]. apply B. discriminate.
Defined.

(** ** The semitone number *)

Lemma semitone_fin (f : R) :
  0 < f -> semitone (Fin f) = Fin (12 * (ln (f / 440) / ln 2) + 69).
Proof.
  intros H. unfold semitone, Math.log2.
  rewrite num_div_fin by lra.
  rewrite log_fin by (apply Rdiv_lt_0_compat; lra).
  reflexivity.
Qed.

Lemma ln_22_bound : ln 22 <= 9 / 2 * ln 2.
Proof.
  assert (A : ln (22 ^ 2) = 2 * ln 22) by (rewrite ln_pow by lra; simpl; lra).
  assert (B : ln (2 ^ 9) = 9 * ln 2) by (rewrite ln_pow by lra; simpl; lra).
  assert (C : ln (22 ^ 2) < ln (2 ^ 9)) by (apply ln_increasing; simpl; lra).
  lra.
Qed.

(** From 20 Hz on the semitone number is at least 14.5. *)
Lemma semitone_lower (f : R) :
  20 <= f -> 29 / 2 <= 12 * (ln (f / 440) / ln 2) + 69.
Proof.
  intros H.
  assert (L : ln (/ 22) <= ln (f / 440)).
  { assert (D : / 22 <= f / 440) by lra.
    destruct D as [D | D]; [left; apply ln_increasing; lra | rewrite D; lra]. }
  rewrite ln_Rinv in L by lra.
  pose proof ln_22_bound as B. pose proof ln_2_pos as P.
  assert (E : - (9 / 2) <= ln (f / 440) / ln 2).
  { apply (Rmult_le_reg_r (ln 2)); [exact P |].
    unfold Rdiv at 2. rewrite Rmult_assoc, Rinv_l by lra. lra. }
  lra.
Qed.


(** ** Rounding, pitch class and octave of an integral semitone *)

Lemma round_fin (x : R) : Math.round (Fin x) = Fin (IZR (Int_part (x + / 2))).
Proof. reflexivity. Qed.

(** The distance to the rounded value lies in [[-1/2, 1/2)]. *)
Lemma round_error (x : R) : - / 2 <= x - IZR (Int_part (x + / 2)) < / 2.
Proof. pose proof (Int_part_bounds (x + / 2)). lra. Qed.

Lemma round_at_least (x : R) (k : Z) :
  IZR k - / 2 <= x -> (k <= Int_part (x + / 2))%Z.
Proof.
  intros H. pose proof (Int_part_bounds (x + / 2)) as [_ U].
  assert (L : IZR k < IZR (Int_part (x + / 2) + 1)) by (rewrite plus_IZR; lra).
  apply lt_IZR in L. lia.
Qed.

Lemma pitchClass_fin (m : Z) :
  (0 <= m)%Z -> pitchClass (Fin (IZR m)) = Fin (IZR (m mod 12)).
Proof.
  intros H. unfold pitchClass, num_rem.
  rewrite Reqb_false by lra. rewrite (Rtrunc_div12 m H). f_equal.
  pose proof (Z.div_mod m 12 ltac:(lia)) as E.
  apply (f_equal IZR) in E. rewrite plus_IZR, mult_IZR in E. lra.
Qed.

Lemma octaveOf_fin (m : Z) : octaveOf (Fin (IZR m)) = Fin (IZR (m / 12 - 1)).
Proof.
  unfold octaveOf. rewrite num_div_fin by lra. unfold Math.floor.
  rewrite Int_part_div12. unfold num_sub, num_neg, num_add.
  f_equal. rewrite minus_IZR. lra.
Qed.

Lemma index_fin (arr : list string) (k : Z) :
  (0 <= k)%Z ->
  index arr (Fin (IZR k)) = match nth_error arr (Z.to_nat k) with
                            | Some s => VString s
                            | None => VUndefined
                            end.
Proof.
  intros H. unfold index. rewrite Int_part_IZR.
  rewrite Reqb_true by reflexivity.
  replace (0 <=? k)%Z with true by (symmetry; apply Z.leb_le; exact H).
  reflexivity.
Qed.

Lemma num_to_string_fin (z : Z) : num_to_string (Fin (IZR z)) = decimal z.
Proof. unfold num_to_string, decimal. rewrite Int_part_IZR. reflexivity. Qed.

(** Each pitch class has its entry in both tables. *)
Lemma tables_total (k : Z) :
  (0 <= k < 12)%Z ->
  exists letter sol,
    nth_error noteNames (Z.to_nat k) = Some letter /\
    nth_error solfegeNames (Z.to_nat k) = Some sol.
Proof.
  intros H.
  destruct (nth_error noteNames (Z.to_nat k)) as [l |] eqn:E1;
    [| apply nth_error_None in E1; simpl in E1; lia].
  destruct (nth_error solfegeNames (Z.to_nat k)) as [s |] eqn:E2;
    [| apply nth_error_None in E2; simpl in E2; lia].
  eauto.
Qed.

(** ** [getNoteInfo] past the guard *)

Lemma guard_passes (f : R) :
  20 <= f -> falsy (Fin f) || num_lt (Fin f) (Fin 20) = false.
Proof.
  intros H. simpl. rewrite Reqb_false by lra. rewrite Rltb_false by lra.
  reflexivity.
Qed.

(** The result for an accepted finite frequency, with [n] the semitone
    number and [m] its rounding. *)
Lemma getNoteInfo_fin (f : R) :
  20 <= f ->
  let n := 12 * (ln (f / 440) / ln 2) + 69 in
  let m := Int_part (n + / 2) in
  exists letter sol,
    (15 <= m)%Z /\
    nth_error noteNames (Z.to_nat (m mod 12)) = Some letter /\
    nth_error solfegeNames (Z.to_nat (m mod 12)) = Some sol /\
    getNoteInfo (Fin f) =
    {| note := VString (letter ++ decimal (m / 12 - 1));
       solfege := VString sol;
       cents := Fin ((n - IZR m) * 100) |}.
Proof.
  intros H n m.
  assert (M : (15 <= m)%Z).
  { apply round_at_least. pose proof (semitone_lower f H). fold n in H0. lra. }
  pose proof (Z.mod_pos_bound m 12 ltac:(lia)) as B.
  destruct (tables_total (m mod 12) B) as (letter & sol & E1 & E2).
  exists letter, sol. repeat split; trivial.
  unfold getNoteInfo. rewrite (guard_passes f H).
  rewrite semitone_fin by lra. fold n. rewrite round_fin. fold m.
  rewrite pitchClass_fin by lia. rewrite octaveOf_fin.
  rewrite !index_fin by lia. rewrite E1, E2.
  unfold js_plus. rewrite num_to_string_fin.
  reflexivity.
Qed.

Lemma semitone_440 : 12 * (ln (440 / 440) / ln 2) + 69 = 69.
Proof. replace (440 / 440) with 1 by lra. rewrite ln_1. lra. Qed.

Lemma Int_part_half (k : Z) : Int_part (IZR k + / 2) = k.
Proof. symmetry. apply Int_part_spec. lra. Qed.

(** The reference pitch: 440 Hz is A4, La, with no deviation. *)
Lemma getNoteInfo_A4 :
  getNoteInfo (Fin 440) =
  {| note := VString "A4"; solfege := VString "La"; cents := Fin 0 |}.
Proof.
  destruct (getNoteInfo_fin 440 ltac:(lra)) as (letter & sol & _ & E1 & E2 & E).
  cbv zeta in *. rewrite semitone_440 in *. rewrite (Int_part_half 69) in *.
  vm_compute in E1. vm_compute in E2.
  injection E1 as <-. injection E2 as <-.
  rewrite E. f_equal. f_equal. lra.
Qed.

Lemma ln_22_lower : 107 / 24 * ln 2 < ln 22.
Proof.
  assert (A : ln (22 ^ 24) = 24 * ln 22) by (rewrite ln_pow by lra; simpl; lra).
  assert (B : ln (2 ^ 107) = 107 * ln 2) by (rewrite ln_pow by lra; simpl; lra).
  assert (C : ln (2 ^ 107) < ln (22 ^ 24)).
  { apply ln_increasing; [apply pow_lt; lra |].
    rewrite !pow_IZR. apply IZR_lt. reflexivity. }
  lra.
Qed.

(** The lowest accepted frequency, 20 Hz, rounds to semitone 15: D#0. *)
Lemma getNoteInfo_lowest :
  Math.round (semitone (Fin 20)) = Fin 15 /\
  note (getNoteInfo (Fin 20)) = VString "D#0" /\
  solfege (getNoteInfo (Fin 20)) = VString "Ri".
Proof.
  assert (M : Int_part (12 * (ln (20 / 440) / ln 2) + 69 + / 2) = 15%Z).
  { symmetry. apply Int_part_spec.
    pose proof (semitone_lower 20 ltac:(lra)) as L.
    replace (20 / 440) with (/ 22) in * by lra.
    rewrite ln_Rinv in * by lra.
    pose proof ln_22_lower as U. pose proof ln_2_pos as P.
    assert (E : - ln 22 / ln 2 < - (107 / 24)).
    { apply (Rmult_lt_reg_r (ln 2)); [exact P |].
      unfold Rdiv at 1. rewrite Rmult_assoc, Rinv_l by lra. lra. }
    lra. }
  destruct (getNoteInfo_fin 20 ltac:(lra)) as (letter & sol & _ & E1 & E2 & E).
  cbv zeta in *. rewrite M in *.
  vm_compute in E1. vm_compute in E2.
  injection E1 as <-. injection E2 as <-.
  rewrite E. repeat split.
  rewrite semitone_fin by lra. rewrite round_fin, M. reflexivity.
Qed.

(** * The note mapper in binary64 arithmetic *)

(** ** Powers of two *)

Lemma pow2_pos (e : Z) : 0 < Binary64.pow2 e.
Proof. apply powerRZ_lt. lra. Qed.

Lemma pow2_add (a b : Z) :
  Binary64.pow2 (a + b) = Binary64.pow2 a * Binary64.pow2 b.
Proof. apply powerRZ_add. lra. Qed.

Lemma pow2_0 : Binary64.pow2 0 = 1.
Proof. reflexivity. Qed.

Lemma pow2_opp (e : Z) : Binary64.pow2 (- e) = / Binary64.pow2 e.
Proof. apply powerRZ_neg'. Qed.

Lemma pow2_cancel (e : Z) : Binary64.pow2 (- e) * Binary64.pow2 e = 1.
Proof.
  rewrite <- pow2_add. replace (- e + e)%Z with 0%Z by lia. apply pow2_0.
Qed.

(** A non-negative power of two is the integer [2^e]. *)
Lemma pow2_IZR (e : Z) : (0 <= e)%Z -> Binary64.pow2 e = IZR (2 ^ e).
Proof.
  intros H. unfold Binary64.pow2.
  rewrite <- (Z2Nat.id e H) at 1. rewrite <- pow_powerRZ.
  rewrite pow_IZR, Z2Nat.id by exact H. reflexivity.
Qed.

Lemma pow2_inv_IZR (e : Z) :
  (0 <= e)%Z -> Binary64.pow2 (- e) = / IZR (2 ^ e).
Proof. intros H. rewrite pow2_opp, pow2_IZR by exact H. reflexivity. Qed.

Lemma pow2_ln (e : Z) : ln (Binary64.pow2 e) = IZR e * ln 2.
Proof.
  unfold Binary64.pow2. rewrite powerRZ_Rpower by lra. apply ln_Rpower.
Qed.

Lemma pow2_lt (a b : Z) : (a < b)%Z -> Binary64.pow2 a < Binary64.pow2 b.
Proof.
  intros H. apply ln_lt_inv; try apply pow2_pos.
  rewrite !pow2_ln. apply IZR_lt in H. pose proof ln_2_pos. nra.
Qed.

Lemma pow2_le (a b : Z) : (a <= b)%Z -> Binary64.pow2 a <= Binary64.pow2 b.
Proof.
  intros H. destruct (Z.eq_dec a b) as [-> | N]; [lra |].
  left. apply pow2_lt. lia.
Qed.

Lemma pow2_lt_inv (a b : Z) : Binary64.pow2 a < Binary64.pow2 b -> (a < b)%Z.
Proof.
  intros H. destruct (Z.lt_ge_cases a b) as [L | G]; [exact L |].
  pose proof (pow2_le b a G). lra.
Qed.

(** ** The nearest integer *)

Lemma Rabs_bounds (x a : R) : Rabs x <= a -> - a <= x <= a.
Proof. unfold Rabs. destruct (Rcase_abs x); lra. Qed.

Lemma nearestEven_error (x : R) :
  Rabs (IZR (Binary64.nearestEven x) - x) <= / 2.
Proof.
  unfold Binary64.nearestEven. pose proof (Int_part_bounds x) as B.
  cbv zeta.
  destruct (Rltb (x - IZR (Int_part x)) (/ 2)) eqn:L.
  - apply Rltb_true_iff in L. apply Rabs_le. lra.
  - apply Rltb_false_iff in L.
    destruct (Rltb (/ 2) (x - IZR (Int_part x))) eqn:U.
    + apply Rltb_true_iff in U. rewrite plus_IZR. apply Rabs_le. lra.
    + apply Rltb_false_iff in U.
      destruct (Z.even (Int_part x)); [| rewrite plus_IZR]; apply Rabs_le; lra.
Qed.

Lemma nearestEven_near (x : R) (N : Z) :
  Rabs (x - IZR N) < / 2 -> Binary64.nearestEven x = N.
Proof.
  intros H. pose proof (nearestEven_error x) as E.
  apply Rabs_def2 in H. apply Rabs_bounds in E.
  assert (A : IZR (Binary64.nearestEven x) < IZR (N + 1)) by (rewrite plus_IZR; lra).
  assert (B : IZR (N - 1) < IZR (Binary64.nearestEven x)) by (rewrite minus_IZR; lra).
  apply lt_IZR in A, B. lia.
Qed.

Lemma nearestEven_IZR (m : Z) : Binary64.nearestEven (IZR m) = m.
Proof. apply nearestEven_near. rewrite Rminus_diag, Rabs_R0. lra. Qed.

Lemma nearestEven_le (x : R) (G : Z) :
  x <= IZR G -> (Binary64.nearestEven x <= G)%Z.
Proof.
  intros H. pose proof (nearestEven_error x) as E. apply Rabs_bounds in E.
  assert (A : IZR (Binary64.nearestEven x) < IZR (G + 1)) by (rewrite plus_IZR; lra).
  apply lt_IZR in A. lia.
Qed.

Lemma nearestEven_ge (x : R) (G : Z) :
  IZR G <= x -> (G <= Binary64.nearestEven x)%Z.
Proof.
  intros H. pose proof (nearestEven_error x) as E. apply Rabs_bounds in E.
  assert (A : IZR (G - 1) < IZR (Binary64.nearestEven x)) by (rewrite minus_IZR; lra).
  apply lt_IZR in A. lia.
Qed.

(** ** Binades *)

Lemma mag_spec (x : R) :
  x <> 0 ->
  Binary64.pow2 (Binary64.mag x) <= Rabs x < Binary64.pow2 (Binary64.mag x + 1).
Proof.
  intros H. assert (P : 0 < Rabs x) by (apply Rabs_pos_lt, H).
  unfold Binary64.mag.
  pose proof (Int_part_bounds (ln (Rabs x) / ln 2)) as [L U].
  set (k := Int_part (ln (Rabs x) / ln 2)) in *.
  pose proof ln_2_pos as P2.
  assert (E : ln (Rabs x) / ln 2 * ln 2 = ln (Rabs x))
    by (unfold Rdiv; rewrite Rmult_assoc, Rinv_l by lra; lra).
  split.
  - assert (A : ln (Binary64.pow2 k) <= ln (Rabs x)) by (rewrite pow2_ln; nra).
    destruct (Rle_lt_dec (Binary64.pow2 k) (Rabs x)) as [G | G]; [exact G |].
    apply ln_increasing in G; [lra | exact P].
  - apply ln_lt_inv; [exact P | apply pow2_pos |].
    rewrite pow2_ln, plus_IZR. nra.
Qed.

Lemma mag_unique (x : R) (k : Z) :
  Binary64.pow2 k <= Rabs x < Binary64.pow2 (k + 1) -> Binary64.mag x = k.
Proof.
  intros [L U].
  assert (N : x <> 0).
  { intros ->. rewrite Rabs_R0 in L. pose proof (pow2_pos k). lra. }
  destruct (mag_spec x N) as [L' U'].
  assert (A : (Binary64.mag x < k + 1)%Z) by (apply pow2_lt_inv; lra).
  assert (B : (k < Binary64.mag x + 1)%Z) by (apply pow2_lt_inv; lra).
  lia.
Qed.

(** ** Rounding *)

Lemma rnd_0 : Binary64.rnd 0 = 0.
Proof.
  unfold Binary64.rnd. rewrite Rmult_0_l, (nearestEven_IZR 0). lra.
Qed.

(** The rounding error is at most half a unit in the last place. *)
Lemma rnd_error (x : R) :
  Rabs (Binary64.rnd x - x) <= Binary64.pow2 (Binary64.cexp x) / 2.
Proof.
  unfold Binary64.rnd. set (c := Binary64.cexp x).
  pose proof (pow2_pos c) as P. pose proof (pow2_cancel c) as C.
  pose proof (nearestEven_error (x * Binary64.pow2 (- c))) as E.
  set (N := IZR (Binary64.nearestEven (x * Binary64.pow2 (- c)))) in *.
  replace (N * Binary64.pow2 c - x)
    with ((N - x * Binary64.pow2 (- c)) * Binary64.pow2 c)
    by (rewrite Rmult_minus_distr_r, (Rmult_assoc x), C; lra).
  rewrite Rabs_mult, (Rabs_pos_eq (Binary64.pow2 c)) by lra. nra.
Qed.

Lemma cexp_binade (x : R) (k : Z) :
  Binary64.pow2 k <= Rabs x < Binary64.pow2 (k + 1) -> (-1022 <= k)%Z ->
  Binary64.cexp x = (k - 52)%Z.
Proof.
  intros B K. unfold Binary64.cexp. rewrite (mag_unique x k B). lia.
Qed.

Lemma cexp_below (x : R) (k : Z) :
  x <> 0 -> Rabs x < Binary64.pow2 (k + 1) -> (-1022 <= k)%Z ->
  (Binary64.cexp x <= k - 52)%Z.
Proof.
  intros N U K. destruct (mag_spec x N) as [L _].
  assert (A : (Binary64.mag x < k + 1)%Z) by (apply pow2_lt_inv; lra).
  unfold Binary64.cexp. lia.
Qed.

(** Rounding inside a normal binade. *)
Lemma rnd_binade (x : R) (k : Z) :
  Binary64.pow2 k <= Rabs x < Binary64.pow2 (k + 1) -> (-1022 <= k)%Z ->
  Binary64.rnd x =
  IZR (Binary64.nearestEven (x * Binary64.pow2 (52 - k))) * Binary64.pow2 (k - 52).
Proof.
  intros B K. unfold Binary64.rnd. rewrite (cexp_binade x k B K).
  replace (- (k - 52))%Z with (52 - k)%Z by lia. reflexivity.
Qed.

Lemma rnd_error_below (x : R) (k : Z) :
  Rabs x < Binary64.pow2 (k + 1) -> (-1022 <= k)%Z ->
  Rabs (Binary64.rnd x - x) <= Binary64.pow2 (k - 53).
Proof.
  intros U K. destruct (Req_dec_T x 0) as [-> | N].
  - rewrite rnd_0, Rminus_diag, Rabs_R0. left. apply pow2_pos.
  - pose proof (rnd_error x) as E.
    pose proof (pow2_le _ _ (cexp_below x k N U K)) as L.
    replace (k - 52)%Z with (k - 53 + 1)%Z in L by lia.
    rewrite pow2_add in L. change (Binary64.pow2 1) with (2 * 1) in L.
    lra.
Qed.

Lemma representable_abs (M e : Z) :
  (Z.abs M < 2 ^ 53)%Z ->
  Rabs (IZR M * Binary64.pow2 e) < Binary64.pow2 (53 + e).
Proof.
  intros H. pose proof (pow2_pos e) as P.
  rewrite Rabs_mult, (Rabs_pos_eq (Binary64.pow2 e)), <- abs_IZR by lra.
  rewrite pow2_add, (pow2_IZR 53) by lia.
  apply Rmult_lt_compat_r; [exact P |]. apply IZR_lt, H.
Qed.

(** The exponent of the last place of a number of the format is at most the
    exponent it is written with. *)
Lemma cexp_representable (M e : Z) :
  M <> 0%Z -> (Z.abs M < 2 ^ 53)%Z -> (-1074 <= e)%Z ->
  (Binary64.cexp (IZR M * Binary64.pow2 e) <= e)%Z.
Proof.
  intros N H E. set (x := IZR M * Binary64.pow2 e).
  assert (X : x <> 0).
  { unfold x. pose proof (pow2_pos e).
    assert (IZR M <> 0) by (apply not_0_IZR, N). nra. }
  destruct (mag_spec x X) as [L _].
  pose proof (representable_abs M e H) as U. fold x in U.
  assert (A : (Binary64.mag x < 53 + e)%Z) by (apply pow2_lt_inv; lra).
  unfold Binary64.cexp. lia.
Qed.

(** A multiple of [2^c] by an integer, seen from the exponent [c' <= c]. *)
Lemma scaled_integer (M c c' : Z) :
  (c' <= c)%Z ->
  IZR M * Binary64.pow2 c * Binary64.pow2 (- c') = IZR (M * 2 ^ (c - c')).
Proof.
  intros H. rewrite Rmult_assoc, <- pow2_add.
  replace (c + - c')%Z with (c - c')%Z by lia.
  rewrite pow2_IZR, <- mult_IZR by lia. reflexivity.
Qed.

(** The numbers of the format are not changed by rounding. *)
Lemma rnd_exact (x : R) : Binary64.representable x -> Binary64.rnd x = x.
Proof.
  intros (M & e & -> & H & E).
  destruct (Z.eq_dec M 0) as [-> | N].
  - rewrite Rmult_0_l. apply rnd_0.
  - pose proof (cexp_representable M e N H E) as C.
    unfold Binary64.rnd. set (c := Binary64.cexp (IZR M * Binary64.pow2 e)) in *.
    rewrite scaled_integer by exact C. rewrite nearestEven_IZR.
    rewrite <- (scaled_integer M e c C).
    rewrite Rmult_assoc, pow2_cancel. lra.
Qed.

(** Turns the powers of two with a literal exponent into literals. *)
Ltac pow2_literals :=
  repeat match goal with
    | |- context [Binary64.pow2 (Zpos ?p)] =>
        rewrite (pow2_IZR (Zpos p)) by lia;
        let v := eval vm_compute in (2 ^ Zpos p)%Z in
        change (2 ^ Zpos p)%Z with v
    | |- context [Binary64.pow2 (Zneg ?p)] =>
        rewrite (pow2_inv_IZR (Zpos p) (Pos2Z.is_nonneg p)
                 : Binary64.pow2 (Zneg p) = _);
        let v := eval vm_compute in (2 ^ Zpos p)%Z in
        change (2 ^ Zpos p)%Z with v
    | H : context [Binary64.pow2 (Zpos ?p)] |- _ =>
        rewrite (pow2_IZR (Zpos p)) in H by lia;
        let v := eval vm_compute in (2 ^ Zpos p)%Z in
        change (2 ^ Zpos p)%Z with v in H
    | H : context [Binary64.pow2 (Zneg ?p)] |- _ =>
        rewrite (pow2_inv_IZR (Zpos p) (Pos2Z.is_nonneg p)
                 : Binary64.pow2 (Zneg p) = _) in H;
        let v := eval vm_compute in (2 ^ Zpos p)%Z in
        change (2 ^ Zpos p)%Z with v in H
    end.

Lemma representable_IZR (k : Z) :
  (Z.abs k < 2 ^ 53)%Z -> Binary64.representable (IZR k).
Proof.
  intros H. exists k, 0%Z. rewrite pow2_0. repeat split; [lra | exact H | lia].
Qed.

(** Rounding does not cross a number of the format. *)
Lemma rnd_ge (x y : R) :
  Binary64.representable y -> y <= x -> y <= Binary64.rnd x.
Proof.
  intros (M & e & -> & H & E) L.
  destruct (Req_dec_T x 0) as [-> | X]; [rewrite rnd_0; exact L |].
  unfold Binary64.rnd. set (c := Binary64.cexp x).
  pose proof (pow2_pos c) as Pc. pose proof (pow2_pos (- c)) as Pc'.
  set (z := x * Binary64.pow2 (- c)).
  destruct (Z.le_gt_cases c e) as [C | C].
  - assert (G : (M * 2 ^ (e - c) <= Binary64.nearestEven z)%Z).
    { apply nearestEven_ge. rewrite <- (scaled_integer M e c C).
      unfold z. apply Rmult_le_compat_r; lra. }
    apply IZR_le in G. rewrite <- (scaled_integer M e c C) in G.
    apply (Rmult_le_compat_r _ _ _ (Rlt_le _ _ Pc)) in G.
    rewrite (Rmult_assoc _ (Binary64.pow2 (- c))), pow2_cancel in G. lra.
  - assert (Cm : c = (Binary64.mag x - 52)%Z) by (unfold c, Binary64.cexp in *; lia).
    destruct (mag_spec x X) as [Lx _].
    pose proof (representable_abs M e H) as Uy.
    pose proof (pow2_le (53 + e) (Binary64.mag x) ltac:(lia)) as Le.
    set (y := IZR M * Binary64.pow2 e) in *.
    assert (Pos : 0 < x).
    { destruct (Rlt_le_dec 0 x) as [P | P]; [exact P |].
      exfalso. rewrite (Rabs_left1 x P) in Lx.
      assert (Rabs y = - y) by (apply Rabs_left1; lra). lra. }
    rewrite (Rabs_pos_eq x) in Lx by lra.
    assert (G : (2 ^ 52 <= Binary64.nearestEven z)%Z).
    { apply nearestEven_ge. rewrite <- pow2_IZR by lia.
      replace 52%Z with (Binary64.mag x + - c)%Z by lia.
      rewrite pow2_add. unfold z. apply Rmult_le_compat_r; lra. }
    apply IZR_le in G. rewrite <- pow2_IZR in G by lia.
    apply (Rmult_le_compat_r _ _ _ (Rlt_le _ _ Pc)) in G.
    rewrite <- pow2_add in G.
    replace (52 + c)%Z with (Binary64.mag x) in G by lia.
    pose proof (Rle_abs y). lra.
Qed.

Lemma rnd_le (x y : R) :
  Binary64.representable y -> x <= y -> Binary64.rnd x <= y.
Proof.
  intros (M & e & -> & H & E) L.
  destruct (Req_dec_T x 0) as [-> | X]; [rewrite rnd_0; exact L |].
  unfold Binary64.rnd. set (c := Binary64.cexp x).
  pose proof (pow2_pos c) as Pc. pose proof (pow2_pos (- c)) as Pc'.
  set (z := x * Binary64.pow2 (- c)).
  destruct (Z.le_gt_cases c e) as [C | C].
  - assert (G : (Binary64.nearestEven z <= M * 2 ^ (e - c))%Z).
    { apply nearestEven_le. rewrite <- (scaled_integer M e c C).
      unfold z. apply Rmult_le_compat_r; lra. }
    apply IZR_le in G. rewrite <- (scaled_integer M e c C) in G.
    apply (Rmult_le_compat_r _ _ _ (Rlt_le _ _ Pc)) in G.
    rewrite (Rmult_assoc _ (Binary64.pow2 (- c))), pow2_cancel in G. lra.
  - assert (Cm : c = (Binary64.mag x - 52)%Z) by (unfold c, Binary64.cexp in *; lia).
    destruct (mag_spec x X) as [Lx _].
    pose proof (representable_abs M e H) as Uy.
    pose proof (pow2_le (53 + e) (Binary64.mag x) ltac:(lia)) as Le.
    set (y := IZR M * Binary64.pow2 e) in *.
    assert (Neg : x < 0).
    { destruct (Rlt_le_dec x 0) as [P | P]; [exact P |].
      exfalso. rewrite (Rabs_pos_eq x P) in Lx.
      pose proof (Rle_abs y). lra. }
    rewrite (Rabs_left x Neg) in Lx.
    assert (G : (Binary64.nearestEven z <= - 2 ^ 52)%Z).
    { apply nearestEven_le. rewrite opp_IZR, <- pow2_IZR by lia.
      replace 52%Z with (Binary64.mag x + - c)%Z by lia.
      rewrite pow2_add. unfold z.
      rewrite Ropp_mult_distr_l. apply Rmult_le_compat_r; lra. }
    apply IZR_le in G. rewrite opp_IZR, <- pow2_IZR in G by lia.
    apply (Rmult_le_compat_r _ _ _ (Rlt_le _ _ Pc)) in G.
    rewrite <- Ropp_mult_distr_l, <- pow2_add in G.
    replace (52 + c)%Z with (Binary64.mag x) in G by lia.
    assert (- y <= Rabs y) by (rewrite <- Rabs_Ropp; apply Rle_abs). lra.
Qed.

(** The rounded value is a number of the format. *)
Lemma rnd_representable (x : R) : Binary64.representable (Binary64.rnd x).
Proof.
  destruct (Req_dec_T x 0) as [-> | X].
  { rewrite rnd_0. apply (representable_IZR 0). reflexivity. }
  unfold Binary64.rnd. set (c := Binary64.cexp x).
  pose proof (pow2_pos (- c)) as Pc'.
  set (z := x * Binary64.pow2 (- c)).
  assert (C : (-1074 <= c)%Z /\ (Binary64.mag x + 1 <= 53 + c)%Z)
    by (unfold c, Binary64.cexp; lia).
  destruct (mag_spec x X) as [_ Ux].
  pose proof (pow2_le _ _ (proj2 C)) as Le.
  assert (Z53 : Rabs z < IZR (2 ^ 53)).
  { unfold z. rewrite Rabs_mult, (Rabs_pos_eq (Binary64.pow2 (- c))) by lra.
    rewrite <- pow2_IZR by lia.
    replace 53%Z with (53 + c + - c)%Z by lia. rewrite pow2_add.
    apply Rmult_lt_compat_r; lra. }
  apply Rabs_def2 in Z53. destruct Z53 as [Zu Zl].
  assert (Nu : (Binary64.nearestEven z <= 2 ^ 53)%Z) by (apply nearestEven_le; lra).
  assert (Nl : (- 2 ^ 53 <= Binary64.nearestEven z)%Z)
    by (apply nearestEven_ge; rewrite opp_IZR; lra).
  set (N := Binary64.nearestEven z) in *.
  destruct (Z.eq_dec (Z.abs N) (2 ^ 53)) as [A | A].
  - assert (Q : N = (2 ^ 53)%Z \/ N = (- 2 ^ 53)%Z) by lia.
    exists (N / 2)%Z, (c + 1)%Z. repeat split; [| | lia].
    + rewrite pow2_add. change (Binary64.pow2 1) with (2 * 1).
      assert (D : N = (2 * (N / 2))%Z)
        by (destruct Q as [Q | Q]; rewrite Q; reflexivity).
      rewrite D at 1. rewrite mult_IZR. lra.
    + destruct Q as [Q | Q]; rewrite Q; reflexivity.
  - exists N, c. repeat split; lia.
Qed.

(** A tie goes to the even integer. *)
Lemma nearestEven_tie (k : Z) :
  Binary64.nearestEven (IZR k + / 2) = if Z.even k then k else (k + 1)%Z.
Proof.
  unfold Binary64.nearestEven.
  replace (Int_part (IZR k + / 2)) with k by (apply Int_part_spec; lra).
  cbv zeta. rewrite Rltb_false by lra. rewrite Rltb_false by lra. reflexivity.
Qed.

(** No number of the format lies strictly between [x] and the multiple of
    the unit in the last place of [x] that follows it. *)
Lemma above_grid (x y : R) (N : Z) :
  x <> 0 -> Binary64.representable y -> x <= y ->
  IZR N < x * Binary64.pow2 (- Binary64.cexp x) ->
  IZR (N + 1) * Binary64.pow2 (Binary64.cexp x) <= y.
Proof.
  intros X (M & e & -> & H & E) L Z. set (c := Binary64.cexp x) in *.
  pose proof (pow2_pos c) as Pc. pose proof (pow2_pos (- c)) as Pc'.
  set (z := x * Binary64.pow2 (- c)) in *.
  destruct (Z.le_gt_cases c e) as [C | C].
  - assert (G : IZR N < IZR (M * 2 ^ (e - c))).
    { rewrite <- (scaled_integer M e c C).
      apply Rlt_le_trans with z; [exact Z |].
      unfold z. apply Rmult_le_compat_r; lra. }
    apply lt_IZR in G. assert (G' : (N + 1 <= M * 2 ^ (e - c))%Z) by lia.
    apply IZR_le in G'. rewrite <- (scaled_integer M e c C) in G'.
    apply (Rmult_le_compat_r _ _ _ (Rlt_le _ _ Pc)) in G'.
    rewrite (Rmult_assoc _ (Binary64.pow2 (- c))), pow2_cancel in G'. lra.
  - assert (Cm : c = (Binary64.mag x - 52)%Z) by (unfold c, Binary64.cexp in *; lia).
    destruct (mag_spec x X) as [Lx _].
    pose proof (representable_abs M e H) as Uy.
    pose proof (pow2_le (53 + e) (Binary64.mag x) ltac:(lia)) as Le.
    set (y := IZR M * Binary64.pow2 e) in *.
    assert (Neg : x < 0).
    { destruct (Rlt_le_dec x 0) as [P | P]; [exact P |].
      exfalso. rewrite (Rabs_pos_eq x P) in Lx.
      pose proof (Rle_abs y). lra. }
    rewrite (Rabs_left x Neg) in Lx.
    assert (G : IZR N < IZR (- 2 ^ 52)).
    { apply Rlt_le_trans with z; [exact Z |].
      rewrite opp_IZR, <- pow2_IZR by lia.
      replace 52%Z with (Binary64.mag x + - c)%Z by lia.
      rewrite pow2_add. unfold z.
      rewrite Ropp_mult_distr_l. apply Rmult_le_compat_r; lra. }
    apply lt_IZR in G. assert (G' : (N + 1 <= - 2 ^ 52)%Z) by lia.
    apply IZR_le in G'. rewrite opp_IZR, <- pow2_IZR in G' by lia.
    apply (Rmult_le_compat_r _ _ _ (Rlt_le _ _ Pc)) in G'.
    rewrite <- Ropp_mult_distr_l, <- pow2_add in G'.
    replace (52 + c)%Z with (Binary64.mag x) in G' by lia.
    assert (- y <= Rabs y) by (rewrite <- Rabs_Ropp; apply Rle_abs). lra.
Qed.

Lemma below_grid (x y : R) (N : Z) :
  x <> 0 -> Binary64.representable y -> y <= x ->
  x * Binary64.pow2 (- Binary64.cexp x) < IZR N ->
  y <= IZR (N - 1) * Binary64.pow2 (Binary64.cexp x).
Proof.
  intros X (M & e & -> & H & E) L Z. set (c := Binary64.cexp x) in *.
  pose proof (pow2_pos c) as Pc. pose proof (pow2_pos (- c)) as Pc'.
  set (z := x * Binary64.pow2 (- c)) in *.
  destruct (Z.le_gt_cases c e) as [C | C].
  - assert (G : IZR (M * 2 ^ (e - c)) < IZR N).
    { rewrite <- (scaled_integer M e c C).
      apply Rle_lt_trans with z; [| exact Z].
      unfold z. apply Rmult_le_compat_r; lra. }
    apply lt_IZR in G. assert (G' : (M * 2 ^ (e - c) <= N - 1)%Z) by lia.
    apply IZR_le in G'. rewrite <- (scaled_integer M e c C) in G'.
    apply (Rmult_le_compat_r _ _ _ (Rlt_le _ _ Pc)) in G'.
    rewrite (Rmult_assoc _ (Binary64.pow2 (- c))), pow2_cancel in G'. lra.
  - assert (Cm : c = (Binary64.mag x - 52)%Z) by (unfold c, Binary64.cexp in *; lia).
    destruct (mag_spec x X) as [Lx _].
    pose proof (representable_abs M e H) as Uy.
    pose proof (pow2_le (53 + e) (Binary64.mag x) ltac:(lia)) as Le.
    set (y := IZR M * Binary64.pow2 e) in *.
    assert (Pos : 0 < x).
    { destruct (Rlt_le_dec 0 x) as [P | P]; [exact P |].
      exfalso. rewrite (Rabs_left1 x P) in Lx.
      assert (Rabs y = - y) by (apply Rabs_left1; lra). lra. }
    rewrite (Rabs_pos_eq x) in Lx by lra.
    assert (G : IZR (2 ^ 52) < IZR N).
    { apply Rle_lt_trans with z; [| exact Z].
      rewrite <- pow2_IZR by lia.
      replace 52%Z with (Binary64.mag x + - c)%Z by lia.
      rewrite pow2_add. unfold z. apply Rmult_le_compat_r; lra. }
    apply lt_IZR in G. assert (G' : (2 ^ 52 <= N - 1)%Z) by lia.
    apply IZR_le in G'. rewrite <- pow2_IZR in G' by lia.
    apply (Rmult_le_compat_r _ _ _ (Rlt_le _ _ Pc)) in G'.
    rewrite <- pow2_add in G'.
    replace (52 + c)%Z with (Binary64.mag x) in G' by lia.
    pose proof (Rle_abs y). lra.
Qed.

(** [rnd] rounds to nearest: no number of the format is closer to [x]. *)
Lemma rnd_nearest (x y : R) :
  Binary64.representable y ->
  Rabs (Binary64.rnd x - x) <= Rabs (y - x).
Proof.
  intros R.
  destruct (Req_dec_T x 0) as [-> | X].
  { rewrite rnd_0, Rminus_diag, Rabs_R0. apply Rabs_pos. }
  set (c := Binary64.cexp x). pose proof (pow2_pos c) as Pc.
  set (z := x * Binary64.pow2 (- c)).
  set (N := Binary64.nearestEven z).
  assert (V : Binary64.rnd x = IZR N * Binary64.pow2 c) by reflexivity.
  assert (Xz : x = z * Binary64.pow2 c)
    by (unfold z; rewrite Rmult_assoc, pow2_cancel; lra).
  pose proof (nearestEven_error z) as Er. fold N in Er. apply Rabs_bounds in Er.
  destruct (Rle_lt_dec x y) as [L | L].
  - destruct (Rle_lt_dec x (Binary64.rnd x)) as [U | U].
    + pose proof (rnd_le x y R L).
      rewrite !Rabs_pos_eq by lra. lra.
    + assert (Zn : IZR N < z).
      { rewrite V, Xz in U. apply Rmult_lt_reg_r in U; assumption. }
      pose proof (above_grid x y N X R L Zn) as A. fold c in A.
      rewrite plus_IZR in A.
      rewrite (Rabs_left (Binary64.rnd x - x)) by lra.
      rewrite (Rabs_pos_eq (y - x)) by lra.
      assert (0 <= (IZR N + / 2 - z) * Binary64.pow2 c)
        by (apply Rmult_le_pos; lra).
      rewrite V. lra.
  - destruct (Rle_lt_dec (Binary64.rnd x) x) as [U | U].
    + pose proof (rnd_ge x y R (Rlt_le _ _ L)).
      rewrite (Rabs_left1 (Binary64.rnd x - x)) by lra.
      rewrite (Rabs_left (y - x)) by lra. lra.
    + assert (Zn : z < IZR N).
      { rewrite V, Xz in U. apply Rmult_lt_reg_r in U; assumption. }
      pose proof (below_grid x y N X R (Rlt_le _ _ L) Zn) as A. fold c in A.
      rewrite minus_IZR in A.
      rewrite (Rabs_pos_eq (Binary64.rnd x - x)) by lra.
      rewrite (Rabs_left (y - x)) by lra.
      assert (0 <= (z - (IZR N - / 2)) * Binary64.pow2 c)
        by (apply Rmult_le_pos; lra).
      rewrite V. lra.
Qed.

(** ** Operations *)

Lemma maxFinite_lower : 4503599627370496 <= Binary64.maxFinite.
Proof.
  unfold Binary64.maxFinite.
  pose proof (pow2_le 0 971 ltac:(lia)) as L. rewrite pow2_0 in L.
  pow2_literals. nra.
Qed.

Lemma round64_fin (x : R) :
  Rabs (Binary64.rnd x) <= Binary64.maxFinite ->
  Binary64.round64 (Fin x) = Fin (Binary64.rnd x).
Proof.
  intros H. apply Rabs_bounds in H. unfold Binary64.round64.
  rewrite !Rltb_false by lra. reflexivity.
Qed.

(** An operation whose exact result is a number of the format returns it. *)
Lemma round64_exact (x : R) :
  Binary64.representable x -> Rabs x <= Binary64.maxFinite ->
  Binary64.round64 (Fin x) = Fin x.
Proof.
  intros R B. rewrite round64_fin; rewrite (rnd_exact x R); trivial.
Qed.

(** A finite result is a number of the format. *)
Lemma round64_representable (a : num) (v : R) :
  Binary64.round64 a = Fin v -> Binary64.representable v.
Proof.
  destruct a as [| | | x]; try discriminate. unfold Binary64.round64.
  destruct (Rltb _ _); [discriminate |].
  destruct (Rltb _ _); [discriminate |].
  intros E. injection E as <-. apply rnd_representable.
Qed.

(** ** The deviation from the nearest semitone *)

(** The difference between a number of the format and its rounding to an
    integer is a number of the format: the subtraction [n - midi] is exact. *)
Lemma difference_exact (n : R) :
  Binary64.representable n ->
  Binary64.representable (n - IZR (Int_part (n + / 2))).
Proof.
  intros (M & e & -> & H & E). set (n := IZR M * Binary64.pow2 e).
  pose proof (round_error n) as D. set (m := Int_part (n + / 2)) in *.
  destruct (Z.le_gt_cases 0 e) as [P | P].
  - (* [n] is an integer *)
    assert (I : n = IZR (M * 2 ^ e)) by (unfold n; rewrite pow2_IZR, mult_IZR by lia; reflexivity).
    assert (Q : m = (M * 2 ^ e)%Z) by (unfold m; rewrite I; apply Int_part_half).
    rewrite Q, <- I, Rminus_diag. apply (representable_IZR 0). reflexivity.
  - destruct (Z.le_gt_cases (-53) e) as [S | S].
    + (* the difference is a multiple of [2^e] below [2^52] in magnitude *)
      exists (M - m * 2 ^ (- e))%Z, e.
      assert (X : IZR (M - m * 2 ^ (- e)) * Binary64.pow2 e = n - IZR m).
      { rewrite minus_IZR, mult_IZR, <- pow2_IZR by lia.
        rewrite Rmult_minus_distr_r, Rmult_assoc, pow2_cancel. unfold n. lra. }
      repeat split; [symmetry; exact X | | exact E].
      assert (B : Rabs (IZR (M - m * 2 ^ (- e))) <= IZR (2 ^ 52)).
      { replace (IZR (M - m * 2 ^ (- e)))
          with ((n - IZR m) * Binary64.pow2 (- e))
          by (rewrite <- X, Rmult_assoc, (Rmult_comm (Binary64.pow2 e)), pow2_cancel; lra).
        pose proof (pow2_pos (- e)) as Pe.
        rewrite Rabs_mult, (Rabs_pos_eq (Binary64.pow2 (- e))) by lra.
        assert (A : Rabs (n - IZR m) <= / 2) by (apply Rabs_le; lra).
        pose proof (pow2_le (- e) 53 ltac:(lia)) as Le.
        pose proof (Rabs_pos (n - IZR m)).
        replace (IZR (2 ^ 52)) with (/ 2 * Binary64.pow2 53)
          by (pow2_literals; change (2 ^ 52)%Z with 4503599627370496%Z; lra).
        apply Rmult_le_compat; lra. }
      rewrite <- abs_IZR in B. apply le_IZR in B.
      change (2 ^ 52)%Z with 4503599627370496%Z in B.
      change (2 ^ 53)%Z with 9007199254740992%Z. lia.
    + (* [|n| < 1/2]: the rounding is 0 *)
      pose proof (representable_abs M e H) as U. fold n in U.
      pose proof (pow2_le (53 + e) (-1) ltac:(lia)) as Le.
      assert (Half : Binary64.pow2 (-1) = / 2) by (pow2_literals; lra).
      apply Rabs_def2 in U.
      assert (Q : m = 0%Z) by (unfold m; symmetry; apply Int_part_spec; lra).
      rewrite Q, Rminus_0_r. exists M, e. repeat split; trivial.
Qed.

(** A number of the format below one half is at most [1/2 - 2^-54]. *)
Lemma below_half (d : R) :
  Binary64.representable d -> d < / 2 -> d <= / 2 - Binary64.pow2 (-54).
Proof.
  intros (M & e & -> & H & E) L. set (d := IZR M * Binary64.pow2 e) in *.
  assert (T : Binary64.pow2 (-54) = / 18014398509481984) by (pow2_literals; reflexivity).
  destruct (Rle_lt_dec d (/ 4)) as [Q | Q]; [lra |].
  pose proof (representable_abs M e H) as U. fold d in U.
  rewrite (Rabs_pos_eq d) in U by lra.
  assert (Quarter : Binary64.pow2 (-2) = / 4) by (pow2_literals; lra).
  assert (Ee : (-2 < 53 + e)%Z) by (apply pow2_lt_inv; lra).
  assert (K : d * Binary64.pow2 54 = IZR (M * 2 ^ (e + 54))).
  { unfold d. rewrite Rmult_assoc, <- pow2_add, pow2_IZR, <- mult_IZR by lia.
    reflexivity. }
  assert (B : IZR (M * 2 ^ (e + 54)) < IZR (2 ^ 53)).
  { rewrite <- K. pow2_literals.
    change (2 ^ 53)%Z with 9007199254740992%Z. lra. }
  apply lt_IZR in B.
  assert (B' : (M * 2 ^ (e + 54) <= 2 ^ 53 - 1)%Z) by lia.
  apply IZR_le in B'. rewrite <- K in B'.
  change (2 ^ 53 - 1)%Z with 9007199254740991%Z in B'.
  pow2_literals. lra.
Qed.

(** The product by 100 of a deviation in [[-1/2, 1/2)] rounds into
    [[-50, 50)], within [2^-48] of the exact product. *)
Lemma cents_bounds (d : R) :
  Binary64.representable d -> - / 2 <= d < / 2 ->
  -50 <= Binary64.rnd (d * 100) < 50 /\
  Rabs (Binary64.rnd (d * 100) - d * 100) <= Binary64.pow2 (-48).
Proof.
  intros R [L U]. split; [split |].
  - apply rnd_ge; [| lra]. apply (representable_IZR (-50)). reflexivity.
  - pose proof (below_half d R U) as B.
    assert (T : Binary64.pow2 (-54) = / 18014398509481984) by (pow2_literals; reflexivity).
    destruct (Rlt_le_dec (d * 100) 32) as [S | S].
    + assert (Binary64.rnd (d * 100) <= 32); [| lra].
      apply rnd_le; [| lra]. apply (representable_IZR 32). reflexivity.
    + assert (Bin : Binary64.pow2 5 <= Rabs (d * 100) < Binary64.pow2 (5 + 1)).
      { rewrite Rabs_pos_eq by lra. simpl Z.add. pow2_literals. lra. }
      rewrite (rnd_binade _ 5 Bin) by lia. simpl Z.sub.
      set (z := d * 100 * Binary64.pow2 47).
      assert (Z : z <= 7036874417766400 - 25 / 32).
      { unfold z. pow2_literals. lra. }
      pose proof (nearestEven_error z) as Er. apply Rabs_bounds in Er.
      assert (N : IZR (Binary64.nearestEven z) < IZR 7036874417766400) by lra.
      apply lt_IZR in N.
      assert (N' : (Binary64.nearestEven z <= 7036874417766399)%Z) by lia.
      apply IZR_le in N'. pow2_literals. lra.
  - apply (rnd_error_below (d * 100) 5); [| lia].
    simpl Z.add. pow2_literals. apply Rabs_def1; lra.
Qed.

Lemma semitone64_representable (mathLog2 : num -> num) (freq : num) (n : R) :
  Binary64.semitone mathLog2 freq = Fin n -> Binary64.representable n.
Proof. apply round64_representable. Qed.

Lemma sub_fin (x y : R) :
  Binary64.sub (Fin x) (Fin y) = Binary64.round64 (Fin (x - y)).
Proof. reflexivity. Qed.

Lemma mul_fin (x y : R) :
  Binary64.mul (Fin x) (Fin y) = Binary64.round64 (Fin (x * y)).
Proof. reflexivity. Qed.

Lemma add_fin (x y : R) :
  Binary64.add (Fin x) (Fin y) = Binary64.round64 (Fin (x + y)).
Proof. reflexivity. Qed.

Lemma div_fin (x y : R) :
  y <> 0 -> Binary64.div (Fin x) (Fin y) = Binary64.round64 (Fin (x / y)).
Proof. intros H. unfold Binary64.div. rewrite num_div_fin by exact H. reflexivity. Qed.

(** The subtraction [n - midi] returns the exact difference. *)
Lemma diff_exact (n : R) :
  Binary64.representable n ->
  Binary64.sub (Fin n) (Fin (IZR (Int_part (n + / 2))))
  = Fin (n - IZR (Int_part (n + / 2))).
Proof.
  intros R. rewrite sub_fin. apply round64_exact.
  - apply difference_exact, R.
  - pose proof (round_error n). pose proof maxFinite_lower.
    apply Rabs_le. lra.
Qed.

(** ** Bounds on logarithms *)

Lemma ln_upper (x : R) : 0 < x -> ln x <= x - 1.
Proof.
  intros H. pose proof (exp_ineq1_le (ln x)) as E.
  rewrite exp_ln in E by exact H. lra.
Qed.

Lemma ln_lower (x : R) : 0 < x -> 1 - / x <= ln x.
Proof.
  intros H. pose proof (ln_upper (/ x) (Rinv_0_lt_compat x H)) as E.
  rewrite ln_Rinv in E by exact H. lra.
Qed.

(** [exp] of a sixty-fourth, raised to the power 64. *)
Lemma exp_scaled (x : R) (n : nat) : exp (x / INR (S n)) ^ S n = exp x.
Proof.
  assert (P : 0 < INR (S n)) by (apply lt_0_INR; lia).
  apply ln_inv; [apply pow_lt, exp_pos | apply exp_pos |].
  rewrite ln_pow, !ln_exp by apply exp_pos. field. lra.
Qed.

Lemma ln2_bounds : 69 / 100 < ln 2 < 7 / 10.
Proof.
  split.
  - (* [exp (-69/100) >= (1 - 69/25600)^256 > 1/2] *)
    assert (A : (25531 / 25600) ^ 256 <= exp (- (69 / 100))).
    { rewrite <- (exp_scaled (- (69 / 100)) 255).
      apply pow_incr. split; [lra |].
      pose proof (exp_ineq1_le (- (69 / 100) / INR 256)) as E.
      replace (INR 256) with 256 in * by (rewrite INR_IZR_INZ; reflexivity).
      lra. }
    assert (B : / 2 < (25531 / 25600) ^ 256).
    { replace (25531 / 25600) with (IZR 25531 * / IZR 25600) by lra.
      rewrite Rpow_mult_distr, pow_inv, !pow_IZR.
      apply (Rmult_lt_reg_r (IZR (25600 ^ Z.of_nat 256)));
        [apply IZR_lt; vm_compute; reflexivity |].
      rewrite Rmult_assoc, Rinv_l by (apply not_0_IZR; vm_compute; discriminate).
      apply (Rmult_lt_reg_l 2); [lra |].
      rewrite <- Rmult_assoc, Rinv_r, Rmult_1_l, Rmult_1_r by lra.
      rewrite <- mult_IZR. apply IZR_lt. vm_compute. reflexivity. }
    set (w := (25531 / 25600) ^ 256) in *.
    assert (C : exp (- (69 / 100)) * exp (69 / 100) = 1)
      by (rewrite <- exp_plus; replace (- (69 / 100) + 69 / 100) with 0 by lra;
          apply exp_0).
    assert (D : exp (69 / 100) < 2) by (pose proof (exp_pos (69 / 100)); nra).
    rewrite <- (exp_ln 2) in D by lra.
    destruct (Rlt_le_dec (69 / 100) (ln 2)) as [G | G]; [exact G |].
    exfalso. destruct G as [G | G].
    + apply exp_increasing in G. lra.
    + rewrite G in D. lra.
  - (* [exp (7/10) >= (1 + 7/640)^64 > 2] *)
    assert (A : (647 / 640) ^ 64 <= exp (7 / 10)).
    { rewrite <- (exp_scaled (7 / 10) 63).
      apply pow_incr. split; [lra |].
      pose proof (exp_ineq1_le (7 / 10 / INR 64)) as E.
      replace (INR 64) with 64 in * by (rewrite INR_IZR_INZ; reflexivity).
      lra. }
    assert (B : 2 < (647 / 640) ^ 64).
    { replace (647 / 640) with (IZR 647 * / IZR 640) by lra.
      rewrite Rpow_mult_distr, pow_inv, !pow_IZR.
      apply (Rmult_lt_reg_r (IZR (640 ^ Z.of_nat 64)));
        [apply IZR_lt; vm_compute; reflexivity |].
      rewrite Rmult_assoc, Rinv_l by (apply not_0_IZR; vm_compute; discriminate).
      rewrite Rmult_1_r, <- mult_IZR. apply IZR_lt. vm_compute. reflexivity. }
    set (w := (647 / 640) ^ 64) in *.
    assert (D : exp (ln 2) < exp (7 / 10)) by (rewrite exp_ln by lra; lra).
    destruct (Rlt_le_dec (ln 2) (7 / 10)) as [G | G]; [exact G |].
    exfalso. destruct G as [G | G].
    + apply exp_increasing in G. lra.
    + rewrite G in D. lra.
Qed.

Lemma ratio_le (a b c d : Z) :
  (0 < b)%Z -> (0 < d)%Z -> (a * d <= c * b)%Z -> IZR a / IZR b <= IZR c / IZR d.
Proof.
  intros B D H. apply IZR_lt in B, D. apply IZR_le in H.
  rewrite !mult_IZR in H.
  apply (Rmult_le_reg_r (IZR b * IZR d)); [nra |].
  replace (IZR a / IZR b * (IZR b * IZR d)) with (IZR a * IZR d) by (field; lra).
  replace (IZR c / IZR d * (IZR b * IZR d)) with (IZR c * IZR b) by (field; lra).
  exact H.
Qed.

(** The logarithm in base 2 of a ratio against [1/24], through the 24th
    power: with [E = N^24 - 2 D^24],
    [E / N^24 <= (24 log2 (N / D) - 1) ln 2 <= E / (2 D^24)]. *)
Lemma pow24_ratio (N D : Z) :
  (IZR N / IZR D) ^ 24 = IZR (N ^ 24) / IZR (D ^ 24).
Proof.
  unfold Rdiv. rewrite Rpow_mult_distr, pow_inv, !pow_IZR.
  change (Z.of_nat 24) with 24%Z. reflexivity.
Qed.

Lemma ln_pow24 (q : R) : 0 < q -> ln (q ^ 24) = 24 * ln q.
Proof.
  intros Q. rewrite ln_pow by exact Q.
  replace (INR 24) with 24 by (rewrite INR_IZR_INZ; reflexivity).
  reflexivity.
Qed.

Lemma ln_window (A B l : R) :
  0 < A -> 0 < B -> ln (A / B) = 24 * l ->
  (A - 2 * B) / A <= (24 * (l / ln 2) - 1) * ln 2 <= (A - 2 * B) / (2 * B).
Proof.
  intros PA PB Lw. pose proof ln_2_pos as P2.
  assert (PX : 0 < A / B / 2)
    by (apply Rdiv_lt_0_compat; [apply Rdiv_lt_0_compat |]; lra).
  assert (L : (24 * (l / ln 2) - 1) * ln 2 = ln (A / B / 2)).
  { change (A / B / 2) with (A / B * / 2).
    rewrite ln_mult by (try apply Rdiv_lt_0_compat; lra).
    rewrite ln_Rinv by lra. rewrite Lw. field. lra. }
  rewrite L. split.
  - pose proof (ln_lower _ PX) as W.
    replace ((A - 2 * B) / A) with (1 - / (A / B / 2)) by (field; lra).
    exact W.
  - pose proof (ln_upper _ PX) as W.
    replace ((A - 2 * B) / (2 * B)) with (A / B / 2 - 1) by (field; lra).
    exact W.
Qed.

Lemma log2_deviation (N D : Z) :
  (0 < N)%Z -> (0 < D)%Z ->
  IZR (N ^ 24 - 2 * D ^ 24) / IZR (N ^ 24)
  <= (24 * (ln (IZR N / IZR D) / ln 2) - 1) * ln 2
  <= IZR (N ^ 24 - 2 * D ^ 24) / IZR (2 * D ^ 24).
Proof.
  intros HN HD.
  assert (PN : 0 < IZR N) by (apply IZR_lt; exact HN).
  assert (PD : 0 < IZR D) by (apply IZR_lt; exact HD).
  assert (Q : 0 < IZR N / IZR D) by (apply Rdiv_lt_0_compat; assumption).
  assert (PA : 0 < IZR (N ^ 24)) by (apply IZR_lt, Z.pow_pos_nonneg; lia).
  assert (PB : 0 < IZR (D ^ 24)) by (apply IZR_lt, Z.pow_pos_nonneg; lia).
  rewrite minus_IZR, !mult_IZR.
  apply ln_window; trivial.
  rewrite <- pow24_ratio. apply ln_pow24, Q.
Qed.

(** ** Evaluation at given numbers *)

(** The rounding of [x] in the binade [k], given the nearest multiple of
    the unit in the last place. *)
Lemma rnd_eval (x : R) (k N : Z) :
  Binary64.pow2 k <= Rabs x < Binary64.pow2 (k + 1) -> (-1022 <= k)%Z ->
  Rabs (x * Binary64.pow2 (52 - k) - IZR N) < / 2 ->
  Binary64.rnd x = IZR N * Binary64.pow2 (k - 52).
Proof.
  intros B K H. rewrite (rnd_binade x k B K).
  rewrite (nearestEven_near _ N H). reflexivity.
Qed.

(** Below the midpoint under a number [v] of the grid of the binade, the
    rounding is at most the number of the grid before [v]. *)
Lemma rnd_under (x : R) (k N : Z) :
  Binary64.pow2 k <= Rabs x < Binary64.pow2 (k + 1) -> (-1022 <= k)%Z ->
  x * Binary64.pow2 (52 - k) < IZR N - / 2 ->
  Binary64.rnd x <= IZR (N - 1) * Binary64.pow2 (k - 52).
Proof.
  intros B K H. rewrite (rnd_binade x k B K).
  pose proof (nearestEven_error (x * Binary64.pow2 (52 - k))) as E.
  apply Rabs_bounds in E.
  assert (A : IZR (Binary64.nearestEven (x * Binary64.pow2 (52 - k))) < IZR N) by lra.
  apply lt_IZR in A.
  apply Rmult_le_compat_r; [left; apply pow2_pos |].
  apply IZR_le. lia.
Qed.

Lemma round64_small (x : R) :
  Rabs x <= 4503599627370496 ->
  Binary64.round64 (Fin x) = Fin (Binary64.rnd x).
Proof.
  intros H. apply Rabs_bounds in H. apply round64_fin.
  pose proof maxFinite_lower as Mx.
  assert (R : Binary64.representable 4503599627370496)
    by (apply (representable_IZR 4503599627370496); reflexivity).
  assert (R' : Binary64.representable (- 4503599627370496))
    by (apply (representable_IZR (- 4503599627370496)); reflexivity).
  pose proof (rnd_le x _ R (proj2 H)). pose proof (rnd_ge x _ R' (proj1 H)).
  apply Rabs_le. lra.
Qed.

(** The semitone number from the quotient [q] and the logarithm [L] the
    implementation returns for it. *)
Lemma semitone64_eval (mathLog2 : num -> num) (f q L : R) :
  Binary64.div (Fin f) (Fin 440) = Fin q ->
  mathLog2 (Fin q) = Fin L ->
  Rabs L <= 2048 ->
  Binary64.semitone mathLog2 (Fin f)
  = Fin (Binary64.rnd (Binary64.rnd (12 * L) + 69)).
Proof.
  intros Q E B. unfold Binary64.semitone. rewrite Q, E, mul_fin.
  apply Rabs_bounds in B.
  assert (R : Binary64.representable 24576)
    by (apply (representable_IZR 24576); reflexivity).
  assert (R' : Binary64.representable (- 24576))
    by (apply (representable_IZR (- 24576)); reflexivity).
  pose proof (rnd_le (12 * L) _ R ltac:(lra)).
  pose proof (rnd_ge (12 * L) _ R' ltac:(lra)).
  rewrite round64_small by (apply Rabs_le; lra).
  rewrite add_fin. apply round64_small. apply Rabs_le. lra.
Qed.

(** The correctly rounded logarithm of a positive number. *)
Lemma log2_64_fin (q : R) :
  0 < q -> Rabs (ln q / ln 2) <= 4503599627370496 ->
  Binary64.log2 (Fin q) = Fin (Binary64.rnd (ln q / ln 2)).
Proof.
  intros Q B. unfold Binary64.log2, Math.log2. rewrite log_fin by exact Q.
  apply round64_small, B.
Qed.

(** The cents field past the guard. *)
Lemma getNoteInfo64_cents (mathLog2 : num -> num) (f n : R) :
  20 <= f ->
  Binary64.semitone mathLog2 (Fin f) = Fin n ->
  cents (Binary64.getNoteInfo mathLog2 (Fin f))
  = Fin (Binary64.rnd ((n - IZR (Int_part (n + / 2))) * 100)).
Proof.
  intros H S.
  pose proof (semitone64_representable _ _ _ S) as R.
  pose proof (round_error n) as D.
  destruct (cents_bounds _ (difference_exact n R) D) as [B _].
  unfold Binary64.getNoteInfo. rewrite (guard_passes f H). cbv zeta.
  rewrite S, round_fin. cbn [cents].
  rewrite (diff_exact n R), mul_fin. apply round64_fin.
  pose proof maxFinite_lower. apply Rabs_le. lra.
Qed.

(** At 440 Hz every operation is exact: the semitone number is 69. *)
Lemma semitone64_440 : Binary64.semitone Binary64.log2 (Fin 440) = Fin 69.
Proof.
  pose proof maxFinite_lower as Mx.
  assert (One : Binary64.round64 (Fin 1) = Fin 1).
  { apply round64_exact; [apply (representable_IZR 1); reflexivity |].
    rewrite Rabs_pos_eq; lra. }
  assert (Zero : Binary64.round64 (Fin 0) = Fin 0).
  { apply round64_exact; [apply (representable_IZR 0); reflexivity |].
    rewrite Rabs_R0; lra. }
  unfold Binary64.semitone. rewrite div_fin by lra.
  replace (440 / 440) with 1 by lra. rewrite One.
  unfold Binary64.log2, Math.log2. rewrite log_fin by lra.
  rewrite ln_1. replace (0 / ln 2) with 0 by (unfold Rdiv; lra). rewrite Zero.
  rewrite mul_fin, Rmult_0_r, Zero, add_fin, Rplus_0_l.
  apply round64_exact; [apply (representable_IZR 69); reflexivity |].
  rewrite Rabs_pos_eq; lra.
Qed.

(** The largest finite number is at least [2^1023]. *)
Lemma maxFinite_binade : Binary64.pow2 1023 <= Binary64.maxFinite.
Proof.
  unfold Binary64.maxFinite.
  replace 1023%Z with (52 + 971)%Z by reflexivity. rewrite pow2_add.
  pose proof (pow2_pos 971) as P.
  apply Rmult_le_compat_r; [lra |]. pow2_literals. lra.
Qed.

Lemma maxFinite_upper : Binary64.maxFinite <= Binary64.pow2 1024.
Proof.
  unfold Binary64.maxFinite.
  replace 1024%Z with (53 + 971)%Z by reflexivity. rewrite pow2_add.
  pose proof (pow2_pos 971) as P. pose proof (pow2_pos 53).
  apply Rmult_le_compat_r; lra.
Qed.

Lemma representable_pow2 (e : Z) :
  (-1074 <= e)%Z -> Binary64.representable (Binary64.pow2 e).
Proof.
  intros H. exists 1%Z, e. rewrite Rmult_1_l. repeat split; lia.
Qed.

(** With a correctly rounded [Math.log2] the semitone number of every
    finite frequency from 20 Hz on is finite, between 9 and 12261. *)
Lemma semitone64_total (f : R) :
  20 <= f <= Binary64.maxFinite ->
  exists n, Binary64.semitone Binary64.log2 (Fin f) = Fin n /\
            9 <= n <= 12261.
Proof.
  intros [Lo Hi]. pose proof maxFinite_upper as Mu.
  pose proof maxFinite_binade as Mb. pose proof ln_2_pos as P2.
  assert (X : Binary64.pow2 (-5) <= f / 440 <= Binary64.pow2 1016).
  { split; [pow2_literals; lra |].
    replace 1024%Z with (8 + 1016)%Z in Mu by reflexivity.
    rewrite pow2_add in Mu. pose proof (pow2_pos 1016).
    rewrite (pow2_IZR 8) in Mu by lia. change (2 ^ 8)%Z with 256%Z in Mu.
    nra. }
  set (q := Binary64.rnd (f / 440)).
  assert (Q : Binary64.pow2 (-5) <= q <= Binary64.pow2 1016).
  { split; [apply rnd_ge | apply rnd_le];
      try (apply representable_pow2; lia); apply X. }
  pose proof (pow2_pos (-5)) as P5.
  pose proof (pow2_le 1016 1023 ltac:(lia)) as P16.
  assert (D : Binary64.div (Fin f) (Fin 440) = Fin q).
  { rewrite div_fin by lra. apply round64_fin.
    unfold q in Q. rewrite Rabs_pos_eq by lra. lra. }
  assert (Lq : -5 <= ln q / ln 2 <= 1016).
  { assert (A : ln (Binary64.pow2 (-5)) <= ln q).
    { destruct (proj1 Q) as [G | G]; [left; apply ln_increasing; lra |].
      rewrite G. lra. }
    assert (B : ln q <= ln (Binary64.pow2 1016)).
    { destruct (proj2 Q) as [G | G]; [left; apply ln_increasing; lra |].
      rewrite G. lra. }
    rewrite pow2_ln in A, B.
    split.
    - apply (Rmult_le_reg_r (ln 2)); [exact P2 |].
      unfold Rdiv. rewrite Rmult_assoc, Rinv_l by lra. lra.
    - apply (Rmult_le_reg_r (ln 2)); [exact P2 |].
      unfold Rdiv. rewrite Rmult_assoc, Rinv_l by lra. lra. }
  set (L := Binary64.rnd (ln q / ln 2)).
  assert (BL : -5 <= L <= 1016).
  { split; [apply rnd_ge | apply rnd_le]; try apply Lq.
    - apply (representable_IZR (-5)). reflexivity.
    - apply (representable_IZR 1016). reflexivity. }
  assert (E : Binary64.log2 (Fin q) = Fin L).
  { apply log2_64_fin; [lra |]. apply Rabs_le. lra. }
  rewrite (semitone64_eval _ _ _ _ D E) by (apply Rabs_le; lra).
  eexists. split; [reflexivity |].
  assert (Bp : -60 <= Binary64.rnd (12 * L) <= 12192).
  { split; [apply rnd_ge | apply rnd_le]; try lra.
    - apply (representable_IZR (-60)). reflexivity.
    - apply (representable_IZR 12192). reflexivity. }
  split; [apply rnd_ge | apply rnd_le]; try lra.
  - apply (representable_IZR 9). reflexivity.
  - apply (representable_IZR 12261). reflexivity.
Qed.

(** ** Cents *)

(** C3, as amended.  For every implementation of [Math.log2] and every
    accepted frequency [f >= 20] whose computed semitone number [n] is
    finite, with [midi = round n]: the subtraction [n - midi] is exact and
    lies in [[-1/2, 1/2)], and the cents field is the rounded product
    [(n - midi) * 100], within [2^-48] of the exact product and in the
    half-open range [[-50, 50)]. *)
Theorem cents_in_range (mathLog2 : num -> num) (f n : R) :
  20 <= f ->
  Binary64.semitone mathLog2 (Fin f) = Fin n ->
  let midi := Int_part (n + / 2) in
  let c := Binary64.rnd ((n - IZR midi) * 100) in
  Math.round (Fin n) = Fin (IZR midi) /\
  Binary64.sub (Fin n) (Fin (IZR midi)) = Fin (n - IZR midi) /\
  - / 2 <= n - IZR midi < / 2 /\
  cents (Binary64.getNoteInfo mathLog2 (Fin f)) = Fin c /\
  Rabs (c - (n - IZR midi) * 100) <= Binary64.pow2 (-48) /\
  -50 <= c < 50.
Proof.
  intros H S midi c. subst c.
  pose proof (semitone64_representable _ _ _ S) as R.
  pose proof (round_error n) as D. fold midi in D.
  pose proof (difference_exact n R) as Rd. fold midi in Rd.
  destruct (cents_bounds _ Rd D) as [B Er].
  split; [reflexivity |]. split; [apply diff_exact, R |].
  split; [exact D |]. split; [| split; assumption].
  apply getNoteInfo64_cents; assumption.
Qed.

(** The theorem of C3 at 440 Hz with a correctly rounded [Math.log2]: no
    deviation. *)
Lemma cents_in_range_witness :
  20 <= 440 /\
  Binary64.semitone Binary64.log2 (Fin 440) = Fin 69 /\
  cents (Binary64.getNoteInfo Binary64.log2 (Fin 440)) = Fin 0.
Proof.
  split; [lra |]. split; [exact semitone64_440 |].
  destruct (cents_in_range Binary64.log2 440 69 ltac:(lra) semitone64_440)
    as (_ & _ & _ & C & _).
  rewrite C. rewrite (Int_part_half 69), Rminus_diag, Rmult_0_l, rnd_0.
  reflexivity.
Defined.

(** ** A quarter tone above 440 Hz *)

Lemma quarterToneUp_quotient :
  Binary64.div (Fin quarterToneUp) (Fin 440)
  = Fin (4635565169399249 / 4503599627370496).
Proof.
  rewrite div_fin by lra. unfold quarterToneUp.
  rewrite round64_small by (apply Rabs_le; lra). f_equal.
  rewrite (rnd_eval _ 0 4635565169399249).
  - simpl Z.sub. pow2_literals. lra.
  - rewrite Rabs_pos_eq by lra. simpl Z.add. rewrite pow2_0. pow2_literals. lra.
  - lia.
  - simpl Z.sub. pow2_literals. apply Rabs_def1; lra.
Qed.

(** The logarithm of the quotient is [1/24] to within [2^-54]. *)
Lemma quarterToneUp_log2 :
  0 <= 24 * (ln (4635565169399249 / 4503599627370496) / ln 2) - 1
    <= 8 / 4503599627370496.
Proof.
  pose proof (log2_deviation 4635565169399249 4503599627370496
                ltac:(lia) ltac:(lia)) as [Lo Hi].
  set (t := 24 * (ln (4635565169399249 / 4503599627370496) / ln 2) - 1) in *.
  set (N := 4635565169399249%Z) in *. set (D := 4503599627370496%Z) in *.
  assert (A : IZR 0 / IZR 1 <= IZR (N ^ 24 - 2 * D ^ 24) / IZR (N ^ 24)).
  { apply ratio_le; [lia | vm_compute; reflexivity |].
    apply Z.leb_le. vm_compute. reflexivity. }
  assert (B : IZR (N ^ 24 - 2 * D ^ 24) / IZR (2 * D ^ 24) <= IZR 5 / IZR D).
  { apply ratio_le; [vm_compute; reflexivity | vm_compute; reflexivity |].
    apply Z.leb_le. vm_compute. reflexivity. }
  set (lo := IZR (N ^ 24 - 2 * D ^ 24) / IZR (N ^ 24)) in *.
  set (hi := IZR (N ^ 24 - 2 * D ^ 24) / IZR (2 * D ^ 24)) in *.
  clearbody lo hi. subst N D.
  pose proof ln2_bounds as [C _].
  split.
  - destruct (Rle_lt_dec 0 t) as [G | G]; [exact G |].
    assert (0 < - t * ln 2) by (apply Rmult_lt_0_compat; lra).
    lra.
  - destruct (Rle_lt_dec t 0) as [G | G]; [lra |].
    assert (t * (69 / 100) <= t * ln 2) by (apply Rmult_le_compat_l; lra).
    lra.
Qed.

(** For every implementation of [Math.log2] that is within [2^-52] of the
    logarithm at the quotient, the semitone number of the quarter tone is
    exactly 69.5: the additions and the product absorb the deviation. *)
Lemma quarterToneUp_semitone (mathLog2 : num -> num) (L : R) :
  mathLog2 (Fin (4635565169399249 / 4503599627370496)) = Fin L ->
  Rabs (L - ln (4635565169399249 / 4503599627370496) / ln 2)
    <= Binary64.pow2 (-52) ->
  Binary64.semitone mathLog2 (Fin quarterToneUp) = Fin (139 / 2).
Proof.
  intros E A. pose proof quarterToneUp_log2 as [T1 T2].
  set (l := ln (4635565169399249 / 4503599627370496) / ln 2) in *.
  apply Rabs_bounds in A. pow2_literals.
  rewrite (semitone64_eval _ _ _ _ quarterToneUp_quotient E)
    by (apply Rabs_le; lra).
  f_equal.
  assert (P : Rabs (Binary64.rnd (12 * L) - 12 * L) <= Binary64.pow2 (-1 - 53)).
  { apply rnd_error_below; [| lia]. simpl Z.add. rewrite pow2_0.
    apply Rabs_def1; lra. }
  simpl Z.sub in P. apply Rabs_bounds in P. pow2_literals.
  set (p := Binary64.rnd (12 * L)) in *.
  rewrite (rnd_eval (p + 69) 6 4890627720347648).
  - simpl Z.sub. pow2_literals. lra.
  - rewrite Rabs_pos_eq by lra. simpl Z.add. pow2_literals. lra.
  - lia.
  - simpl Z.sub. pow2_literals. apply Rabs_def1; lra.
Qed.

(** C3 as stated fails at the binary64 number 452.8929841231365, with a
    correctly rounded [Math.log2]: the frequency is accepted, its computed
    semitone number is exactly 69.5, which [Math.round] takes up to 70, and
    the cents field is -50, outside [(-50, 50]].  By
    [quarterToneUp_semitone] the semitone number is 69.5 for every
    implementation of [Math.log2] within [2^-52] of the logarithm there. *)
Lemma cents_minus_fifty :
  20 <= quarterToneUp /\
  Binary64.representable quarterToneUp /\
  Binary64.semitone Binary64.log2 (Fin quarterToneUp) = Fin (139 / 2) /\
  Math.round (Fin (139 / 2)) = Fin 70 /\
  cents (Binary64.getNoteInfo Binary64.log2 (Fin quarterToneUp)) = Fin (-50).
Proof.
  assert (A : 20 <= quarterToneUp) by (unfold quarterToneUp; lra).
  assert (S : Binary64.semitone Binary64.log2 (Fin quarterToneUp) = Fin (139 / 2)).
  { pose proof quarterToneUp_log2 as [T1 T2].
    set (l := ln (4635565169399249 / 4503599627370496) / ln 2) in *.
    apply (quarterToneUp_semitone Binary64.log2 (Binary64.rnd l)).
    - apply log2_64_fin; [lra |]. apply Rabs_le. fold l. lra.
    - fold l.
      assert (P : Rabs (Binary64.rnd l - l) <= Binary64.pow2 (-5 - 53)).
      { apply rnd_error_below; [| lia]. simpl Z.add. pow2_literals.
        apply Rabs_def1; lra. }
      simpl Z.sub in P. pow2_literals. lra. }
  assert (M : Int_part (139 / 2 + / 2) = 70%Z).
  { replace (139 / 2 + / 2) with (IZR 70) by lra. apply Int_part_IZR. }
  split; [exact A |]. split; [| split; [exact S |]; split].
  - exists 7967377634904959%Z, (-44)%Z.
    split; [| split; [reflexivity | lia]].
    unfold quarterToneUp. pow2_literals. reflexivity.
  - rewrite round_fin, M. reflexivity.
  - rewrite (getNoteInfo64_cents _ _ _ A S), M.
    replace ((139 / 2 - 70) * 100) with (IZR (-50)) by lra.
    rewrite rnd_exact by (apply representable_IZR; reflexivity).
    reflexivity.
Qed.

(** ** The guard *)

(** C6, as amended.  For every input that is [NaN], [-Infinity], or a
    finite number below 20 (zero and the negative numbers among them),
    [getNoteInfo] returns the sentinel. *)
Theorem no_signal_sentinel (freq : num) :
  freq = NaN \/ freq = NInf \/ (exists x, freq = Fin x /\ x < 20) ->
  getNoteInfo freq = noNote.
Proof.
  intros [-> | [-> | (x & -> & H)]]; unfold getNoteInfo; simpl;
    try reflexivity.
  rewrite (Rltb_true x 20 H), orb_true_r. reflexivity.
Qed.

(** The theorem of C6 at zero, at -5 and at [NaN]. *)
Lemma no_signal_sentinel_witness :
  getNoteInfo (Fin 0) = noNote /\
  getNoteInfo (Fin (-5)) = noNote /\
  getNoteInfo NaN = noNote.
Proof.
  split; [| split].
  - apply (no_signal_sentinel (Fin 0)). right. right. exists 0. split; [reflexivity | lra].
  - apply (no_signal_sentinel (Fin (-5))). right. right. exists (-5). split; [reflexivity | lra].
  - apply (no_signal_sentinel NaN). left. reflexivity.
Defined.

(** C6 as stated fails at [+Infinity]: the guard lets it through, the
    semitone number is infinite, and the result holds [NaN] and
    [undefined]. *)
Lemma infinity_not_sentinel :
  getNoteInfo PInf =
  {| note := VNumber NaN; solfege := VUndefined; cents := NaN |} /\
  getNoteInfo PInf <> noNote.
Proof.
  assert (E : getNoteInfo PInf =
              {| note := VNumber NaN; solfege := VUndefined; cents := NaN |}).
  { assert (D : forall y, 0 < y -> num_div PInf (Fin y) = PInf)
      by (intros y Hy; unfold num_div; rewrite Rltb_false by lra; reflexivity).
    assert (S : semitone PInf = PInf).
    { unfold semitone, Math.log2. rewrite D by lra.
      change (Math.log 2 PInf) with PInf.
      unfold num_mul, scale_inf. rewrite Rltb_true by lra. reflexivity. }
    unfold getNoteInfo. change (falsy PInf || num_lt PInf (Fin 20)) with false.
    rewrite S. change (Math.round PInf) with PInf.
    unfold octaveOf. rewrite D by lra. reflexivity. }
  split; [exact E |]. rewrite E. discriminate.
Qed.

(** ** Octaves *)

Lemma div12_shift (m : Z) : ((m + 12) / 12 = m / 12 + 1)%Z.
Proof. replace (m + 12)%Z with (m + 1 * 12)%Z by lia. apply Z.div_add. lia. Qed.

Lemma mod12_shift (m : Z) : ((m + 12) mod 12 = m mod 12)%Z.
Proof. replace (m + 12)%Z with (m + 1 * 12)%Z by lia. apply Z.mod_add. lia. Qed.

(** The octave number of an integral semitone number below [2^52]: the
    rounded quotient [midi / 12] has the integer part of the exact one. *)
Lemma octaveOf64_fin (m : Z) :
  (0 <= m < 2 ^ 52)%Z ->
  Binary64.octaveOf (Fin (IZR m)) = Fin (IZR (m / 12 - 1)).
Proof.
  intros [L U]. change (2 ^ 52)%Z with 4503599627370496%Z in U.
  unfold Binary64.octaveOf. rewrite div_fin by lra.
  pose proof (Z.div_mod m 12 ltac:(lia)) as E.
  pose proof (Z.mod_pos_bound m 12 ltac:(lia)) as [Ml Mu].
  set (k := (m / 12)%Z) in *.
  assert (K : (0 <= k < 375299968947542)%Z) by lia.
  assert (X : IZR k <= IZR m / 12 <= IZR k + 11 / 12).
  { apply IZR_le in Ml. assert (Mu' : (m mod 12 <= 11)%Z) by lia.
    apply IZR_le in Mu'. apply (f_equal IZR) in E.
    rewrite plus_IZR, mult_IZR in E. lra. }
  assert (Rk : Binary64.representable (IZR k))
    by (apply representable_IZR; change (2 ^ 53)%Z with 9007199254740992%Z; lia).
  assert (Rk' : Binary64.representable (IZR (16 * k + 15) * Binary64.pow2 (-4))).
  { exists (16 * k + 15)%Z, (-4)%Z. repeat split; [| lia].
    change (2 ^ 53)%Z with 9007199254740992%Z. lia. }
  assert (V : IZR (16 * k + 15) * Binary64.pow2 (-4) = IZR k + 15 / 16)
    by (rewrite plus_IZR, mult_IZR; pow2_literals; lra).
  rewrite V in Rk'.
  pose proof (rnd_ge (IZR m / 12) _ Rk (proj1 X)) as G.
  pose proof (rnd_le (IZR m / 12) _ Rk' ltac:(lra)) as H.
  destruct K as [K0 K1]. apply IZR_le in K0. apply IZR_lt in K1.
  rewrite round64_small by (apply Rabs_le; lra).
  unfold Math.floor.
  replace (Int_part (Binary64.rnd (IZR m / 12))) with k
    by (apply Int_part_spec; lra).
  rewrite sub_fin. rewrite <- minus_IZR. apply round64_exact.
  - apply representable_IZR. change (2 ^ 53)%Z with 9007199254740992%Z.
    apply lt_IZR in K1. apply le_IZR in K0. lia.
  - rewrite minus_IZR. pose proof maxFinite_lower. apply Rabs_le. lra.
Qed.

(** The note and the label past the guard, from the rounded semitone
    number. *)
Lemma getNoteInfo64_note (mathLog2 : num -> num) (f n : R) :
  20 <= f ->
  Binary64.semitone mathLog2 (Fin f) = Fin n ->
  let m := Int_part (n + / 2) in
  (0 <= m < 2 ^ 52)%Z ->
  exists letter sol,
    nth_error noteNames (Z.to_nat (m mod 12)) = Some letter /\
    nth_error solfegeNames (Z.to_nat (m mod 12)) = Some sol /\
    note (Binary64.getNoteInfo mathLog2 (Fin f))
    = VString (letter ++ decimal (m / 12 - 1)) /\
    solfege (Binary64.getNoteInfo mathLog2 (Fin f)) = VString sol.
Proof.
  intros H S m M.
  pose proof (Z.mod_pos_bound m 12 ltac:(lia)) as B.
  destruct (tables_total (m mod 12) B) as (letter & sol & E1 & E2).
  exists letter, sol. split; [exact E1 |]. split; [exact E2 |].
  unfold Binary64.getNoteInfo. rewrite (guard_passes f H). cbv zeta.
  rewrite S, round_fin. fold m. cbn [note solfege].
  rewrite pitchClass_fin by lia. rewrite octaveOf64_fin by exact M.
  rewrite !index_fin by lia. rewrite E1, E2.
  unfold js_plus. rewrite num_to_string_fin. split; reflexivity.
Qed.

(** The rounded semitone number as an integer. *)
Lemma round_semitone (mathLog2 : num -> num) (f : R) (m : Z) :
  Math.round (Binary64.semitone mathLog2 (Fin f)) = Fin (IZR m) ->
  exists n, Binary64.semitone mathLog2 (Fin f) = Fin n /\
            Int_part (n + / 2) = m.
Proof.
  destruct (Binary64.semitone mathLog2 (Fin f)) as [| | | n]; try discriminate.
  rewrite round_fin. intros E. injection E as E. apply eq_IZR in E.
  exists n. split; [reflexivity | exact E].
Qed.

(** Two accepted frequencies whose rounded semitone numbers are 12 apart
    are named alike, one octave apart. *)
Lemma notes_octave_apart (mathLog2 : num -> num) (f g : R) (midi : Z) :
  (0 <= midi)%Z -> (midi + 12 < 2 ^ 52)%Z ->
  20 <= f -> 20 <= g ->
  Math.round (Binary64.semitone mathLog2 (Fin f)) = Fin (IZR midi) ->
  Math.round (Binary64.semitone mathLog2 (Fin g)) = Fin (IZR (midi + 12)) ->
  octaveAbove (Binary64.getNoteInfo mathLog2 (Fin f))
              (Binary64.getNoteInfo mathLog2 (Fin g)).
Proof.
  intros M U F G Rf Rg.
  destruct (round_semitone _ _ _ Rf) as (n & Sf & Ef).
  destruct (round_semitone _ _ _ Rg) as (n' & Sg & Eg).
  destruct (getNoteInfo64_note _ _ _ F Sf) as (letter & sol & E1 & E2 & N1 & S1);
    [rewrite Ef; lia |].
  destruct (getNoteInfo64_note _ _ _ G Sg) as (letter' & sol' & E1' & E2' & N2 & S2);
    [rewrite Eg; lia |].
  cbv zeta in *. rewrite Ef in *. rewrite Eg in *.
  rewrite mod12_shift in *.
  rewrite E1 in E1'. injection E1' as <-.
  rewrite E2 in E2'. injection E2' as <-.
  exists letter, sol, (midi / 12 - 1)%Z.
  repeat split; trivial.
  rewrite N2. do 3 f_equal. rewrite div12_shift. lia.
Qed.

(** C8, as amended.  For every non-negative [midi], adding 12 leaves the
    pitch class [midi % 12], hence the note letter and the solfege label,
    unchanged and raises the octave number [floor (midi / 12) - 1] by
    exactly 1; below [2^52] the rounded division of the code computes that
    octave number, and for every implementation of [Math.log2] two accepted
    frequencies whose rounded semitone numbers are [midi] and [midi + 12]
    are named by the same letter and label, one octave apart. *)
Theorem octave_shift (midi : Z) :
  (0 <= midi)%Z ->
  (pitchClass (Fin (IZR midi)) = Fin (IZR (midi mod 12)) /\
   pitchClass (Fin (IZR (midi + 12))) = pitchClass (Fin (IZR midi)) /\
   index noteNames (pitchClass (Fin (IZR (midi + 12)))) =
   index noteNames (pitchClass (Fin (IZR midi))) /\
   index solfegeNames (pitchClass (Fin (IZR (midi + 12)))) =
   index solfegeNames (pitchClass (Fin (IZR midi))) /\
   octaveOf (Fin (IZR midi)) = Fin (IZR (midi / 12 - 1)) /\
   octaveOf (Fin (IZR (midi + 12))) = Fin (IZR (midi / 12 - 1 + 1))) /\
  ((midi + 12 < 2 ^ 52)%Z ->
   Binary64.octaveOf (Fin (IZR midi)) = Fin (IZR (midi / 12 - 1)) /\
   Binary64.octaveOf (Fin (IZR (midi + 12))) = Fin (IZR (midi / 12 - 1 + 1)) /\
   forall (mathLog2 : num -> num) (f g : R),
     20 <= f -> 20 <= g ->
     Math.round (Binary64.semitone mathLog2 (Fin f)) = Fin (IZR midi) ->
     Math.round (Binary64.semitone mathLog2 (Fin g)) = Fin (IZR (midi + 12)) ->
     octaveAbove (Binary64.getNoteInfo mathLog2 (Fin f))
                 (Binary64.getNoteInfo mathLog2 (Fin g))).
Proof.
  intros M. split.
  - assert (P : pitchClass (Fin (IZR (midi + 12))) = pitchClass (Fin (IZR midi))).
    { rewrite !pitchClass_fin by lia. rewrite mod12_shift. reflexivity. }
    rewrite P. repeat split.
    + apply pitchClass_fin, M.
    + apply octaveOf_fin.
    + rewrite octaveOf_fin, div12_shift. do 2 f_equal. lia.
  - intros U. split; [| split].
    + apply octaveOf64_fin. lia.
    + rewrite octaveOf64_fin by lia. rewrite div12_shift. do 2 f_equal. lia.
    + intros mathLog2 f g. apply notes_octave_apart; assumption.
Qed.

(** At 880 Hz every operation is exact: the semitone number is 81. *)
Lemma semitone64_880 : Binary64.semitone Binary64.log2 (Fin 880) = Fin 81.
Proof.
  pose proof maxFinite_lower as Mx.
  assert (Ex : forall k : Z, (Z.abs k < 1024)%Z ->
                             Binary64.round64 (Fin (IZR k)) = Fin (IZR k)).
  { intros k K. apply round64_exact.
    - apply representable_IZR. change (2 ^ 53)%Z with 9007199254740992%Z. lia.
    - rewrite <- abs_IZR. apply IZR_lt in K. pose proof (Rabs_pos (IZR k)).
      rewrite abs_IZR in *. lra. }
  unfold Binary64.semitone. rewrite div_fin by lra.
  replace (880 / 440) with (IZR 2) by lra. rewrite Ex by (simpl; lia).
  unfold Binary64.log2, Math.log2. rewrite log_fin by lra.
  replace (ln 2 / ln 2) with (IZR 1) by (pose proof ln_2_pos; field; lra).
  rewrite Ex by (simpl; lia).
  rewrite mul_fin. replace (12 * 1) with (IZR 12) by lra.
  rewrite Ex by (simpl; lia).
  rewrite add_fin. replace (12 + 69) with (IZR 81) by lra.
  apply Ex. simpl. lia.
Qed.

(** The theorem of C8 at A4 with a correctly rounded [Math.log2]: 81 has
    the pitch class of 69 and octave 5, and 880 Hz is named like 440 Hz,
    one octave higher. *)
Lemma octave_shift_witness :
  pitchClass (Fin 81) = pitchClass (Fin 69) /\
  octaveOf (Fin 69) = Fin 4 /\
  octaveOf (Fin 81) = Fin 5 /\
  Binary64.octaveOf (Fin 69) = Fin 4 /\
  Binary64.octaveOf (Fin 81) = Fin 5 /\
  octaveAbove (Binary64.getNoteInfo Binary64.log2 (Fin 440))
              (Binary64.getNoteInfo Binary64.log2 (Fin 880)).
Proof.
  destruct (octave_shift 69 ltac:(lia)) as ((_ & P & _ & _ & O1 & O2) & B).
  destruct (B ltac:(reflexivity)) as (B1 & B2 & A).
  repeat split; try assumption.
  apply A; try lra.
  - rewrite semitone64_440, round_fin, (Int_part_half 69). reflexivity.
  - rewrite semitone64_880, round_fin, (Int_part_half 81). reflexivity.
Defined.

(** ** A frequency and its double on either side of a tie *)

Lemma underQuarterTone_quotient :
  Binary64.div (Fin underQuarterTone) (Fin 440)
  = Fin (4635565169399247 / 9007199254740992).
Proof.
  rewrite div_fin by lra. unfold underQuarterTone.
  rewrite round64_small by (apply Rabs_le; lra). f_equal.
  rewrite (rnd_eval _ (-1) 4635565169399247).
  - simpl Z.sub. pow2_literals. lra.
  - rewrite Rabs_pos_eq by lra. simpl Z.add. rewrite pow2_0. pow2_literals. lra.
  - lia.
  - simpl Z.sub. pow2_literals. apply Rabs_def1; lra.
Qed.

Lemma doubled_quotient :
  Binary64.div (Fin (2 * underQuarterTone)) (Fin 440)
  = Fin (4635565169399247 / 4503599627370496).
Proof.
  rewrite div_fin by lra. unfold underQuarterTone.
  rewrite round64_small by (apply Rabs_le; lra). f_equal.
  rewrite (rnd_eval _ 0 4635565169399247).
  - simpl Z.sub. pow2_literals. lra.
  - rewrite Rabs_pos_eq by lra. simpl Z.add. rewrite pow2_0. pow2_literals. lra.
  - lia.
  - simpl Z.sub. pow2_literals. apply Rabs_def1; lra.
Qed.

(** The logarithm of the quotient of the double is under [1/24] by between
    [59.7 / 24] and [61 / 24] times [2^-52]. *)
Lemma doubled_log2 :
  - (61 / 4503599627370496)
  <= 24 * (ln (4635565169399247 / 4503599627370496) / ln 2) - 1
  <= - (597 / 45035996273704960).
Proof.
  pose proof (log2_deviation 4635565169399247 4503599627370496
                ltac:(lia) ltac:(lia)) as [Lo Hi].
  set (t := 24 * (ln (4635565169399247 / 4503599627370496) / ln 2) - 1) in *.
  set (N := 4635565169399247%Z) in *. set (D := 4503599627370496%Z) in *.
  assert (A : IZR (-42) / IZR D <= IZR (N ^ 24 - 2 * D ^ 24) / IZR (N ^ 24)).
  { apply ratio_le; [reflexivity | vm_compute; reflexivity |].
    apply Z.leb_le. vm_compute. reflexivity. }
  assert (B : IZR (N ^ 24 - 2 * D ^ 24) / IZR (2 * D ^ 24)
              <= IZR (-209) / IZR (5 * D)).
  { apply ratio_le; [vm_compute; reflexivity | reflexivity |].
    apply Z.leb_le. vm_compute. reflexivity. }
  set (lo := IZR (N ^ 24 - 2 * D ^ 24) / IZR (N ^ 24)) in *.
  set (hi := IZR (N ^ 24 - 2 * D ^ 24) / IZR (2 * D ^ 24)) in *.
  clearbody lo hi. subst N D.
  change (5 * 4503599627370496)%Z with 22517998136852480%Z in B.
  pose proof ln2_bounds as [C1 C2].
  assert (Neg : t < 0).
  { destruct (Rlt_le_dec t 0) as [G | G]; [exact G |].
    assert (0 <= t * ln 2) by (apply Rmult_le_pos; lra). lra. }
  split.
  - destruct (Rle_lt_dec (- (61 / 4503599627370496)) t) as [G | G]; [exact G |].
    assert (t * ln 2 <= - (61 / 4503599627370496) * ln 2)
      by (apply Rmult_le_compat_r; lra).
    lra.
  - destruct (Rle_lt_dec t (- (597 / 45035996273704960))) as [G | G]; [exact G |].
    assert (- (597 / 45035996273704960) * ln 2 <= t * ln 2)
      by (apply Rmult_le_compat_r; lra).
    lra.
Qed.

(** Halving the quotient takes 1 off its logarithm. *)
Lemma halved_log2 :
  ln (4635565169399247 / 9007199254740992) / ln 2
  = ln (4635565169399247 / 4503599627370496) / ln 2 - 1.
Proof.
  replace (4635565169399247 / 9007199254740992)
    with (4635565169399247 / 4503599627370496 * / 2) by lra.
  rewrite ln_mult, ln_Rinv by lra. pose proof ln_2_pos. field. lra.
Qed.

(** For every implementation of [Math.log2] within one unit in the last
    place ([2^-53]) at the quotient, the semitone number of the lower
    frequency stays under 57.5 and rounds to 57. *)
Lemma underQuarterTone_midi (mathLog2 : num -> num) (L : R) :
  mathLog2 (Fin (4635565169399247 / 9007199254740992)) = Fin L ->
  Rabs (L - ln (4635565169399247 / 9007199254740992) / ln 2)
    <= Binary64.pow2 (-53) ->
  exists n,
    Binary64.semitone mathLog2 (Fin underQuarterTone) = Fin n /\
    Int_part (n + / 2) = 57%Z.
Proof.
  intros E A. pose proof doubled_log2 as [T1 T2].
  rewrite halved_log2 in A.
  set (l := ln (4635565169399247 / 4503599627370496) / ln 2) in *.
  apply Rabs_bounds in A. pow2_literals.
  rewrite (semitone64_eval _ _ _ _ underQuarterTone_quotient E)
    by (apply Rabs_le; lra).
  eexists. split; [reflexivity |].
  assert (P : Rabs (Binary64.rnd (12 * L) - 12 * L) <= Binary64.pow2 (3 - 53)).
  { apply rnd_error_below; [| lia]. simpl Z.add. pow2_literals.
    apply Rabs_def1; lra. }
  simpl Z.sub in P. apply Rabs_bounds in P. pow2_literals.
  set (p := Binary64.rnd (12 * L)) in *.
  assert (U : Binary64.rnd (p + 69)
              <= IZR (8092405580431360 - 1) * Binary64.pow2 (5 - 52)).
  { apply rnd_under.
    - rewrite Rabs_pos_eq by lra. simpl Z.add. pow2_literals. lra.
    - lia.
    - simpl Z.sub. pow2_literals. lra. }
  simpl Z.sub in U. pow2_literals.
  assert (G : 57 <= Binary64.rnd (p + 69)).
  { apply rnd_ge; [| lra]. apply (representable_IZR 57). reflexivity. }
  symmetry. apply Int_part_spec. lra.
Qed.

(** For every implementation of [Math.log2] within one unit in the last
    place ([2^-57]) at the quotient of the double, the semitone number of
    the double is exactly 69.5. *)
Lemma doubled_semitone (mathLog2 : num -> num) (L : R) :
  mathLog2 (Fin (4635565169399247 / 4503599627370496)) = Fin L ->
  Rabs (L - ln (4635565169399247 / 4503599627370496) / ln 2)
    <= Binary64.pow2 (-57) ->
  Binary64.semitone mathLog2 (Fin (2 * underQuarterTone)) = Fin (139 / 2).
Proof.
  intros E A. pose proof doubled_log2 as [T1 T2].
  set (l := ln (4635565169399247 / 4503599627370496) / ln 2) in *.
  apply Rabs_bounds in A. pow2_literals.
  rewrite (semitone64_eval _ _ _ _ doubled_quotient E)
    by (apply Rabs_le; lra).
  f_equal.
  assert (P : Rabs (Binary64.rnd (12 * L) - 12 * L) <= Binary64.pow2 (-1 - 53)).
  { apply rnd_error_below; [| lia]. simpl Z.add. rewrite pow2_0.
    apply Rabs_def1; lra. }
  simpl Z.sub in P. apply Rabs_bounds in P. pow2_literals.
  set (p := Binary64.rnd (12 * L)) in *.
  rewrite (rnd_eval (p + 69) 6 4890627720347648).
  - simpl Z.sub. pow2_literals. lra.
  - rewrite Rabs_pos_eq by lra. simpl Z.add. pow2_literals. lra.
  - lia.
  - simpl Z.sub. pow2_literals. apply Rabs_def1; lra.
Qed.

(** For every implementation of [Math.log2] within one unit in the last
    place at the two quotients, the lower frequency is named A3 and its
    double A#4. *)
Lemma doubling_any_log2 (mathLog2 : num -> num) (L1 L2 : R) :
  mathLog2 (Fin (4635565169399247 / 9007199254740992)) = Fin L1 ->
  Rabs (L1 - ln (4635565169399247 / 9007199254740992) / ln 2)
    <= Binary64.pow2 (-53) ->
  mathLog2 (Fin (4635565169399247 / 4503599627370496)) = Fin L2 ->
  Rabs (L2 - ln (4635565169399247 / 4503599627370496) / ln 2)
    <= Binary64.pow2 (-57) ->
  note (Binary64.getNoteInfo mathLog2 (Fin underQuarterTone)) = VString "A3" /\
  solfege (Binary64.getNoteInfo mathLog2 (Fin underQuarterTone)) = VString "La" /\
  note (Binary64.getNoteInfo mathLog2 (Fin (2 * underQuarterTone)))
  = VString "A#4" /\
  solfege (Binary64.getNoteInfo mathLog2 (Fin (2 * underQuarterTone)))
  = VString "Li".
Proof.
  intros E1 A1 E2 A2.
  assert (F : 20 <= underQuarterTone) by (unfold underQuarterTone; lra).
  destruct (underQuarterTone_midi _ _ E1 A1) as (n & S & M).
  pose proof (doubled_semitone _ _ E2 A2) as S'.
  assert (M' : Int_part (139 / 2 + / 2) = 70%Z).
  { replace (139 / 2 + / 2) with (IZR 70) by lra. apply Int_part_IZR. }
  destruct (getNoteInfo64_note _ _ _ F S) as (l1 & s1 & P1 & Q1 & N1 & R1);
    [rewrite M; split; [lia | reflexivity] |].
  destruct (getNoteInfo64_note _ (2 * underQuarterTone) _ ltac:(lra) S')
    as (l2 & s2 & P2 & Q2 & N2 & R2);
    [rewrite M'; split; [lia | reflexivity] |].
  cbv zeta in *. rewrite M in *. rewrite M' in *.
  vm_compute in P1, Q1, P2, Q2.
  injection P1 as <-. injection Q1 as <-.
  injection P2 as <-. injection Q2 as <-.
  rewrite N1, R1, N2, R2. repeat split.
Qed.

(** C8 as stated fails at the binary64 number 226.44649206156814, with a
    correctly rounded [Math.log2]: the frequency is named A3, its double
    452.8929841231363, a binary64 number too, is named A#4, and the two
    results are not one octave apart.  By [doubling_any_log2] the same holds
    for every implementation of [Math.log2] within one unit in the last
    place at the two quotients. *)
Lemma doubling_changes_letter :
  20 <= underQuarterTone /\
  Binary64.representable underQuarterTone /\
  Binary64.representable (2 * underQuarterTone) /\
  note (Binary64.getNoteInfo Binary64.log2 (Fin underQuarterTone))
  = VString "A3" /\
  note (Binary64.getNoteInfo Binary64.log2 (Fin (2 * underQuarterTone)))
  = VString "A#4" /\
  ~ octaveAbove (Binary64.getNoteInfo Binary64.log2 (Fin underQuarterTone))
                (Binary64.getNoteInfo Binary64.log2 (Fin (2 * underQuarterTone))).
Proof.
  pose proof doubled_log2 as [T1 T2]. pose proof halved_log2 as Hv.
  set (l2 := ln (4635565169399247 / 4503599627370496) / ln 2) in *.
  set (l1 := ln (4635565169399247 / 9007199254740992) / ln 2) in *.
  assert (D : note (Binary64.getNoteInfo Binary64.log2 (Fin underQuarterTone))
              = VString "A3" /\
              solfege (Binary64.getNoteInfo Binary64.log2 (Fin underQuarterTone))
              = VString "La" /\
              note (Binary64.getNoteInfo Binary64.log2 (Fin (2 * underQuarterTone)))
              = VString "A#4" /\
              solfege (Binary64.getNoteInfo Binary64.log2 (Fin (2 * underQuarterTone)))
              = VString "Li").
  { apply (doubling_any_log2 Binary64.log2 (Binary64.rnd l1) (Binary64.rnd l2)).
    - apply log2_64_fin; [lra |]. fold l1. apply Rabs_le. lra.
    - fold l1.
      assert (P : Rabs (Binary64.rnd l1 - l1) <= Binary64.pow2 (-1 - 53)).
      { apply rnd_error_below; [| lia]. simpl Z.add. rewrite pow2_0.
        apply Rabs_def1; lra. }
      simpl Z.sub in P. pow2_literals. lra.
    - apply log2_64_fin; [lra |]. fold l2. apply Rabs_le. lra.
    - fold l2.
      assert (P : Rabs (Binary64.rnd l2 - l2) <= Binary64.pow2 (-5 - 53)).
      { apply rnd_error_below; [| lia]. simpl Z.add. pow2_literals.
        apply Rabs_def1; lra. }
      simpl Z.sub in P. pow2_literals. lra. }
  destruct D as (N1 & S1 & N2 & S2).
  split; [unfold underQuarterTone; lra |].
  split; [| split; [| split; [exact N1 | split; [exact N2 |]]]].
  - exists 7967377634904955%Z, (-45)%Z.
    split; [| split; [reflexivity | lia]].
    unfold underQuarterTone. pow2_literals. reflexivity.
  - exists 7967377634904955%Z, (-44)%Z.
    split; [| split; [reflexivity | lia]].
    unfold underQuarterTone. pow2_literals. lra.
  - intros (letter & sol & o & _ & A & _ & B).
    rewrite S1 in A. rewrite S2 in B. rewrite <- A in B. discriminate.
Qed.

(** ** Table lookups *)

(** C9.  For every finite frequency [f >= 20] the rounded semitone number
    [midi] is at least 15, [midi % 12] lies in [[0, 11]], both table reads
    are inside the tables, and the result holds a note string, a solfege
    string and a finite deviation. *)
Theorem lookups_in_bounds (f : R) :
  20 <= f ->
  exists (midi : Z) (letter sol : string) (c : R),
    Math.round (semitone (Fin f)) = Fin (IZR midi) /\
    (15 <= midi)%Z /\
    pitchClass (Fin (IZR midi)) = Fin (IZR (midi mod 12)) /\
    (0 <= midi mod 12 <= 11)%Z /\
    nth_error noteNames (Z.to_nat (midi mod 12)) = Some letter /\
    nth_error solfegeNames (Z.to_nat (midi mod 12)) = Some sol /\
    getNoteInfo (Fin f) =
    {| note := VString (letter ++ decimal (midi / 12 - 1));
       solfege := VString sol;
       cents := Fin c |}.
Proof.
  intros H.
  destruct (getNoteInfo_fin f H) as (letter & sol & M & E1 & E2 & E).
  cbv zeta in *.
  set (n := 12 * (ln (f / 440) / ln 2) + 69) in *.
  set (m := Int_part (n + / 2)) in *.
  exists m, letter, sol, ((n - IZR m) * 100).
  pose proof (Z.mod_pos_bound m 12 ltac:(lia)).
  repeat split; trivial; try lia.
  - rewrite semitone_fin by lra. reflexivity.
  - apply pitchClass_fin. lia.
Qed.

(** The theorem of C9 at 440 Hz. *)
Lemma lookups_in_bounds_witness :
  20 <= 440 /\
  exists (midi : Z) (letter sol : string) (c : R),
    Math.round (semitone (Fin 440)) = Fin (IZR midi) /\
    (15 <= midi)%Z /\
    pitchClass (Fin (IZR midi)) = Fin (IZR (midi mod 12)) /\
    (0 <= midi mod 12 <= 11)%Z /\
    nth_error noteNames (Z.to_nat (midi mod 12)) = Some letter /\
    nth_error solfegeNames (Z.to_nat (midi mod 12)) = Some sol /\
    getNoteInfo (Fin 440) =
    {| note := VString (letter ++ decimal (midi / 12 - 1));
       solfege := VString sol;
       cents := Fin c |}.
Proof.
  split; [lra |]. apply (lookups_in_bounds 440). lra.
Defined.

(** * Further properties of the estimator *)

(** ** The gate *)

Lemma num_lt_raise (a : num) (g g' : R) :
  g <= g' -> num_lt a (Fin g) = true -> num_lt a (Fin g') = true.
Proof.
  intros H. destruct a; simpl; trivial.
  rewrite !Rltb_true_iff. lra.
Qed.

Lemma num_lt_lower (a : num) (g g' : R) :
  g <= g' -> num_lt a (Fin g') = false -> num_lt a (Fin g) = false.
Proof.
  intros H F. destruct (num_lt a (Fin g)) eqn:E; [| reflexivity].
  rewrite (num_lt_raise a g g' H E) in F. discriminate.
Qed.

(** X1.  Raising the gate only rejects more: a buffer rejected at a gate
    is rejected at every higher gate, and an estimate obtained at a gate is
    obtained unchanged at every lower gate. *)
Theorem gate_is_monotone (buf : list byte) (sampleRate : num) (g g' : R) :
  g <= g' ->
  (num_lt (level buf) (Fin g) = true ->
   autoCorrelate buf sampleRate (Fin g') = noPitch) /\
  (num_lt (level buf) (Fin g') = false ->
   autoCorrelate buf sampleRate (Fin g) = autoCorrelate buf sampleRate (Fin g')).
Proof.
  intros H. split; intros L; unfold autoCorrelate.
  - rewrite (num_lt_raise _ _ _ H L). reflexivity.
  - rewrite L, (num_lt_lower _ _ _ H L). reflexivity.
Qed.

(** The theorem of X1 at the faint buffer, rejected at 60 and so at 80. *)
Lemma gate_is_monotone_witness :
  60 <= 80 /\ autoCorrelate faint (Fin 44100) (Fin 80) = noPitch.
Proof.
  split; [lra |].
  apply (gate_is_monotone faint (Fin 44100) 60 80); [lra | exact faint_below].
Defined.

Lemma fold_squares_le (buf : list byte) (a : R) :
  fold_left (fun rms b => let val := centered b in rms + val * val) buf a
  <= a + INR (length buf).
Proof.
  revert a. induction buf as [| b buf IH]; intros a.
  - simpl. lra.
  - simpl fold_left. eapply Rle_trans; [apply IH |].
    change (length (b :: buf)) with (S (length buf)). rewrite S_INR.
    pose proof (centered_range b) as [L U].
    assert (centered b * centered b <= 1) by nra.
    lra.
Qed.

Lemma meanSquare_le_one (buf : list byte) : buf <> [] -> meanSquare buf <= 1.
Proof.
  intros N. unfold meanSquare.
  pose proof (length_positive buf N) as P.
  assert (L : sumSquares buf <= 0 + INR (length buf))
    by apply fold_squares_le.
  apply (Rmult_le_reg_r (INR (length buf))); [exact P |].
  unfold Rdiv. rewrite Rmult_assoc, Rinv_l by lra. lra.
Qed.

(** The level of a buffer with a sample never exceeds 100. *)
Lemma level_at_most_100 (buf : list byte) (g : R) :
  buf <> [] -> 100 < g -> num_lt (level buf) (Fin g) = true.
Proof.
  intros N G.
  pose proof (meanSquare_nonneg buf N) as [P | Z].
  - rewrite (level_signal buf N P). simpl. apply Rltb_true.
    rewrite (ln_sqrt _ P).
    assert (L : ln (meanSquare buf) <= 0).
    { rewrite <- ln_1. pose proof (meanSquare_le_one buf N) as [U | U].
      - left. apply ln_increasing; assumption.
      - rewrite U. lra. }
    pose proof ln_10_pos as T.
    assert (E : ln (meanSquare buf) / 2 / ln 10 <= 0).
    { apply (Rmult_le_reg_r (ln 10)); [exact T |].
      unfold Rdiv at 1. rewrite Rmult_assoc, Rinv_l by lra. lra. }
    lra.
  - rewrite level_zero; [reflexivity | exact N |].
    unfold meanSquare in Z. pose proof (length_positive buf N) as P.
    symmetry in Z. apply (f_equal (fun v => v * INR (length buf))) in Z.
    unfold Rdiv in Z. rewrite Rmult_assoc, Rinv_l in Z by lra. lra.
Qed.

(** X2.  A gate above 100 rejects every buffer that has a sample: the level
    is at most 100, the mean square of centered fractions being at most 1. *)
Theorem gate_above_100_rejects (buf : list byte) (sampleRate : num) (g : R) :
  buf <> [] -> 100 < g -> autoCorrelate buf sampleRate (Fin g) = noPitch.
Proof.
  intros N G. unfold autoCorrelate.
  rewrite (level_at_most_100 buf g N G). reflexivity.
Qed.

(** The theorem of X2 at the loud square wave and a gate of 101. *)
Lemma gate_above_100_rejects_witness :
  autoCorrelate squareWave (Fin 44100) (Fin 101) = noPitch.
Proof.
  apply (gate_above_100_rejects squareWave (Fin 44100) 101).
  - discriminate.
  - lra.
Defined.

(** ** Zero lag against lag one *)

Lemma bigsum_pointwise (f g : nat -> R) (k : nat) :
  (forall j, (j < k)%nat -> f j = g j) -> bigsum f k = bigsum g k.
Proof.
  induction k as [| k IH]; intros E; simpl; [reflexivity |].
  rewrite IH, E by auto. reflexivity.
Qed.

Lemma bigsum_nonneg (f : nat -> R) (k : nat) :
  (forall j, (j < k)%nat -> 0 <= f j) -> 0 <= bigsum f k.
Proof.
  induction k as [| k IH]; intros P; simpl; [lra |].
  specialize (IH ltac:(auto)). specialize (P k ltac:(lia)). lra.
Qed.

Lemma bigsum_zero_terms (f : nat -> R) (k : nat) :
  (forall j, (j < k)%nat -> 0 <= f j) -> bigsum f k = 0 ->
  forall j, (j < k)%nat -> f j = 0.
Proof.
  induction k as [| k IH]; intros P Z j Hj; [lia |].
  simpl in Z.
  pose proof (bigsum_nonneg f k ltac:(auto)) as N.
  pose proof (P k ltac:(lia)) as Pk.
  destruct (Nat.eq_dec j k) as [-> | D]; [lra |].
  apply IH; auto; [lra | lia].
Qed.

(** Twice the gap between [c[0]] and [c[1]] is a sum of squares:
    [2 (c[0] - c[1]) = x[0]^2 + x[n-1]^2 + sum_j (x[j] - x[j+1])^2]. *)
Lemma acf_gap (x : nat -> R) (k : nat) :
  2 * (acf x (S k) 0 - acf x (S k) 1)
  = x 0%nat * x 0%nat + x k * x k
    + bigsum (fun j => (x j - x (S j)) * (x j - x (S j))) k.
Proof.
  unfold acf.
  replace (S k - 0)%nat with (S k) by lia.
  replace (S k - 1)%nat with k by lia.
  rewrite (bigsum_pointwise _ (fun j => x j * x j) (S k))
    by (intros j _; rewrite Nat.add_0_r; reflexivity).
  rewrite (bigsum_pointwise _ (fun j => x j * x (S j)) k)
    by (intros j _; rewrite Nat.add_1_r; reflexivity).
  induction k as [| k IH]; simpl; [lra |].
  simpl in IH. lra.
Qed.

(** Unless every sample is centered, [c[0]] is above [c[1]]. *)
Lemma acf_zero_lag_dominates (x : nat -> R) (k i : nat) :
  (i <= k)%nat -> x i <> 0 -> acf x (S k) 1 < acf x (S k) 0.
Proof.
  intros Hi Ni. pose proof (acf_gap x k) as G.
  set (D := bigsum (fun j => (x j - x (S j)) * (x j - x (S j))) k) in *.
  assert (PD : 0 <= D)
    by (apply bigsum_nonneg; intros j _; apply Rle_0_sqr).
  pose proof (Rle_0_sqr (x 0%nat)) as P0. unfold Rsqr in P0.
  pose proof (Rle_0_sqr (x k)) as Pk. unfold Rsqr in Pk.
  destruct (Rlt_le_dec (acf x (S k) 1) (acf x (S k) 0)) as [Lt | Ge];
    [exact Lt | exfalso].
  assert (Z0 : x 0%nat * x 0%nat = 0) by lra.
  assert (ZD : D = 0) by lra.
  assert (E : forall j, (j < k)%nat -> x (S j) = x j).
  { intros j Hj.
    pose proof (bigsum_zero_terms _ k
                  (fun j _ => Rle_0_sqr (x j - x (S j))) ZD j Hj) as Q.
    simpl in Q. apply Rmult_integral in Q. lra. }
  assert (A : forall j, (j <= k)%nat -> x j = 0).
  { induction j as [| j IH]; intros Hj.
    - apply Rmult_integral in Z0. lra.
    - rewrite (E j) by lia. apply IH. lia. }
  apply Ni, A, Hi.
Qed.

Lemma centered_zero (b : byte) : centered b = 0 -> b = "128"%byte.
Proof.
  unfold centered, sample. intros H.
  assert (E : IZR (Z.of_N (Byte.to_N b)) = IZR 128) by lra.
  apply eq_IZR in E.
  assert (N : Byte.to_N b = Byte.to_N "128"%byte) by (simpl; lia).
  pose proof (Byte.of_to_N b) as O1. rewrite N in O1.
  rewrite Byte.of_to_N in O1. injection O1 as <-. reflexivity.
Qed.

(** A working buffer that is not flat has a sample off the center. *)
Lemma off_center_sample (b2 : list byte) :
  ~ Forall (fun b => b = "128"%byte) b2 ->
  exists i, (i < length b2)%nat /\ fraction b2 i <> 0.
Proof.
  induction b2 as [| b b2 IH]; intros N.
  - exfalso. apply N. constructor.
  - destruct (Req_dec_T (centered b) 0) as [Z | NZ].
    + destruct IH as (i & Hi & Fi).
      { intros A. apply N. constructor; [apply centered_zero, Z | exact A]. }
      exists (S i). split; [simpl; lia | exact Fi].
    + exists 0%nat. split; [simpl; lia | exact NZ].
Qed.

(** Past the gate, on a working buffer of two samples or more that is not
    flat, the descent leaves lag 0 and the estimate is a finite frequency
    between the sample rate over [n - 1] and the sample rate. *)
Lemma estimate_finite (buf : list byte) (s : R) (gate : num) :
  num_lt (level buf) gate = false -> 0 < s ->
  (2 <= length (trimmed buf))%nat ->
  ~ Forall (fun b => b = "128"%byte) (trimmed buf) ->
  exists mp, (1 <= mp <= length (trimmed buf) - 1)%nat /\
             autoCorrelate buf (Fin s) gate = Fin (s / INR mp).
Proof.
  intros G Spos L N. set (b2 := trimmed buf) in *.
  destruct (loops_find_peak b2 ltac:(lia)) as (mp & E & D & F).
  cbv zeta in *.
  set (n := length b2) in *. set (cf := acf (fraction b2) n) in *.
  set (d := descent (correlate b2) 0) in *.
  assert (D1 : (1 <= d)%nat).
  { destruct (Nat.eq_dec d 0) as [Z | NZ]; [exfalso | lia].
    destruct D as [Stop _]. rewrite Z in Stop. apply Stop.
    destruct (off_center_sample b2 N) as (i & Hi & Fi). fold n in Hi.
    repeat split; try lia. unfold cf.
    replace n with (S (n - 1))%nat by lia.
    apply (acf_zero_lag_dominates _ _ i); [lia | exact Fi]. }
  destruct F as (R1 & _).
  exists mp. split; [lia |].
  rewrite (autoCorrelate_passed buf (Fin s) gate G). cbv zeta.
  fold b2 d. rewrite E, <- INR_IZR_INZ.
  apply num_div_fin. apply Rgt_not_eq, lt_0_INR. lia.
Qed.

(** X3.  Past the gate, for a positive sample rate [s] and a working buffer
    of [n >= 2] samples that are not all centered, the estimate is the
    finite frequency [s / mp] for a lag [1 <= mp <= n - 1]: it lies between
    [s / (n - 1)] and [s]. *)
Theorem estimate_within_rate (buf : list byte) (s : R) (gate : num) :
  num_lt (level buf) gate = false -> 0 < s ->
  (2 <= length (trimmed buf))%nat ->
  ~ Forall (fun b => b = "128"%byte) (trimmed buf) ->
  exists (mp : nat) (v : R),
    (1 <= mp <= length (trimmed buf) - 1)%nat /\
    autoCorrelate buf (Fin s) gate = Fin v /\
    v = s / INR mp /\
    s / INR (length (trimmed buf) - 1) <= v <= s.
Proof.
  intros G S L N.
  destruct (estimate_finite buf s gate G S L N) as (mp & R1 & E).
  exists mp, (s / INR mp). repeat split; trivial; try lia.
  - assert (P : 0 < INR mp) by (apply lt_0_INR; lia).
    assert (Q : INR mp <= INR (length (trimmed buf) - 1)) by (apply le_INR; lia).
    unfold Rdiv. apply Rmult_le_compat_l; [lra |].
    apply Rinv_le_contravar; assumption.
  - assert (P : 1 <= INR mp) by (apply (le_INR 1); lia).
    apply (Rmult_le_reg_r (INR mp)); [lra |].
    unfold Rdiv. rewrite Rmult_assoc, Rinv_l by lra. nra.
Qed.

Lemma squareWave_not_flat :
  ~ Forall (fun b => b = "128"%byte) (trimmed squareWave).
Proof.
  rewrite squareWave_trimmed. intros A. inversion A. discriminate.
Defined.

(** The theorem of X3 at the square wave: a frequency between 44100 / 4
    and 44100. *)
Lemma estimate_within_rate_witness :
  exists v, autoCorrelate squareWave (Fin 44100) (Fin 30) = Fin v /\
            44100 / 4 <= v <= 44100.
Proof.
  destruct (estimate_within_rate squareWave 44100 (Fin 30))
    as (mp & v & _ & E & _ & B).
  - exact squareWave_passes.
  - lra.
  - rewrite squareWave_trimmed. simpl. lia.
  - exact squareWave_not_flat.
  - exists v. split; [exact E |].
    rewrite squareWave_trimmed in B. simpl in B. lra.
Defined.

Lemma flat_dec (b2 : list byte) :
  {Forall (fun b => b = "128"%byte) b2} + {~ Forall (fun b => b = "128"%byte) b2}.
Proof. apply Forall_dec. intros b. apply Byte.byte_eq_dec. Qed.

(** A one-sample working buffer: the only lag is 0. *)
Lemma estimate_single_trim (buf : list byte) (sampleRate gate : num) :
  num_lt (level buf) gate = false -> length (trimmed buf) = 1%nat ->
  autoCorrelate buf sampleRate gate = num_div sampleRate (Fin 0).
Proof.
  intros G L.
  rewrite (estimate_at_peak buf sampleRate gate 0 0 G); [reflexivity | |];
    rewrite L.
  - split; [| intros k Hk; lia]. intros (_ & H & _). lia.
  - repeat split; try lia.
    + intros k Hk. assert (k = 0%nat) as -> by lia. lra.
Qed.

(** X4.  Past the gate and for a positive sample rate, the estimate is
    [+Infinity] exactly when the working buffer has a single sample or is
    non-empty with every sample centered. *)
Theorem estimate_infinite_iff (buf : list byte) (s : R) (gate : num) :
  num_lt (level buf) gate = false -> 0 < s ->
  (autoCorrelate buf (Fin s) gate = PInf <->
   length (trimmed buf) = 1%nat \/
   (trimmed buf <> [] /\ Forall (fun b => b = "128"%byte) (trimmed buf))).
Proof.
  intros G S.
  assert (Z : num_div (Fin s) (Fin 0) = PInf)
    by (unfold num_div, scale_inf; rewrite Reqb_true by reflexivity;
        rewrite Rltb_true by exact S; reflexivity).
  split.
  - intros E.
    destruct (trimmed buf) as [| b0 [| b1 rest]] eqn:T.
    + rewrite (estimate_empty_trim buf (Fin s) gate G T) in E.
      rewrite num_div_fin in E by lra. discriminate.
    + left. reflexivity.
    + right. split; [discriminate |].
      destruct (flat_dec (b0 :: b1 :: rest)) as [A | N]; [exact A | exfalso].
      rewrite <- T in N.
      destruct (estimate_finite buf s gate G S) as (mp & _ & F); trivial.
      * rewrite T. simpl. lia.
      * rewrite F in E. discriminate.
  - intros [L | [N A]].
    + rewrite (estimate_single_trim buf (Fin s) gate G L). exact Z.
    + rewrite (estimate_flat_trim buf (Fin s) gate G N A). exact Z.
Qed.

(** The theorem of X4 at the buffer with loud edges and a silent middle. *)
Lemma estimate_infinite_iff_witness :
  autoCorrelate loudEdges (Fin 44100) (Fin 30) = PInf.
Proof.
  apply (estimate_infinite_iff loudEdges 44100 (Fin 30)).
  - exact loudEdges_passes.
  - lra.
  - right. rewrite loudEdges_trimmed. split; [discriminate |].
    repeat constructor.
Defined.

(** * Further properties of the note mapper *)

(** The semitone number of [440 * 2^k]: every operation is exact. *)
Lemma semitone64_octaves (k : Z) :
  (-1000 <= k <= 1000)%Z ->
  Binary64.semitone Binary64.log2 (Fin (440 * Binary64.pow2 k))
  = Fin (IZR (12 * k + 69)).
Proof.
  intros K. pose proof (pow2_pos k) as P. pose proof maxFinite_lower as Mx.
  assert (Ex : forall j : Z, (Z.abs j < 100000)%Z ->
                             Binary64.round64 (Fin (IZR j)) = Fin (IZR j)).
  { intros j J. apply round64_exact.
    - apply representable_IZR. change (2 ^ 53)%Z with 9007199254740992%Z. lia.
    - rewrite <- abs_IZR. apply IZR_lt in J. pose proof (Rabs_pos (IZR j)).
      rewrite abs_IZR in *. lra. }
  unfold Binary64.semitone. rewrite div_fin by lra.
  replace (440 * Binary64.pow2 k / 440) with (Binary64.pow2 k) by (field; lra).
  rewrite round64_exact.
  - unfold Binary64.log2, Math.log2. rewrite log_fin by exact P.
    rewrite pow2_ln.
    replace (IZR k * ln 2 / ln 2) with (IZR k) by (pose proof ln_2_pos; field; lra).
    rewrite Ex by lia. rewrite mul_fin.
    replace (12 * IZR k) with (IZR (12 * k)) by (rewrite mult_IZR; reflexivity).
    rewrite Ex by lia. rewrite add_fin.
    replace (IZR (12 * k) + 69) with (IZR (12 * k + 69))
      by (rewrite plus_IZR; reflexivity).
    apply Ex. lia.
  - exists 1%Z, k. rewrite Rmult_1_l. repeat split; lia.
  - rewrite Rabs_pos_eq by lra.
    pose proof (pow2_le k 1023 ltac:(lia)). pose proof maxFinite_binade. lra.
Qed.

(** X5.  The octaves of the reference pitch: with a correctly rounded
    [Math.log2], for every [k] from -4 to 1000 the frequency [440 * 2^k],
    a binary64 number, is named A with the octave number [k + 4] and the
    label La, with a deviation of exactly 0 cents. *)
Theorem octaves_of_a (k : Z) :
  (-4 <= k <= 1000)%Z ->
  let info := Binary64.getNoteInfo Binary64.log2 (Fin (440 * Binary64.pow2 k)) in
  Binary64.representable (440 * Binary64.pow2 k) /\
  note info = VString ("A" ++ decimal (k + 4)) /\
  solfege info = VString "La" /\
  cents info = Fin 0.
Proof.
  intros K info. subst info.
  pose proof (semitone64_octaves k ltac:(lia)) as S.
  assert (F : 20 <= 440 * Binary64.pow2 k).
  { pose proof (pow2_le (-4) k ltac:(lia)) as L. pow2_literals. lra. }
  assert (M : Int_part (IZR (12 * k + 69) + / 2) = (12 * k + 69)%Z)
    by apply Int_part_half.
  split; [| split; [| split]].
  - exists 55%Z, (k + 3)%Z. split; [| split; [reflexivity | lia]].
    rewrite pow2_add. pow2_literals. lra.
  - destruct (getNoteInfo64_note _ _ _ F S) as (letter & sol & E1 & _ & N & _);
      [rewrite M; change (2 ^ 52)%Z with 4503599627370496%Z; lia |].
    cbv zeta in *. rewrite M in *.
    replace ((12 * k + 69) mod 12)%Z with 9%Z in E1
      by (replace (12 * k + 69)%Z with (9 + (k + 5) * 12)%Z by lia;
          rewrite Z.mod_add by lia; reflexivity).
    replace ((12 * k + 69) / 12 - 1)%Z with (k + 4)%Z in N
      by (replace (12 * k + 69)%Z with (9 + (k + 5) * 12)%Z by lia;
          rewrite Z.div_add by lia; change (9 / 12)%Z with 0%Z; lia).
    vm_compute in E1. injection E1 as <-. exact N.
  - destruct (getNoteInfo64_note _ _ _ F S) as (letter & sol & _ & E2 & _ & Sg);
      [rewrite M; change (2 ^ 52)%Z with 4503599627370496%Z; lia |].
    cbv zeta in *. rewrite M in *.
    replace ((12 * k + 69) mod 12)%Z with 9%Z in E2
      by (replace (12 * k + 69)%Z with (9 + (k + 5) * 12)%Z by lia;
          rewrite Z.mod_add by lia; reflexivity).
    vm_compute in E2. injection E2 as <-. exact Sg.
  - rewrite (getNoteInfo64_cents _ _ _ F S), M.
    rewrite Rminus_diag, Rmult_0_l, rnd_0. reflexivity.
Qed.

(** The theorem of X5 one octave above the reference pitch: 880 Hz is A5. *)
Lemma octaves_of_a_witness :
  note (Binary64.getNoteInfo Binary64.log2 (Fin (440 * Binary64.pow2 1)))
  = VString "A5" /\
  cents (Binary64.getNoteInfo Binary64.log2 (Fin (440 * Binary64.pow2 1)))
  = Fin 0.
Proof.
  destruct (octaves_of_a 1 ltac:(lia)) as (_ & N & _ & C).
  split; [exact N | exact C].
Defined.

(** * The recorder *)

Lemma find_seq_some (f : nat -> bool) (n s i : nat) :
  find f (seq s n) = Some i ->
  (s <= i < s + n)%nat /\ f i = true /\
  forall j, (s <= j < i)%nat -> f j = false.
Proof.
  revert s. induction n as [| n IH]; intros s; simpl; [discriminate |].
  destruct (f s) eqn:E.
  - intros [= <-]. split; [lia |]. split; [exact E |]. intros j Hj. lia.
  - intros H. destruct (IH _ H) as (R1 & F & B).
    split; [lia |]. split; [exact F |].
    intros j Hj. destruct (Nat.eq_dec j s) as [-> | N]; [exact E |].
    apply B. lia.
Qed.

Lemma find_seq_none (f : nat -> bool) (n s : nat) :
  find f (seq s n) = None -> forall j, (s <= j < s + n)%nat -> f j = false.
Proof.
  intros H j Hj. apply (find_none _ _ H). apply in_seq. exact Hj.
Qed.

(** [firstOpen] is at most 8, every hole before it is covered, and the hole
    at it, if there is one, is open. *)
Lemma firstOpen_spec (holes : list (option bool)) :
  (firstOpen holes <= 8)%nat /\
  (forall j, (j < firstOpen holes)%nat -> truthy (holeAt holes j) = true) /\
  ((firstOpen holes < 8)%nat -> truthy (holeAt holes (firstOpen holes)) = false).
Proof.
  unfold firstOpen.
  destruct (find _ (seq 0 8)) as [i |] eqn:F.
  - destruct (find_seq_some _ _ _ _ F) as (R1 & O & B).
    repeat split; try lia.
    + intros j Hj. specialize (B j ltac:(lia)).
      apply negb_false_iff in B. exact B.
    + intros _. apply negb_true_iff in O. exact O.
  - repeat split; try lia.
    intros j Hj. pose proof (find_seq_none _ _ _ F j ltac:(lia)) as B.
    apply negb_false_iff in B. exact B.
Qed.

Lemma firstOpen_unique (holes : list (option bool)) (k : nat) :
  (k <= 8)%nat ->
  (forall j, (j < k)%nat -> truthy (holeAt holes j) = true) ->
  ((k < 8)%nat -> truthy (holeAt holes k) = false) ->
  firstOpen holes = k.
Proof.
  intros K C O. destruct (firstOpen_spec holes) as (K' & C' & O').
  destruct (Nat.lt_trichotomy (firstOpen holes) k) as [L | [E | L]];
    [| exact E |]; exfalso.
  - specialize (C _ L). rewrite O' in C by lia. discriminate.
  - specialize (C' _ L). rewrite O in C' by lia. discriminate.
Qed.

(** The pitch is the table entry at [firstOpen]. *)
Lemma calculatePitch_table (holes : list (option bool)) :
  calculatePitch holes = Fin (nth (firstOpen holes) recorderFreqs 523).
Proof.
  unfold calculatePitch. destruct (firstOpen_spec holes) as (K & _).
  remember (firstOpen holes) as k eqn:Ek. clear Ek.
  do 9 (destruct k as [| k];
        [simpl; rewrite Reqb_false by lra; reflexivity |]).
  lia.
Qed.

Lemma recorderFreqs_step (k : nat) :
  (k < 8)%nat -> nth (S k) recorderFreqs 523 < nth k recorderFreqs 523.
Proof.
  intros H. do 8 (destruct k as [| k]; [simpl; lra |]). lia.
Qed.

(** The table descends. *)
Lemma recorderFreqs_descend (k1 k2 : nat) :
  (k1 < k2 <= 8)%nat -> nth k2 recorderFreqs 523 < nth k1 recorderFreqs 523.
Proof.
  intros [L U]. induction k2 as [| k2 IH]; [lia |].
  pose proof (recorderFreqs_step k2 ltac:(lia)) as St.
  destruct (Nat.eq_dec k1 k2) as [-> | N]; [exact St |].
  specialize (IH ltac:(lia) ltac:(lia)). lra.
Qed.

(** X6.  For every state of the holes, whatever its length, the pitch is
    the entry of the frequency table at [firstOpen]: the fallback [|| 523]
    is never taken, and the pitch lies between 523 and 1174 Hz. *)
Theorem recorder_pitch_in_table (holes : list (option bool)) :
  exists f, nth_error recorderFreqs (firstOpen holes) = Some f /\
            calculatePitch holes = Fin f /\
            523 <= f <= 1174.
Proof.
  destruct (firstOpen_spec holes) as (K & _).
  exists (nth (firstOpen holes) recorderFreqs 523).
  split; [apply nth_error_nth'; simpl; lia |].
  split; [apply calculatePitch_table |].
  remember (firstOpen holes) as k eqn:Ek. clear Ek.
  do 9 (destruct k as [| k]; [simpl; lra |]).
  lia.
Qed.

(** X7.  The air column and the pitch move against each other: of two
    states of the holes, one has the longer air column exactly when it has
    the lower pitch. *)
Theorem longer_column_lower_pitch (h1 h2 : list (option bool)) :
  getAirColumnHeight h1 < getAirColumnHeight h2 <->
  num_lt (calculatePitch h2) (calculatePitch h1) = true.
Proof.
  rewrite !calculatePitch_table. unfold getAirColumnHeight, num_lt.
  rewrite Rltb_true_iff.
  destruct (firstOpen_spec h1) as (K1 & _).
  destruct (firstOpen_spec h2) as (K2 & _).
  set (k1 := firstOpen h1) in *. set (k2 := firstOpen h2) in *.
  destruct (Nat.lt_trichotomy k1 k2) as [L | [E | L]].
  - pose proof (recorderFreqs_descend k1 k2 ltac:(lia)).
    pose proof (lt_INR _ _ L). split; intros; lra.
  - rewrite E. split; intros; lra.
  - pose proof (recorderFreqs_descend k2 k1 ltac:(lia)).
    pose proof (lt_INR _ _ L). split; intros; lra.
Qed.

(** ** Toggling a hole *)

Lemma nth_middle_changed {A : Type} (l1 l2 : list A) (x a d : A) (i : nat) :
  nth i (l1 ++ x :: l2) d =
  if (i =? length l1)%nat then x else nth i (l1 ++ a :: l2) d.
Proof.
  destruct (Nat.eqb_spec i (length l1)) as [-> | N].
  - apply nth_middle.
  - destruct (Nat.lt_ge_cases i (length l1)) as [L | G].
    + rewrite !app_nth1 by exact L. reflexivity.
    + rewrite !app_nth2 by exact G.
      destruct (i - length l1)%nat as [| k] eqn:E; [lia | reflexivity].
Qed.

Lemma around_middle {A : Type} (l1 l2 : list A) (x : A) :
  firstn (length l1) (l1 ++ x :: l2) = l1 /\
  skipn (S (length l1)) (l1 ++ x :: l2) = l2.
Proof.
  split.
  - rewrite firstn_app, Nat.sub_diag, firstn_all. simpl. apply app_nil_r.
  - replace (l1 ++ x :: l2) with ((l1 ++ [x]) ++ l2)
      by (rewrite <- app_assoc; reflexivity).
    rewrite skipn_app.
    replace (length (l1 ++ [x])) with (S (length l1))
      by (rewrite length_app; simpl; lia).
    rewrite Nat.sub_diag. rewrite skipn_all2; [reflexivity |].
    rewrite length_app. simpl. lia.
Qed.

(** A list cut around one of its positions. *)
Lemma cut_at {A : Type} (l : list A) (n : nat) (d : A) :
  (n < length l)%nat ->
  exists l1 l2, l = l1 ++ nth n l d :: l2 /\ length l1 = n /\
                firstn n l = l1 /\ skipn (S n) l = l2.
Proof.
  intros H. destruct (nth_split l d H) as (l1 & l2 & E & L).
  exists l1, l2. destruct (around_middle l1 l2 (nth n l d)) as [F K].
  rewrite <- E, L in F, K. repeat split; trivial.
Qed.

Lemma holeAt_toggle (holes : list (option bool)) (index i : nat) :
  holeAt (toggleHole holes index) i =
  if (i =? index)%nat then Some (negb (truthy (holeAt holes index)))
  else holeAt holes i.
Proof.
  unfold toggleHole, holeAt.
  destruct (Nat.ltb_spec index (length holes)) as [In | Out].
  - destruct (cut_at holes index None In) as (l1 & l2 & E & L & F & K).
    rewrite F, K.
    rewrite (nth_middle_changed l1 l2 _ (nth index holes None)), L.
    rewrite <- E. reflexivity.
  - destruct (Nat.eqb_spec i index) as [-> | N].
    + rewrite app_nth2 by exact Out. rewrite app_nth2; rewrite repeat_length;
        [| lia].
      rewrite Nat.sub_diag. reflexivity.
    + destruct (Nat.lt_ge_cases i (length holes)) as [L | G].
      * rewrite app_nth1 by exact L. reflexivity.
      * rewrite app_nth2 by exact G. rewrite (nth_overflow holes None G).
        destruct (Nat.lt_ge_cases (i - length holes) (index - length holes))
          as [L2 | G2].
        -- rewrite app_nth1 by (rewrite repeat_length; exact L2).
           apply nth_repeat.
        -- apply nth_overflow. rewrite length_app, repeat_length. simpl. lia.
Qed.

Lemma length_toggle (holes : list (option bool)) (index : nat) :
  length (toggleHole holes index) = Nat.max (length holes) (S index).
Proof.
  unfold toggleHole.
  destruct (Nat.ltb_spec index (length holes)) as [In | Out].
  - destruct (cut_at holes index None In) as (l1 & l2 & E & L & F & K).
    rewrite F, K. apply (f_equal (@length _)) in E.
    rewrite length_app in *. simpl in *. lia.
  - rewrite !length_app, repeat_length. simpl. lia.
Qed.

(** X8.  Toggling changes one slot only: the slot [index] becomes the
    negation of its truthiness, every other index reads as before, and the
    array keeps its length unless the index was past its end. *)
Theorem toggle_flips_one_hole (holes : list (option bool)) (index : nat) :
  holeAt (toggleHole holes index) index
  = Some (negb (truthy (holeAt holes index))) /\
  (forall i, i <> index ->
             holeAt (toggleHole holes index) i = holeAt holes i) /\
  length (toggleHole holes index) = Nat.max (length holes) (S index).
Proof.
  repeat split.
  - rewrite holeAt_toggle, Nat.eqb_refl. reflexivity.
  - intros i N. rewrite holeAt_toggle.
    destruct (Nat.eqb_spec i index); [contradiction | reflexivity].
  - apply length_toggle.
Qed.

(** X9.  Toggling the same hole twice restores the array, for an index
    inside the array whose slot holds a boolean. *)
Theorem toggle_twice_restores (holes : list (option bool)) (index : nat) :
  (index < length holes)%nat -> holeAt holes index <> None ->
  toggleHole (toggleHole holes index) index = holes.
Proof.
  intros In Hs.
  destruct (cut_at holes index None In) as (l1 & l2 & E & L & F & K).
  assert (T : toggleHole holes index
              = l1 ++ Some (negb (truthy (holeAt holes index))) :: l2).
  { unfold toggleHole.
    replace (index <? length holes)%nat with true
      by (symmetry; apply Nat.ltb_lt; exact In).
    rewrite F, K. reflexivity. }
  pose proof (holeAt_toggle holes index index) as V.
  rewrite Nat.eqb_refl in V.
  unfold toggleHole at 1. rewrite V.
  replace (index <? length (toggleHole holes index))%nat with true
    by (symmetry; apply Nat.ltb_lt; rewrite length_toggle; lia).
  rewrite T, <- L.
  destruct (around_middle l1 l2 (Some (negb (truthy (holeAt holes (length l1))))))
    as [F' K'].
  rewrite F', K'. rewrite E at 2. do 2 f_equal.
  rewrite L. unfold holeAt in *.
  destruct (nth index holes None) as [b |]; [| contradiction].
  simpl. rewrite negb_involutive. reflexivity.
Qed.

(** The theorem of X9 on the initial state and hole 3. *)
Lemma toggle_twice_restores_witness :
  toggleHole (toggleHole noHoleCovered 3) 3 = noHoleCovered.
Proof.
  apply (toggle_twice_restores noHoleCovered 3).
  - simpl. lia.
  - discriminate.
Defined.

(** * Semitones of rational frequencies *)

Lemma ln_le_mono (x y : R) : 0 < x -> x <= y -> ln x <= ln y.
Proof.
  intros P [L | E]; [left; apply ln_increasing; assumption | rewrite E; lra].
Qed.

Lemma INR_to_nat_diff (z : Z) :
  INR (Z.to_nat z) - INR (Z.to_nat (- z)) = IZR z.
Proof.
  rewrite !INR_IZR_INZ. rewrite <- minus_IZR. f_equal. lia.
Qed.

Lemma ln_scaled_power (x : R) (a : nat) :
  0 < x -> ln (x ^ 24 * 2 ^ a) = 24 * ln x + INR a * ln 2.
Proof.
  intros P. rewrite ln_mult by (apply pow_lt; lra).
  rewrite !ln_pow by lra. simpl INR. lra.
Qed.

Lemma IZR_scaled_power (z : Z) (a : nat) :
  IZR (z ^ 24 * 2 ^ Z.of_nat a) = IZR z ^ 24 * 2 ^ a.
Proof.
  rewrite mult_IZR. change 24%Z with (Z.of_nat 24).
  rewrite <- !pow_IZR. reflexivity.
Qed.

Lemma ln_ratio (p q : R) : 0 < p -> 0 < q -> ln (p / q) = ln p - ln q.
Proof.
  intros P Q. unfold Rdiv.
  rewrite ln_mult by (try apply Rinv_0_lt_compat; assumption).
  rewrite ln_Rinv by assumption. lra.
Qed.

(** The integer test decides the rounding of the semitone number. *)
Lemma roundsTo_sound (f : R) (P Q m : Z) :
  roundsTo P Q m = true -> f = IZR P / IZR Q ->
  Int_part (12 * (ln (f / 440) / ln 2) + 69 + / 2) = m.
Proof.
  unfold roundsTo. intros T ->.
  apply andb_true_iff in T. destruct T as [T U].
  apply andb_true_iff in T. destruct T as [T L].
  apply andb_true_iff in T. destruct T as [HP HQ].
  apply Z.ltb_lt in HP, HQ, U. apply Z.leb_le in L.
  apply IZR_lt in HP, HQ.
  assert (HQ' : 0 < IZR (440 * Q)) by (rewrite mult_IZR; lra).
  apply IZR_le in L. apply IZR_lt in U.
  rewrite !IZR_scaled_power in L, U.
  apply ln_le_mono in L;
    [| apply Rmult_lt_0_compat; apply pow_lt; lra].
  apply ln_increasing in U;
    [| apply Rmult_lt_0_compat; apply pow_lt; lra].
  rewrite !ln_scaled_power in L, U by lra.
  pose proof (INR_to_nat_diff (2 * m - 139)) as D1.
  pose proof (INR_to_nat_diff (2 * m - 137)) as D2.
  rewrite minus_IZR, mult_IZR in D1, D2.
  replace (IZR P / IZR Q / 440) with (IZR P / IZR (440 * Q))
    by (rewrite mult_IZR; field; lra).
  rewrite ln_ratio by lra.
  pose proof ln_2_pos as P2.
  set (lp := ln (IZR P)) in *. set (lq := ln (IZR (440 * Q))) in *.
  set (x := (lp - lq) / ln 2).
  assert (X : x * ln 2 = lp - lq)
    by (unfold x, Rdiv; rewrite Rmult_assoc, Rinv_l by lra; lra).
  symmetry. apply Int_part_spec.
  apply (f_equal (fun v => v * ln 2)) in D1, D2.
  assert (A : (2 * IZR m - 139) * ln 2 <= 24 * (x * ln 2)) by (rewrite X; lra).
  assert (B : 24 * (x * ln 2) < (2 * IZR m - 137) * ln 2) by (rewrite X; lra).
  assert (A' : 2 * IZR m - 139 <= 24 * x) by nra.
  assert (B' : 24 * x < 2 * IZR m - 137) by nra.
  lra.
Qed.

(** The note and the solfege label of a frequency whose rounding is
    known. *)
Lemma note_of_ratio (f : R) (P Q m : Z) :
  20 <= f -> roundsTo P Q m = true -> f = IZR P / IZR Q ->
  exists letter sol,
    nth_error noteNames (Z.to_nat (m mod 12)) = Some letter /\
    nth_error solfegeNames (Z.to_nat (m mod 12)) = Some sol /\
    note (getNoteInfo (Fin f)) = VString (letter ++ decimal (m / 12 - 1)) /\
    solfege (getNoteInfo (Fin f)) = VString sol.
Proof.
  intros H T E.
  destruct (getNoteInfo_fin f H) as (letter & sol & _ & E1 & E2 & G).
  cbv zeta in *. rewrite (roundsTo_sound f P Q m T E) in *.
  exists letter, sol. rewrite G. repeat split; trivial.
Qed.

(** Names the note of the closed frequency [f = P / Q] of semitone [m]. *)
Ltac name_note P Q m :=
  match goal with
  | |- note (getNoteInfo (Fin ?f)) = _ /\ solfege (getNoteInfo (Fin ?f)) = _ =>
      let l := fresh "letter" in
      let s := fresh "sol" in
      let E1 := fresh in
      let E2 := fresh in
      let N := fresh in
      let S := fresh in
      destruct (note_of_ratio f P Q m ltac:(lra)
                  ltac:(vm_compute; reflexivity) ltac:(lra))
        as (l & s & E1 & E2 & N & S);
      vm_compute in E1; vm_compute in E2;
      injection E1 as <-; injection E2 as <-;
      split; [exact N | exact S]
  end.

Lemma note_of_440 :
  note (getNoteInfo (Fin 440)) = VString "A4" /\
  solfege (getNoteInfo (Fin 440)) = VString "La".
Proof. name_note 440%Z 1%Z 69%Z. Qed.

(** ** The notes of the recorder *)

Lemma recorder_note_at (k : nat) :
  (k <= 8)%nat ->
  note (getNoteInfo (Fin (nth k recorderFreqs 523)))
  = VString (nth k scaleNotes ""%string) /\
  solfege (getNoteInfo (Fin (nth k recorderFreqs 523)))
  = VString (nth k scaleSolfege ""%string).
Proof.
  intros H.
  destruct k as [| k]; [simpl nth; name_note 1174%Z 1%Z 86%Z |].
  destruct k as [| k]; [simpl nth; name_note 1046%Z 1%Z 84%Z |].
  destruct k as [| k]; [simpl nth; name_note 987%Z 1%Z 83%Z |].
  destruct k as [| k]; [simpl nth; name_note 880%Z 1%Z 81%Z |].
  destruct k as [| k]; [simpl nth; name_note 783%Z 1%Z 79%Z |].
  destruct k as [| k]; [simpl nth; name_note 698%Z 1%Z 77%Z |].
  destruct k as [| k]; [simpl nth; name_note 659%Z 1%Z 76%Z |].
  destruct k as [| k]; [simpl nth; name_note 587%Z 1%Z 74%Z |].
  destruct k as [| k]; [simpl nth; name_note 523%Z 1%Z 72%Z |].
  lia.
Qed.

(** X10.  For every state of the holes the recorder shows a note of the C
    major scale from D6 down to C5: the note and the solfege label that
    [getNoteInfo] gives to the pitch are the entries at [firstOpen] of
    D6, C6, B5, A5, G5, F5, E5, D5, C5 and Re, Do, Ti, La, Sol, Fa, Mi, Re,
    Do; the sentinel is never shown. *)
Theorem recorder_plays_c_major (holes : list (option bool)) :
  hz (recorderDisplay holes) = calculatePitch holes /\
  shownNote (recorderDisplay holes)
  = VString (nth (firstOpen holes) scaleNotes ""%string) /\
  shownSolfege (recorderDisplay holes)
  = VString (nth (firstOpen holes) scaleSolfege ""%string).
Proof.
  split; [reflexivity |]. unfold recorderDisplay. cbn [shownNote shownSolfege].
  rewrite calculatePitch_table.
  apply recorder_note_at. apply firstOpen_spec.
Qed.

(** ** Toggling a hole and the pitch *)

Lemma pitch_of_firstOpen (h1 h2 : list (option bool)) :
  (firstOpen h1 < firstOpen h2)%nat ->
  num_lt (calculatePitch h2) (calculatePitch h1) = true.
Proof.
  intros L. rewrite !calculatePitch_table. unfold num_lt.
  apply Rltb_true. apply recorderFreqs_descend.
  pose proof (firstOpen_spec h2). lia.
Qed.

(** X11.  Toggling hole [i < 8]: beyond the first open hole it leaves the
    pitch unchanged; before it (a covered hole is opened) the pitch rises
    to the table entry [i]; at it (the first open hole is covered) the
    pitch falls. *)
Theorem toggle_moves_pitch (holes : list (option bool)) (i : nat) :
  (i < 8)%nat ->
  ((firstOpen holes < i)%nat ->
   calculatePitch (toggleHole holes i) = calculatePitch holes) /\
  ((i < firstOpen holes)%nat ->
   firstOpen (toggleHole holes i) = i /\
   num_lt (calculatePitch holes) (calculatePitch (toggleHole holes i)) = true) /\
  (i = firstOpen holes ->
   num_lt (calculatePitch (toggleHole holes i)) (calculatePitch holes) = true).
Proof.
  intros Hi. destruct (firstOpen_spec holes) as (K & C & O).
  assert (Same : forall j, j <> i ->
            truthy (holeAt (toggleHole holes i) j) = truthy (holeAt holes j)).
  { intros j N. rewrite holeAt_toggle.
    destruct (Nat.eqb_spec j i); [contradiction | reflexivity]. }
  assert (Flip : truthy (holeAt (toggleHole holes i) i)
                 = negb (truthy (holeAt holes i))).
  { rewrite holeAt_toggle, Nat.eqb_refl. reflexivity. }
  split; [| split].
  - intros L.
    assert (E : firstOpen (toggleHole holes i) = firstOpen holes).
    { apply firstOpen_unique; [exact K | |].
      - intros j Hj. rewrite Same by lia. apply C, Hj.
      - intros H8. rewrite Same by lia. apply O, H8. }
    rewrite !calculatePitch_table, E. reflexivity.
  - intros L.
    assert (E : firstOpen (toggleHole holes i) = i).
    { apply firstOpen_unique; [lia | |].
      - intros j Hj. rewrite Same by lia. apply C. lia.
      - intros _. rewrite Flip, (C i L). reflexivity. }
    split; [exact E |]. apply pitch_of_firstOpen. rewrite E. exact L.
  - intros ->. apply pitch_of_firstOpen.
    destruct (firstOpen_spec (toggleHole holes (firstOpen holes)))
      as (K' & C' & O').
    destruct (Nat.lt_trichotomy (firstOpen (toggleHole holes (firstOpen holes)))
                (firstOpen holes)) as [L | [E | L]]; [exfalso | exfalso | exact L].
    + specialize (O' ltac:(lia)). rewrite Same in O' by lia.
      rewrite (C _ L) in O'. discriminate.
    + specialize (O' ltac:(lia)). rewrite E, Flip in O'.
      rewrite (O Hi) in O'. discriminate.
Qed.

(** The theorem of X11 on the initial state: covering hole 0 lowers the
    pitch. *)
Lemma toggle_moves_pitch_witness :
  num_lt (calculatePitch (toggleHole noHoleCovered 0))
         (calculatePitch noHoleCovered) = true.
Proof.
  destruct (toggle_moves_pitch noHoleCovered 0 ltac:(lia)) as (_ & _ & F).
  apply F. reflexivity.
Defined.

(** * The violin *)

(** ** Stopping a string *)

Lemma stop_factor_bounds (h y : R) :
  0 < h -> 0 <= y <= h -> 1 <= h * 1.5 / (h * 1.5 - y) <= 3.
Proof.
  intros H [L U].
  assert (D : 0 < h * 1.5 - y) by lra.
  split.
  - apply (Rmult_le_reg_r (h * 1.5 - y)); [exact D |].
    unfold Rdiv. rewrite Rmult_assoc, Rinv_l by lra. lra.
  - apply (Rmult_le_reg_r (h * 1.5 - y)); [exact D |].
    unfold Rdiv. rewrite Rmult_assoc, Rinv_l by lra. lra.
Qed.

Lemma stop_factor_mono (h y1 y2 : R) :
  0 < h -> 0 <= y1 <= y2 -> y2 <= h ->
  h * 1.5 / (h * 1.5 - y1) <= h * 1.5 / (h * 1.5 - y2).
Proof.
  intros H [L M] U. unfold Rdiv.
  apply Rmult_le_compat_l; [lra |].
  apply Rinv_le_contravar; lra.
Qed.

(** The frequency of a stopped string, away from the two special
    positions. *)
Lemma getViolinFreq_stopped (h y : R) (idx : Z) (strings : list ViolinString)
  (s : ViolinString) :
  stringAt strings idx = Some s -> y <> -1 -> y <> h * 1.5 ->
  getViolinFreq (Some h) idx y strings =
  Some (Fin (base s * (1 + (tension s - 50) * 0.01)
             * (h * 1.5 / (h * 1.5 - y)))).
Proof.
  intros E N1 N2. unfold getViolinFreq. rewrite E.
  rewrite Reqb_false by exact N1. cbn [negb].
  rewrite num_div_fin by lra. reflexivity.
Qed.

(** The frequency of an open string. *)
Lemma getViolinFreq_open (c : option R) (idx : Z) (strings : list ViolinString)
  (s : ViolinString) :
  stringAt strings idx = Some s ->
  getViolinFreq c idx (-1) strings =
  Some (Fin (base s * (1 + (tension s - 50) * 0.01) * 1)).
Proof.
  intros E. unfold getViolinFreq. rewrite E.
  rewrite Reqb_true by reflexivity. destruct c; reflexivity.
Qed.

(** X12.  A finger on the canvas raises the pitch, by at most a twelfth:
    for a canvas of height [h > 0], a string of positive base frequency and
    tension above -50, and finger positions [0 <= y1 <= y2 <= h], the
    frequencies [v1] and [v2] satisfy [open <= v1 <= v2 <= 3 * open], where
    [open = base * (1 + (tension - 50) * 0.01)] is the open string. *)
Theorem finger_raises_pitch (h y1 y2 : R) (idx : Z)
  (strings : list ViolinString) (s : ViolinString) :
  stringAt strings idx = Some s ->
  0 < h -> 0 <= y1 <= y2 -> y2 <= h ->
  0 < base s -> -50 < tension s ->
  exists v1 v2,
    getViolinFreq (Some h) idx y1 strings = Some (Fin v1) /\
    getViolinFreq (Some h) idx y2 strings = Some (Fin v2) /\
    base s * (1 + (tension s - 50) * 0.01) <= v1 /\
    v1 <= v2 /\
    v2 <= 3 * (base s * (1 + (tension s - 50) * 0.01)).
Proof.
  intros E H Y U B T.
  rewrite (getViolinFreq_stopped h y1 idx strings s E) by lra.
  rewrite (getViolinFreq_stopped h y2 idx strings s E) by lra.
  do 2 eexists. split; [reflexivity |]. split; [reflexivity |].
  pose proof (stop_factor_bounds h y1 H ltac:(lra)) as [L1 _].
  pose proof (stop_factor_bounds h y2 H ltac:(lra)) as [_ U2].
  pose proof (stop_factor_mono h y1 y2 H Y U) as M.
  set (o := base s * (1 + (tension s - 50) * 0.01)).
  assert (O : 0 < o) by (unfold o; nra).
  repeat split; nra.
Qed.

(** The theorem of X12 on the A string of the standard violin, canvas
    height 400, fingers at 0 and 200. *)
Lemma finger_raises_pitch_witness :
  exists v1 v2,
    getViolinFreq (Some 400) 2 0 stdViolin = Some (Fin v1) /\
    getViolinFreq (Some 400) 2 200 stdViolin = Some (Fin v2) /\
    440 <= v1 /\ v1 <= v2 /\ v2 <= 1320.
Proof.
  destruct (finger_raises_pitch 400 0 200 2 stdViolin
              {| name := "A4"; base := 440; tension := 50;
                 xOff := 0.6; thick := 2 |})
    as (v1 & v2 & E1 & E2 & B1 & B2 & B3);
    try reflexivity; simpl; try lra.
  exists v1, v2. simpl in B1, B3. repeat split; trivial; lra.
Defined.

(** X13.  The octave lies at half the vibrating length: on a canvas of
    height [h > 0] a finger at [0.75 h], which leaves half of the length
    [1.5 h], sounds exactly twice the frequency of the open string. *)
Theorem octave_at_half_length (h : R) (idx : Z)
  (strings : list ViolinString) (s : ViolinString) :
  stringAt strings idx = Some s -> 0 < h ->
  exists o,
    getViolinFreq (Some h) idx (-1) strings = Some (Fin o) /\
    getViolinFreq (Some h) idx (h * 0.75) strings = Some (Fin (2 * o)).
Proof.
  intros E H.
  rewrite (getViolinFreq_open (Some h) idx strings s E).
  rewrite (getViolinFreq_stopped h (h * 0.75) idx strings s E) by lra.
  eexists. split; [reflexivity |]. do 2 f_equal.
  set (o := base s * (1 + (tension s - 50) * 0.01)).
  replace (h * 1.5 - h * 0.75) with (h * 1.5 / 2) by lra.
  set (L := h * 1.5). assert (NL : L <> 0) by (unfold L; lra).
  field. exact NL.
Qed.

(** The theorem of X13 on the A string: the octave at three quarters of
    the canvas. *)
Lemma octave_at_half_length_witness :
  exists o,
    getViolinFreq (Some 400) 2 (-1) stdViolin = Some (Fin o) /\
    getViolinFreq (Some 400) 2 (400 * 0.75) stdViolin = Some (Fin (2 * o)).
Proof.
  apply (octave_at_half_length 400 2 stdViolin
           {| name := "A4"; base := 440; tension := 50;
              xOff := 0.6; thick := 2 |}); [reflexivity | lra].
Defined.

(** ** The open strings *)

Lemma open_string_display (c : option R) (idx : Z) (s : ViolinString)
  (prev : PitchDisplay) (label sol : string) :
  idx <> (-1)%Z -> stringAt stdViolin idx = Some s -> tension s = 50 ->
  note (getNoteInfo (Fin (base s))) = VString label /\
  solfege (getNoteInfo (Fin (base s))) = VString sol ->
  updateFrequency c idx (-1) stdViolin prev =
  Some {| hz := Math.round (Fin (base s));
          shownNote := VString label;
          shownSolfege := VString sol |}.
Proof.
  intros N E T [L S]. unfold updateFrequency.
  replace (idx =? -1)%Z with false by (symmetry; apply Z.eqb_neq; exact N).
  rewrite (getViolinFreq_open c idx stdViolin s E). rewrite T.
  replace (base s * (1 + (50 - 50) * 0.01) * 1) with (base s) by lra.
  cbv zeta. rewrite L, S. reflexivity.
Qed.

(** X14.  Each string of the standard violin, played open, is shown under
    its own name: [getNoteInfo] maps the base frequencies 196, 293.7, 440
    and 659.3 Hz to G3, D4, A4 and E5, with the solfege labels Sol, Re, La
    and Mi, and the frequency shown is the base frequency rounded. *)
Theorem open_strings_show_their_names (c : option R) (idx : nat)
  (s : ViolinString) (prev : PitchDisplay) :
  nth_error stdViolin idx = Some s ->
  exists sol,
    nth_error ["Sol"; "Re"; "La"; "Mi"]%string idx = Some sol /\
    updateFrequency c (Z.of_nat idx) (-1) stdViolin prev =
    Some {| hz := Math.round (Fin (base s));
            shownNote := VString (name s);
            shownSolfege := VString sol |}.
Proof.
  intros E.
  assert (St : stringAt stdViolin (Z.of_nat idx) = Some s).
  { unfold stringAt.
    replace (Z.of_nat idx <? 0)%Z with false by (symmetry; apply Z.ltb_ge; lia).
    rewrite Nat2Z.id. exact E. }
  destruct idx as [| [| [| [| idx]]]]; simpl in E;
    try (destruct idx; discriminate);
    injection E as <-; eexists; (split; [reflexivity |]);
    apply open_string_display; try lia; try exact St; try reflexivity;
    cbn [base].
  - name_note 196%Z 1%Z 55%Z.
  - name_note 2937%Z 10%Z 62%Z.
  - name_note 440%Z 1%Z 69%Z.
  - name_note 6593%Z 10%Z 76%Z.
Qed.

(** The theorem of X14 on the D string. *)
Lemma open_strings_show_their_names_witness :
  updateFrequency None 1 (-1) stdViolin
    {| hz := Fin 0; shownNote := VString "--"; shownSolfege := VString "--" |}
  = Some {| hz := Math.round (Fin 293.7);
            shownNote := VString "D4";
            shownSolfege := VString "Re" |}.
Proof.
  destruct (open_strings_show_their_names None 1
              {| name := "D4"; base := 293.7; tension := 50;
                 xOff := 0.4; thick := 3 |}
              {| hz := Fin 0; shownNote := VString "--";
                 shownSolfege := VString "--" |} eq_refl)
    as (sol & E1 & E2).
  injection E1 as <-. exact E2.
Defined.

(** ** Choosing a string *)





(** ** Tuning a string *)






(** * Pitch detection in the wave experiment *)

Lemma in_window (freq : num) :
  num_lt (Fin 50) freq && num_lt freq (Fin 5000) = true <->
  exists v, freq = Fin v /\ 50 < v < 5000.
Proof.
  split.
  - intros H. apply andb_true_iff in H. destruct H as [L U].
    destruct freq as [| | | v]; simpl in *; try discriminate.
    apply Rltb_true_iff in L, U. exists v. split; [reflexivity | lra].
  - intros (v & -> & L & U). simpl. rewrite !Rltb_true by lra. reflexivity.
Qed.

Lemma Int_part_mono (x y : R) : x <= y -> (Int_part x <= Int_part y)%Z.
Proof.
  intros H. pose proof (Int_part_bounds x) as [Lx _].
  pose proof (Int_part_bounds y) as [_ Uy].
  assert (L : IZR (Int_part x) < IZR (Int_part y + 1)) by (rewrite plus_IZR; lra).
  apply lt_IZR in L. lia.
Qed.

Lemma semitone_mono (f1 f2 : R) :
  0 < f1 -> f1 <= f2 ->
  12 * (ln (f1 / 440) / ln 2) + 69 <= 12 * (ln (f2 / 440) / ln 2) + 69.
Proof.
  intros P L. pose proof ln_2_pos as P2.
  assert (M : ln (f1 / 440) <= ln (f2 / 440)) by (apply ln_le_mono; lra).
  assert (D : ln (f1 / 440) / ln 2 <= ln (f2 / 440) / ln 2).
  { unfold Rdiv. apply Rmult_le_compat_r; [| exact M].
    left. apply Rinv_0_lt_compat. exact P2. }
  lra.
Qed.

(** Between 50 and 5000 Hz the rounded semitone number lies between 31 and
    111. *)
Lemma window_semitones (v : R) :
  50 <= v <= 5000 ->
  (31 <= Int_part (12 * (ln (v / 440) / ln 2) + 69 + / 2) <= 111)%Z.
Proof.
  intros [L U].
  assert (A : Int_part (12 * (ln (50 / 440) / ln 2) + 69 + / 2) = 31%Z)
    by (apply (roundsTo_sound 50 50 1 31); [vm_compute; reflexivity | lra]).
  assert (B : Int_part (12 * (ln (5000 / 440) / ln 2) + 69 + / 2) = 111%Z)
    by (apply (roundsTo_sound 5000 5000 1 111); [vm_compute; reflexivity | lra]).
  split; [rewrite <- A | rewrite <- B]; apply Int_part_mono.
  - pose proof (semitone_mono 50 v ltac:(lra) L). lra.
  - pose proof (semitone_mono v 5000 ltac:(lra) U). lra.
Qed.

(** X17.  The detection step never shows a malformed pitch: either it
    leaves the display as it was, or the estimate is a finite frequency
    [v] strictly between 50 and 5000 Hz and the display becomes [v]
    rounded, between 50 and 5000, with a note made of a letter of the note
    table and an octave number from 1 to 8, and a label of the solfege
    table. *)
Theorem detection_is_well_formed (dataArray : list byte)
  (sampleRate noiseGate : num) (detectedPitch : PitchDisplay) :
  detectPitch dataArray sampleRate noiseGate detectedPitch = detectedPitch \/
  exists (v : R) (letter sol : string) (o : Z),
    autoCorrelate dataArray sampleRate noiseGate = Fin v /\
    50 < v < 5000 /\
    In letter noteNames /\ In sol solfegeNames /\ (1 <= o <= 8)%Z /\
    50 <= IZR (Int_part (v + / 2)) <= 5000 /\
    detectPitch dataArray sampleRate noiseGate detectedPitch =
    {| hz := Fin (IZR (Int_part (v + / 2)));
       shownNote := VString (letter ++ decimal o);
       shownSolfege := VString sol |}.
Proof.
  unfold detectPitch. cbv zeta.
  destruct (num_lt (Fin 50) (autoCorrelate dataArray sampleRate noiseGate)
            && num_lt (autoCorrelate dataArray sampleRate noiseGate) (Fin 5000))
    eqn:W; [right | left; reflexivity].
  apply in_window in W. destruct W as (v & E & L & U). rewrite E.
  destruct (getNoteInfo_fin v ltac:(lra)) as (letter & sol & _ & E1 & E2 & G).
  cbv zeta in *.
  pose proof (window_semitones v ltac:(lra)) as M.
  set (m := Int_part (12 * (ln (v / 440) / ln 2) + 69 + / 2)) in *.
  exists v, letter, sol, (m / 12 - 1)%Z.
  split; [reflexivity |]. split; [lra |].
  split; [apply (nth_error_In _ _ E1) |].
  split; [apply (nth_error_In _ _ E2) |].
  split.
  { pose proof (Z.div_le_mono 31 m 12 ltac:(lia) ltac:(lia)) as Lo.
    pose proof (Z.div_le_mono m 111 12 ltac:(lia) ltac:(lia)) as Hi.
    change (31 / 12)%Z with 2%Z in Lo. change (111 / 12)%Z with 9%Z in Hi.
    lia. }
  split.
  { pose proof (Int_part_mono (IZR 50) (v + / 2) ltac:(lra)) as A.
    pose proof (Int_part_mono (v + / 2) (IZR 5000 + / 2) ltac:(lra)) as B.
    rewrite Int_part_IZR in A. rewrite Int_part_half in B.
    split; apply IZR_le; assumption. }
  rewrite G. reflexivity.
Qed.

(** X18.  Degenerate estimates never reach the display: when the gate
    rejects the buffer, or the working buffer has at most one sample, or
    all its samples are centered, the estimate ([-1], [-sampleRate] or
    [+Infinity]) falls outside the window and the display is left as it
    was, for every positive sample rate. *)
Theorem degenerate_estimates_are_discarded (dataArray : list byte) (s : R)
  (noiseGate : num) (detectedPitch : PitchDisplay) :
  0 < s ->
  num_lt (level dataArray) noiseGate = true \/
  (length (trimmed dataArray) <= 1)%nat \/
  Forall (fun b => b = "128"%byte) (trimmed dataArray) ->
  detectPitch dataArray (Fin s) noiseGate detectedPitch = detectedPitch.
Proof.
  intros S H. unfold detectPitch. cbv zeta.
  assert (Out : autoCorrelate dataArray (Fin s) noiseGate = noPitch \/
                autoCorrelate dataArray (Fin s) noiseGate = Fin (s / -1) \/
                autoCorrelate dataArray (Fin s) noiseGate = PInf).
  { destruct (num_lt (level dataArray) noiseGate) eqn:G.
    - left. unfold autoCorrelate. rewrite G. reflexivity.
    - destruct H as [H | H]; [discriminate |].
      destruct (trimmed dataArray) as [| b0 rest] eqn:T.
      + right. left. rewrite (estimate_empty_trim _ _ _ G T).
        apply num_div_fin. lra.
      + right. right.
        assert (Z : num_div (Fin s) (Fin 0) = PInf)
          by (unfold num_div, scale_inf; rewrite Reqb_true by reflexivity;
              rewrite Rltb_true by exact S; reflexivity).
        destruct H as [H | H].
        * rewrite (estimate_single_trim _ _ _ G); [exact Z |].
          rewrite T in *. simpl in *. lia.
        * rewrite (estimate_flat_trim _ _ _ G); [exact Z | |];
            rewrite T; [discriminate | exact H]. }
  destruct Out as [-> | [-> | ->]]; unfold noPitch; simpl.
  - rewrite Rltb_false by lra. reflexivity.
  - rewrite Rltb_false; [reflexivity |]. unfold Rdiv.
    assert (/ -1 = -1) by (apply Rmult_eq_reg_l with (-1); [field | lra]).
    nra.
  - reflexivity.
Qed.

(** The theorem of X18 at the buffer with loud edges and a silent middle,
    whose estimate is [+Infinity]. *)
Lemma degenerate_estimates_are_discarded_witness :
  detectPitch loudEdges (Fin 44100) (Fin 30) noDetection = noDetection.
Proof.
  apply (degenerate_estimates_are_discarded loudEdges 44100 (Fin 30) noDetection).
  - lra.
  - right. right. rewrite loudEdges_trimmed. repeat constructor.
Defined.

(** X19.  The trace starts on the first rising crossing of the center: the
    trigger index [t] has [dataArray[t] < 128 <= dataArray[t + 1]] with no
    such index before it, both reads inside the buffer; when the buffer has
    no rising crossing the trigger is 0. *)
Theorem trigger_is_first_rising_edge (dataArray : list byte) :
  (risingEdge dataArray (trigger dataArray) = true /\
   (trigger dataArray + 1 < length dataArray)%nat /\
   forall j, (j < trigger dataArray)%nat -> risingEdge dataArray j = false) \/
  (trigger dataArray = 0%nat /\ forall j, risingEdge dataArray j = false).
Proof.
  unfold trigger.
  destruct (find _ (seq 0 (length dataArray - 1))) as [i |] eqn:F.
  - left. destruct (find_seq_some _ _ _ _ F) as (R1 & E & B).
    split; [exact E |]. split; [lia |].
    intros j Hj. apply B. lia.
  - right. split; [reflexivity |]. intros j.
    destruct (Nat.lt_ge_cases j (length dataArray - 1)) as [L | G].
    + apply (find_seq_none _ _ _ F j). lia.
    + unfold risingEdge.
      assert (N : nth_error dataArray (j + 1) = None)
        by (apply nth_error_None; lia).
      rewrite N. destruct (nth_error dataArray j); reflexivity.
Qed.

(** * The metronome *)














(** * The shared audio context *)

(** Once a context exists every call returns it and constructs nothing. *)
Lemma getAudioContextCalls_existing (observed : list bool) (c n r : nat) :
  getAudioContextCalls observed {| audioCtx := Some c; created := n; resumed := r |}
  = (repeat c (length observed),
     {| audioCtx := Some c; created := n;
        resumed := r + count_occ bool_dec observed true |}).
Proof.
  revert r. induction observed as [| s rest IH]; intros r.
  - simpl. rewrite Nat.add_0_r. reflexivity.
  - cbn [getAudioContextCalls]. unfold getAudioContext. cbn [audioCtx created resumed].
    destruct s; cbn [audioCtx created resumed]; rewrite IH; cbn [length repeat].
    + rewrite count_occ_cons_eq by reflexivity.
      rewrite <- Nat.add_succ_comm. reflexivity.
    + rewrite count_occ_cons_neq by discriminate. reflexivity.
Qed.

(** X23 (getAudioContext).  The audio context is a singleton: whatever the
    state of the context at each call, all the calls made after the module is
    loaded return the one context built by the first of them, no second
    context is ever constructed, and [resume] is called once for each call
    that found the context suspended. *)
Theorem one_audio_context (observed : list bool) :
  fst (getAudioContextCalls observed audioModuleLoaded)
    = repeat 0%nat (length observed) /\
  created (snd (getAudioContextCalls observed audioModuleLoaded))
    = Nat.min 1 (length observed) /\
  resumed (snd (getAudioContextCalls observed audioModuleLoaded))
    = count_occ bool_dec observed true.
Proof.
  destruct observed as [| s rest]; [repeat split |].
  cbn [getAudioContextCalls]. unfold getAudioContext, audioModuleLoaded.
  cbn [audioCtx created resumed].
  destruct s; cbn [audioCtx created resumed];
    rewrite getAudioContextCalls_existing; cbn [fst snd created resumed length repeat].
  - rewrite count_occ_cons_eq by reflexivity. repeat split. 
  - rewrite count_occ_cons_neq by discriminate. repeat split.
Qed.
